(** * leatherman::execution (POSIX): a shallow embedding of execution.cc

    The development follows src/execution/src/posix/execution.cc.  Pure
    helpers ([create_environment], [to_exec_arg], [which], the decoding of
    the wait status) are plain functions.  Code that talks to the operating
    system ([rw_from_child], [create_child], [execute]) runs in a small
    state-and-exception monad: the state holds the process-wide flag
    [command_timedout] and the trace of the system calls and callback
    invocations performed so far; the answers of the operating system are
    read from a [world] that is an argument of the call. *)

From Stdlib Require Import ZArith List String Ascii Bool Lia Sorted DecimalString.
Import ListNotations.

Local Open Scope string_scope.
Local Open Scope list_scope.
Local Open Scope Z_scope.

(** ** Text *)

Module Text.

(** [boost::starts_with(s, prefix)]. *)
Definition starts_with (s pre : string) : bool := String.prefix pre s.

(** [%1%] of an integer under [boost::format]: its decimal numeral. *)
Definition decimal (z : Z) : string := NilZero.string_of_int (Z.to_int z).

(** Does the text contain the character? *)
Fixpoint contains (c : ascii) (s : string) : bool :=
  match s with
  | EmptyString => false
  | String a s' => Ascii.eqb a c || contains c s'
  end.

End Text.

(** ** Environment builder (lines 349-381) *)

Module Env.
Import Text.

(** [std::map<string, string>], listed in iteration order (ascending keys). *)
Definition env_map := list (string * string).

(** The ordering invariant of [std::map]: keys strictly ascending, hence
    unique. *)
Definition key_lt (a b : string * string) : Prop :=
  String.ltb (fst a) (fst b) = true.

Definition is_map (m : env_map) : Prop := StronglySorted key_lt m.

(** [environment->count(key)]. *)
Definition count (m : env_map) (key : string) : nat :=
  List.length (filter (fun kvp => String.eqb (fst kvp) key) m).

(** [(boost::format("%1%=%2%") % kvp.first % kvp.second).str()]. *)
Definition format_kvp (kvp : string * string) : string :=
  fst kvp ++ "=" ++ snd kvp.

(** The test of line 359. *)
Definition is_locale (var : string) : bool :=
  starts_with var "LC_ALL=" || starts_with var "LANG=".

(** The three stretches of the result, in the order they are appended. *)
Definition inherited (environ : option (list string)) (merge : bool) : list string :=
  match merge, environ with
  | true, Some vars => filter (fun var => negb (is_locale var)) vars
  | _, _ => []
  end.

Definition given (environment : option env_map) : list string :=
  match environment with
  | Some m => map format_kvp m
  | None => []
  end.

Definition unset (environment : option env_map) (key : string) : bool :=
  match environment with
  | None => true
  | Some m => Nat.eqb (count m key) 0
  end.

Definition defaults (environment : option env_map) : list string :=
  (if unset environment "LC_ALL" then ["LC_ALL=C"] else []) ++
  (if unset environment "LANG" then ["LANG=C"] else []).

(** [create_environment(environment, merge)]; [environ] is the global of
    line 27, null or a null-terminated array. *)
Definition create_environment (environ : option (list string))
    (environment : option env_map) (merge : bool) : list string :=
  let result := [] in
  let result :=
    if merge then
      match environ with
      | Some vars =>
          fold_left (fun acc var => if is_locale var then acc else acc ++ [var])
                    vars result
      | None => result
      end
    else result in
  let result :=
    match environment with
    | Some m => fold_left (fun acc kvp => acc ++ [format_kvp kvp]) m result
    | None => result
    end in
  let result :=
    if unset environment "LC_ALL" then result ++ ["LC_ALL=C"] else result in
  let result :=
    if unset environment "LANG" then result ++ ["LANG=C"] else result in
  result.

(** *** How a child reads its environment block

    The block is handed to [execve] as it is.  The two customary ways a
    program resolves a name against a block with duplicates: *)

(** the C library's [getenv]: the first entry [name=...] wins; *)
Fixpoint getenv (name : string) (block : list string) : option string :=
  match block with
  | [] => None
  | entry :: rest =>
      if starts_with entry (name ++ "=")
      then Some (substring (S (String.length name))
                           (String.length entry - S (String.length name)) entry)
      else getenv name rest
  end.

(** a table filled entry by entry (a shell importing its environment):
    the last entry [name=...] wins. *)
Definition lookup_last (name : string) (block : list string) : option string :=
  getenv name (rev block).

End Env.

(** ** What the operating system and the compiler fix *)

Module Posix.

Definition EINTR : Z := 4.
Definition SIGKILL : Z := 9.
Definition EXIT_FAILURE : Z := 1.
Definition STDIN_FILENO : Z := 0.
Definition STDOUT_FILENO : Z := 1.
Definition STDERR_FILENO : Z := 2.
Definition S_IXUSR : Z := 64.
Definition S_IXGRP : Z := 8.
Definition S_IXOTH : Z := 1.

(** The macros of <sys/wait.h> on the 16-bit wait status (the encoding
    shared by Linux, the BSDs and OS X). *)
Definition WTERMSIG (status : Z) : Z := Z.land status 127.
Definition WEXITSTATUS (status : Z) : Z := Z.shiftr (Z.land status 65280) 8.
Definition WIFEXITED (status : Z) : bool := WTERMSIG status =? 0.

(** A conversion to [signed char]: the low eight bits as a two's
    complement number. *)
Definition signed_char (z : Z) : Z :=
  let low := z mod 256 in if 128 <=? low then low - 256 else low.

Definition WIFSIGNALED (status : Z) : bool :=
  0 <? Z.shiftr (signed_char (Z.land status 127 + 1)) 1.

(** The status [waitpid] stores for a child that left through
    [_exit(code)], and for one that a signal terminated. *)
Definition W_EXITCODE (code sig : Z) : Z := Z.lor (Z.shiftl code 8) sig.
Definition exited (code : Z) : Z := W_EXITCODE (Z.land code 255) 0.
Definition killed_by (sig : Z) (core : bool) : Z :=
  Z.lor sig (if core then 128 else 0).

(** [static_cast<char>(i)] of an [int]: [char] is eight bits wide and its
    signedness is the platform's choice (signed on x86, unsigned on ARM
    and POWER). *)
Definition static_cast_char (char_is_signed : bool) (i : Z) : Z :=
  if char_is_signed then signed_char i else i mod 256.

(** [std::string::resize(n)]: cut, or pad with NUL. *)
Fixpoint resize (n : nat) (s : string) : string :=
  match n with
  | O => EmptyString
  | S n' =>
      match s with
      | EmptyString => String zero (resize n' EmptyString)
      | String a s' => String a (resize n' s')
      end
  end.

(** [read(fd, buf, nbyte)] when [avail] is what the pipe can deliver now:
    at most [nbyte] bytes are stored at the start of [buf]; the count is
    their number. *)
Definition read_bytes (avail : string) (nbyte : nat) : string :=
  substring 0 nbyte avail.

Definition store (bytes buf : string) : string :=
  bytes ++ substring (String.length bytes) (String.length buf - String.length bytes) buf.

End Posix.

(** ** The world a call runs in *)

Inductive stream := Stdout | Stderr.

Definition stream_eqb (a b : stream) : bool :=
  match a, b with
  | Stdout, Stdout | Stderr, Stderr => true
  | _, _ => false
  end.

(** The outcome of one [select], [read] and [write]. *)
Inductive select_result :=
| SelectFailed (errno : Z)                 (* -1 *)
| SelectTimedOut                           (* 0: the 500ms elapsed *)
| SelectReady (readable writable : list Z) (* the sets as select leaves them *).

Inductive read_result :=
| ReadFailed (errno : Z)
| ReadAvailable (avail : string)           (* empty: end of file *).

Inductive write_result :=
| WriteFailed (errno : Z)
| WriteAccepted (room : nat)               (* bytes the pipe takes now *).

(** What the operating system answers during one iteration of the loop of
    [rw_from_child].  [alarm] tells that SIGALRM was delivered during the
    iteration, after its test of [command_timedout]: [timer_handler] ran. *)
Record iteration := {
  alarm : bool;
  select_r : select_result;
  read_r : stream -> read_result;
  write_r : write_result
}.

Record stat_t := { st_mode : Z; st_uid : Z; st_gid : Z }.

Record world := {
  (* the platform *)
  char_is_signed : bool;
  strerror : Z -> string;
  environ : option (list string);
  errno0 : Z;                               (* errno when the call starts *)
  (* the file system and the credentials, as [which] sees them *)
  search_paths : list string;
  is_regular_file : string -> bool;
  stat : string -> option stat_t;
  geteuid : Z;
  getgid : Z;
  getegid : Z;
  getgroups_count : Z;
  getgroups_list : list Z;
  (* the parent's system calls, in program order; [inr] carries errno *)
  pipe_stdin : (Z * Z) + Z;
  pipe_stdout : (Z * Z) + Z;
  pipe_stderr : (Z * Z) + Z;
  open_dev_null : Z;
  vfork : Z;
  vfork_errno : Z;
  sigaction_r : option Z;                   (* [Some errno]: -1 *)
  setitimer_r : option Z;
  script : list iteration;
  waitpid_r : Z + Z;                        (* the status stored, or errno *)
  (* the system calls of the vfork'd child *)
  setpgid_r : option Z;
  dup2_r : Z -> option Z;                   (* by target descriptor *)
  diagnostic_r : option Z;                  (* the write of a diagnostic *)
  sysconf_open_max : Z;
  getrlimit_nofile : option Z;
  execve_errno : option Z                   (* [None]: the image is replaced *)
}.

(** ** The caller's side *)

Record execution_options := {
  merge_environment : bool;
  redirect_stderr_to_stdout : bool;
  redirect_stderr_to_null : bool;
  trim_output : bool;
  throw_on_nonzero_exit : bool;
  throw_on_signal : bool
}.

Record request := {
  file : string;
  arguments : option (list string);
  input : option string;
  environment : option Env.env_map;
  options : execution_options;
  timeout : Z
}.

Record result := {
  success : bool;
  output : string;
  error : string;
  exit_code : Z
}.

Inductive exception :=
| execution_exception (message : string)
| timeout_exception (message : string) (pid : Z)
| child_exit_exception (message : string) (status : Z) (out err : string)
| child_signal_exception (message : string) (status : Z) (out err : string).

(** Modelled from the spec: process_streams, the platform-independent
    stream processor that [execute] calls at line 534, is defined outside
    src/posix/execution.cc.  The spec (3, StreamBuffer; 4.7) describes it as
    per-stream accumulation state fed chunk by chunk, each step able to ask
    for an early end of reading, and yielding at the end the two captured
    texts (trimmed when asked).  A [stream_processor] is that processing
    for a fixed trim flag and fixed caller callbacks: [buffers] is the
    accumulation state, [process s] the function handed to the pipe of
    stream [s], [captured] the tuple returned. *)
Record stream_processor := {
  buffers : Type;
  fresh : buffers;
  process : stream -> buffers -> string -> buffers * bool;
  captured : buffers -> string * string
}.

(** ** Events and the monad *)

Inductive event :=
| EvPipe (rd wr : Z)
| EvOpen (path : string) (fd : Z)
| EvClose (fd : Z)
| EvVfork (pid : Z)
| EvSetpgid
| EvDup2 (from to : Z)
| EvDiagnostic (fd : Z) (message : string)
| EvExecve (program : string) (argv envp : list (option string))
| EvSigaction
| EvSetitimer (seconds : Z)
| EvRead (s : stream) (bytes : string)
| EvCallback (s : stream) (chunk : string) (more : bool)
| EvWrite (fd : Z) (bytes : string)
| EvKill (pid sig : Z)
| EvWaitpid (pid : Z).

Record os_state := {
  command_timedout : bool;
  errno : Z;
  trace : list event
}.

(** How a computation ends: with a value, with a C++ exception, still
    blocked in [select] (the script of the world is used up), or, in the
    vfork'd child, by [_exit] or by a successful [execve]. *)
Inductive res (A : Type) :=
| Ok (a : A)
| Throw (e : exception)
| Blocked
| Exit (code : Z)
| Replaced.

Arguments Ok {A} a.
Arguments Throw {A} e.
Arguments Blocked {A}.
Arguments Exit {A} code.
Arguments Replaced {A}.

Definition M (A : Type) : Type := os_state -> os_state * res A.

Definition ret {A} (a : A) : M A := fun s => (s, Ok a).

Definition bind {A B} (m : M A) (f : A -> M B) : M B :=
  fun s =>
    match m s with
    | (s', Ok a) => f a s'
    | (s', Throw e) => (s', Throw e)
    | (s', Blocked) => (s', Blocked)
    | (s', Exit c) => (s', Exit c)
    | (s', Replaced) => (s', Replaced)
    end.

Declare Scope exec_scope.
Delimit Scope exec_scope with exec.
Notation "x <- m ;; k" := (bind m (fun x => k))
  (at level 61, m at next level, right associativity) : exec_scope.
Notation "' p <- m ;; k" := (bind m (fun x => let p := x in k))
  (at level 61, p pattern, m at next level, right associativity) : exec_scope.
Notation "m ;; k" := (bind m (fun _ => k))
  (at level 61, right associativity) : exec_scope.
Local Open Scope exec_scope.

Definition throw {A} (e : exception) : M A := fun s => (s, Throw e).

Definition emit (ev : event) : M unit :=
  fun s => ({| command_timedout := command_timedout s; errno := errno s;
               trace := trace s ++ [ev] |}, Ok tt).

Definition set_command_timedout (b : bool) : M unit :=
  fun s => ({| command_timedout := b; errno := errno s; trace := trace s |}, Ok tt).

Definition set_errno (e : Z) : M unit :=
  fun s => ({| command_timedout := command_timedout s; errno := e;
               trace := trace s |}, Ok tt).

Definition get_errno : M Z := fun s => (s, Ok (errno s)).

Definition when (b : bool) (m : M unit) : M unit := if b then m else ret tt.

(** [scope_exit]: the handler runs when the scope is left, by return or by
    exception; it does not run while the thread is still blocked inside, nor
    in a child that leaves through [_exit] or [execve]. *)
Definition scope_exit {A} (handler : M unit) (body : M A) : M A :=
  fun s =>
    match body s with
    | (s', Ok a) => (fst (handler s'), Ok a)
    | (s', Throw e) => (fst (handler s'), Throw e)
    | other => other
    end.

(** What runs only when an exception leaves the scope: a [scope_exit]
    whose handler was already run by [invoke()] on the normal path, and the
    destructors of locals of [execute] that are still alive when the part
    of it that a definition covers is through. *)
Definition scope_fail {A} (handler : M unit) (body : M A) : M A :=
  fun s =>
    match body s with
    | (s', Throw e) => (fst (handler s'), Throw e)
    | other => other
    end.

(** [scoped_descriptor::release()] and the destructor of a descriptor still
    held: the descriptor is closed, unless it is the invalid one. *)
Definition release (fd : Z) : M unit := when (0 <=? fd) (emit (EvClose fd)).

(** [format_error(message, error)], lines 72-78. *)
Definition format_error (w : world) (message : string) (error : Z) : string :=
  if String.eqb message ""
  then strerror w error ++ " (" ++ Text.decimal error ++ ")"
  else message ++ ": " ++ strerror w error ++ " (" ++ Text.decimal error ++ ")."%string.

(** ** Path search (lines 80-154) *)

Module Search.
Import Posix.

Definition get_groups (w : world) : list Z :=
  let num := getgroups_count w in
  if num <? 1 then []
  else if negb (Z.of_nat (List.length (getgroups_list w)) =? num) then []
  else getgroups_list w.

Definition is_group_member (w : world) (gid : Z) : bool :=
  if (getgid w =? gid) || (getegid w =? gid) then true
  else existsb (Z.eqb gid) (get_groups w).

Definition is_executable (w : world) (path : string) : bool :=
  match stat w path with
  | None => false
  | Some fs =>
      let euid := geteuid w in
      if euid =? 0
      then negb (Z.land (st_mode fs) (Z.lor S_IXUSR (Z.lor S_IXGRP S_IXOTH)) =? 0)
      else if st_uid fs =? euid then negb (Z.land (st_mode fs) S_IXUSR =? 0)
      else if is_group_member w (st_gid fs) then negb (Z.land (st_mode fs) S_IXGRP =? 0)
      else negb (Z.land (st_mode fs) S_IXOTH =? 0)
  end.

(** [boost::filesystem::path]: [is_absolute()] and [operator/]. *)
Definition is_absolute (p : string) : bool := Text.starts_with p "/".

Fixpoint ends_with_separator (p : string) : bool :=
  match p with
  | EmptyString => false
  | String a EmptyString => Ascii.eqb a "/"
  | String _ rest => ends_with_separator rest
  end.

Definition append_path (dir name : string) : string :=
  if String.eqb name "" then dir
  else if String.eqb dir "" || ends_with_separator dir || Text.starts_with name "/"
  then (dir ++ name)%string
  else (dir ++ "/" ++ name)%string.

Definition which (w : world) (file : string) (directories : list string) : string :=
  if is_absolute file then
    if is_regular_file w file && is_executable w file then file else ""
  else
    (fix search (dirs : list string) : string :=
       match dirs with
       | [] => ""
       | dir :: rest =>
           let p := append_path dir file in
           if is_regular_file w p && is_executable w p then p else search rest
       end) directories.

End Search.

(** ** The multiplexing loop (lines 156-277) *)

Record pipe := {
  name : string;
  descriptor : Z;
  buffer : string;
  callback : stream
}.

Definition set_descriptor (p : pipe) (fd : Z) : pipe :=
  {| name := name p; descriptor := fd; buffer := buffer p; callback := callback p |}.

Definition set_buffer (p : pipe) (b : string) : pipe :=
  {| name := name p; descriptor := descriptor p; buffer := b; callback := callback p |}.

Definition FD_ISSET (fd : Z) (set : list Z) : bool := existsb (Z.eqb fd) set.

(** Lines 183-192: an open pipe gets its buffer resized to 4096. *)
Definition prepare (p : pipe) : pipe :=
  if descriptor p =? -1 then p else set_buffer p (Posix.resize 4096 (buffer p)).

(** Lines 182-198: the greatest descriptor selected upon, -1 if none. *)
Definition select_max (pipes : list pipe) (input_fd : Z) : Z :=
  let max :=
    fold_left (fun max p =>
                 if descriptor p =? -1 then max
                 else if max <? descriptor p then descriptor p else max)
              pipes (-1) in
  if negb (input_fd =? -1) && (max <? input_fd) then input_fd else max.

(** How the [for] loop of lines 222-249 is left: it ran to its end, or a
    callback signalled that reading is over. *)
Inductive flow := Continue | Done.

Section Loop.

Variable sp : stream_processor.
Variable child : Z.
Variable timeout_s : Z.

(** The by-value parameter [input] goes out of scope when [rw_from_child]
    is left, by return or by exception: its descriptor is closed. *)
Definition leave {A} (input_fd : Z) (m : M A) : M A := release input_fd ;; m.

(** Lines 222-249. *)
Fixpoint read_pipes (it : iteration) (readable : list Z) (input_fd : Z)
    (pipes : list pipe) (b : buffers sp) : M (list pipe * buffers sp * flow) :=
  match pipes with
  | [] => ret ([], b, Continue)
  | p :: rest =>
      let continue (p' : pipe) :=
        '(rest', b', f) <- read_pipes it readable input_fd rest b ;;
        ret (p' :: rest', b', f) in
      if (descriptor p =? -1) || negb (FD_ISSET (descriptor p) readable)
      then continue p
      else
        match read_r it (callback p) with
        | ReadFailed e =>
            set_errno e ;;
            if negb (e =? Posix.EINTR)
            then leave input_fd
                   (throw (execution_exception "failed to read child output."))
            else continue p
        | ReadAvailable avail =>
            let bytes := Posix.read_bytes avail (String.length (buffer p)) in
            let count := String.length bytes in
            let p := set_buffer p (Posix.store bytes (buffer p)) in
            if Nat.eqb count 0
            then continue (set_descriptor p (-1))
            else
              let p := set_buffer p (Posix.resize count (buffer p)) in
              emit (EvRead (callback p) bytes) ;;
              let (b', more) := process sp (callback p) b (buffer p) in
              emit (EvCallback (callback p) (buffer p) more) ;;
              if negb more
              then ret (p :: rest, b', Done)
              else
                '(rest', b'', f) <- read_pipes it readable input_fd rest b' ;;
                ret (p :: rest', b'', f)
        end
  end.

(** [rw_from_child(child, pipes, input, timeout)]; one element of the
    script is used per call of [select]. *)
Fixpoint rw_from_child (script : list iteration) (pipes : list pipe)
    (input : Z * string) (b : buffers sp) : M (buffers sp) :=
  fun s =>
    if command_timedout s then
      leave (fst input)
        (throw (timeout_exception
                  ("command timed out after " ++ Text.decimal timeout_s ++ " seconds.")
                  child)) s
    else
      let pipes := map prepare pipes in
      if select_max pipes (fst input) =? -1 then leave (fst input) (ret b) s
      else
        match script with
        | [] => (s, Blocked)
        | it :: rest =>
            (when (alarm it) (set_command_timedout true) ;;
             match select_r it with
             | SelectFailed e =>
                 set_errno e ;;
                 if negb (e =? Posix.EINTR)
                 then leave (fst input)
                        (throw (execution_exception "failed to read child output."))
                 else rw_from_child rest pipes input b
             | SelectTimedOut => rw_from_child rest pipes input b
             | SelectReady readable writable =>
                 '(pipes, b, f) <- read_pipes it readable (fst input) pipes b ;;
                 match f with
                 | Done => leave (fst input) (ret b)
                 | Continue =>
                     if negb (fst input =? -1) && FD_ISSET (fst input) writable
                     then
                       match write_r it with
                       | WriteFailed e =>
                           set_errno e ;;
                           if negb (e =? Posix.EINTR)
                           then leave (fst input)
                                  (throw (execution_exception
                                            "failed to write child input."))
                           else rw_from_child rest pipes input b
                       | WriteAccepted room =>
                           let size := String.length (snd input) in
                           let count := Nat.min room size in
                           if Nat.eqb count 0
                           then release (fst input) ;;
                                rw_from_child rest pipes (-1, "") b
                           else
                             emit (EvWrite (fst input) (substring 0 count (snd input))) ;;
                             rw_from_child rest pipes
                               (fst input, substring count (size - count) (snd input)) b
                       end
                     else rw_from_child rest pipes input b
                 end
             end) s
        end.

End Loop.

(** ** The child launcher (lines 36-63 and 279-403) *)

Definition get_max_descriptor_limit (w : world) (open_max_default : Z) : Z :=
  if 0 <? sysconf_open_max w then sysconf_open_max w
  else match getrlimit_nofile w with
       | Some rlim_cur => rlim_cur
       | None => open_max_default
       end.

(** [OPEN_MAX] is not defined by the headers of Linux: the last resort of
    line 61 applies. *)
Definition OPEN_MAX_default : Z := 256.

Definition exit {A} (code : Z) : M A := fun s => (s, Exit code).

Definition replace_image {A} : M A := fun s => (s, Replaced).

(** The [write] of a diagnostic in the child; its failure is ignored but
    leaves its errno. *)
Definition diagnostic (w : world) (err : Z) (message : string) : M unit :=
  emit (EvDiagnostic err message) ;;
  match diagnostic_r w with
  | Some e => set_errno e
  | None => ret tt
  end.

Definition dup2 (w : world) (from to : Z) : M bool :=
  emit (EvDup2 from to) ;;
  match dup2_r w to with
  | Some e => set_errno e ;; ret false
  | None => ret true
  end.

(** Lines 323-326. *)
Definition close_above_stderr (w : world) : M unit :=
  fold_left (fun m k => m ;; emit (EvClose (Posix.STDERR_FILENO + 1 + Z.of_nat k)))
            (seq 0 (Z.to_nat (get_max_descriptor_limit w OPEN_MAX_default
                              - (Posix.STDERR_FILENO + 1))))
            (ret tt).

(** [exec_child]: it returns only if something failed. *)
Definition exec_child (w : world) (in_ out err : Z) (program : string)
    (argv envp : list (option string)) : M unit :=
  emit EvSetpgid ;;
  match setpgid_r w with
  | Some e => set_errno e ;; diagnostic w err "failed to setpgid."
  | None =>
      ok <- dup2 w in_ Posix.STDIN_FILENO ;;
      if negb ok then diagnostic w err "failed to redirect child stdin."
      else
        ok <- dup2 w out Posix.STDOUT_FILENO ;;
        if negb ok then diagnostic w err "failed to redirect child stdout."
        else
          ok <- dup2 w err Posix.STDERR_FILENO ;;
          if negb ok then diagnostic w err "failed to redirect child stderr."
          else
            close_above_stderr w ;;
            emit (EvExecve program argv envp) ;;
            match execve_errno w with
            | None => replace_image
            | Some e => set_errno e
            end
  end.

(** [to_exec_arg]: the pointers, [None] for the terminating null. *)
Definition to_exec_arg (argument : option (list string)) (first : option string)
    : list (option string) :=
  let result := [] in
  let result := match first with Some f => result ++ [Some f] | None => result end in
  let result := match argument with Some a => result ++ map Some a | None => result end in
  result ++ [None].

(** [create_child]: the parent returns the identifier of the child; the
    child ([vfork] answered 0) never returns. *)
Definition create_child (w : world) (in_ out err : Z) (program : string)
    (argv envp : list (option string)) : M Z :=
  let child := vfork w in
  emit (EvVfork child) ;;
  if child <? 0 then
    set_errno (vfork_errno w) ;;
    throw (execution_exception
             (format_error w "failed to fork child process" (vfork_errno w)))
  else if negb (child =? 0) then ret child
  else
    exec_child w in_ out err program argv envp ;;
    e <- get_errno ;;
    exit (if e =? 0 then Posix.EXIT_FAILURE else e).

(** ** The reaper (lines 475-500) *)

(** The locals the reaper writes. *)
Record reaped := {
  r_success : bool;
  r_signaled : bool;
  r_status : Z
}.

Definition not_reaped : reaped :=
  {| r_success := false; r_signaled := false; r_status := 0 |}.

(** Lines 490-499, on the status [waitpid] stored. *)
Definition decode (w : world) (v : reaped) (status : Z) : reaped :=
  if Posix.WIFEXITED status then
    let status := Posix.static_cast_char (char_is_signed w) (Posix.WEXITSTATUS status) in
    {| r_success := status =? 0; r_signaled := r_signaled v; r_status := status |}
  else if Posix.WIFSIGNALED status then
    {| r_success := r_success v; r_signaled := true;
       r_status := Posix.static_cast_char (char_is_signed w) (Posix.WTERMSIG status) |}
  else
    {| r_success := r_success v; r_signaled := r_signaled v; r_status := status |}.

Definition reaper (w : world) (kill_child : bool) (child : Z) (v : reaped) : M reaped :=
  when kill_child (emit (EvKill (- child) Posix.SIGKILL)) ;;
  emit (EvWaitpid child) ;;
  match waitpid_r w with
  | inr e => set_errno e ;; ret v
  | inl status => ret (decode w v status)
  end.

(** ** The orchestrator (lines 405-573) *)

Definition sys_pipe (w : world) (answer : (Z * Z) + Z) (message : string) : M (Z * Z) :=
  match answer with
  | inl (rd, wr) => emit (EvPipe rd wr) ;; ret (rd, wr)
  | inr e => set_errno e ;; throw (execution_exception (format_error w message e))
  end.

(** Lines 502-526; the value tells whether [timer_reset] was given its
    handler. *)
Definition arm_timer (w : world) (timeout_s : Z) : M bool :=
  if timeout_s =? 0 then ret false
  else
    emit EvSigaction ;;
    match sigaction_r w with
    | Some e =>
        set_errno e ;;
        throw (execution_exception (format_error w "failed to setup timer" e))
    | None =>
        emit (EvSetitimer timeout_s) ;;
        match setitimer_r w with
        | Some e =>
            set_errno e ;;
            throw (execution_exception (format_error w "failed to setup timer" e))
        | None => ret true
        end
    end.

Definition timer_reset (armed : bool) : M unit :=
  when armed (emit (EvSetitimer 0) ;; set_command_timedout false).

(** Modelled from the spec: process_streams (see [stream_processor]; the
    argument [processing] of [execute] gives the processor for each value
    of the trim flag, the caller's two callbacks being fixed): it runs the reading function it is given on fresh accumulation state and
    returns the captured texts; an exception of the reading function goes
    through it. *)
Definition process_streams (sp : stream_processor)
    (read_streams : buffers sp -> M (buffers sp)) : M (string * string) :=
  b <- read_streams (fresh sp) ;;
  ret (captured sp b).

(** Lines 557-572. *)
Definition conclude (rq : request) (v : reaped) (out err : string) : M result :=
  let status := r_status v in
  if negb (r_success v) && negb (r_signaled v) && negb (status =? 0)
     && throw_on_nonzero_exit (options rq)
  then throw (child_exit_exception
                ("child process returned non-zero exit status ("
                   ++ Text.decimal status ++ ").") status out err)
  else if negb (r_success v) && r_signaled v && throw_on_signal (options rq)
  then throw (child_signal_exception
                ("child process was terminated by signal ("
                   ++ Text.decimal status ++ ").") status out err)
  else ret {| success := r_success v; output := out; error := err;
              exit_code := status |}.

(** Lines 426-473: the pipes, the argument and environment vectors, the
    child, and the release of the ends that belong to the child. *)
Record launched := {
  child_pid : Z;
  stdin_write : Z;
  stdout_read : Z;
  stderr_read : Z
}.

(** The descriptor that [dev_null] holds (lines 443-449): the null device
    when standard error is redirected to it, else the invalid one. *)
Definition dev_null (w : world) (rq : request) : Z :=
  if redirect_stderr_to_stdout (options rq) then -1
  else if redirect_stderr_to_null (options rq) then open_dev_null w
  else -1.

(** An exception that leaves [execute] destroys the scoped descriptors
    declared so far, the last one first: each [scope_fail] below holds the
    destructors of the descriptors declared just before it. *)
Definition launch (w : world) (rq : request) (executable : string) : M launched :=
  '(stdin_read, stdin_write) <-
     sys_pipe w (pipe_stdin w) "failed to allocate pipe for stdin redirection" ;;
  scope_fail (release stdin_write ;; release stdin_read)
    ('(stdout_read, stdout_write) <-
       sys_pipe w (pipe_stdout w) "failed to allocate pipe for stdout redirection" ;;
     scope_fail (release stdout_write ;; release stdout_read)
       ('(stderr_read, stderr_write, child_stderr) <-
          (if redirect_stderr_to_stdout (options rq) then ret (-1, -1, stdout_write)
           else if redirect_stderr_to_null (options rq) then
             emit (EvOpen "/dev/null" (open_dev_null w)) ;;
             ret (-1, -1, open_dev_null w)
           else
             '(rd, wr) <-
                sys_pipe w (pipe_stderr w)
                         "failed to allocate pipe for stderr redirection" ;;
             ret (rd, wr, wr)) ;;
        scope_fail (release (dev_null w rq) ;; release stderr_write ;;
                    release stderr_read)
          (let args := to_exec_arg (arguments rq) (Some (file rq)) in
           let variables :=
             Env.create_environment (environ w) (environment rq)
                                    (merge_environment (options rq)) in
           let envp := to_exec_arg (Some variables) None in
           child <- create_child w stdin_read stdout_write child_stderr
                                 executable args envp ;;
           when (match input rq with None => true | Some _ => false end)
                (release stdin_write) ;;
           release stdin_read ;;
           release stdout_write ;;
           release stderr_write ;;
           ret {| child_pid := child; stdin_write := stdin_write;
                  stdout_read := stdout_read; stderr_read := stderr_read |}))).

(** Lines 534-546: the lambda given to [process_streams]. *)
Definition read_streams (sp : stream_processor) (w : world) (rq : request)
    (l : launched) (b : buffers sp) : M (buffers sp) :=
  let pipes :=
    [ {| name := "stdout"; descriptor := stdout_read l; buffer := ""; callback := Stdout |};
      {| name := "stderr"; descriptor := stderr_read l; buffer := ""; callback := Stderr |} ] in
  let inpipe :=
    match input rq with
    | Some text => (stdin_write l, text)
    | None => (-1, "")
    end in
  rw_from_child sp (child_pid l) (timeout rq) (script w) pipes inpipe b.

(** The destructors of the descriptors that [execute] still holds when an
    exception leaves it after the child was created, in the reverse order
    of their declarations (lines 426-443): [dev_null], [stderr_read],
    [stdout_read] and [stdin_write].  [stdin_write] holds nothing once it
    was released (no input, line 469) or moved into the pair handed to
    [rw_from_child] (line 542). *)
Definition unwind_descriptors (w : world) (rq : request) (l : launched)
    (moved : bool) : M unit :=
  release (dev_null w rq) ;;
  release (stderr_read l) ;;
  release (stdout_read l) ;;
  when (negb moved && match input rq with Some _ => true | None => false end)
       (release (stdin_write l)).

(** Lines 475-555: from the definition of the reaper to its invocation.
    An exception in here leaves the scope through [timer_reset], then the
    reaper, which kills, then the destructors of the descriptors; on the
    normal path the reaper is invoked with [kill_child] cleared, and
    [timer_reset] runs when [execute] is left.  An exception of the timer
    set-up finds [stdin_write] still held, one of the loop finds it moved. *)
Definition supervise (sp : stream_processor) (w : world) (rq : request)
    (l : launched) : M (reaped * (string * string)) :=
  armed <-
    scope_fail (reaper w true (child_pid l) not_reaped ;;
                unwind_descriptors w rq l false)
      (arm_timer w (timeout rq)) ;;
  scope_fail (reaper w true (child_pid l) not_reaped ;;
              unwind_descriptors w rq l true)
    (scope_exit (timer_reset armed)
       (captured_text <- process_streams sp (read_streams sp w rq l) ;;
        release (stdout_read l) ;;
        release (stderr_read l) ;;
        v <- reaper w false (child_pid l) not_reaped ;;
        ret (v, captured_text))).

(** [execute]; after the reaper was invoked the only descriptor still held
    is [dev_null], closed when the function is left, by return or by the
    exception of lines 565-570. *)
Definition execute (processing : bool -> stream_processor) (w : world) (rq : request)
    : M result :=
  let sp := processing (trim_output (options rq)) in
  let executable := Search.which w (file rq) (search_paths w) in
  if String.eqb executable "" then
    if throw_on_nonzero_exit (options rq)
    then throw (child_exit_exception "child process returned non-zero exit status."
                                     127 "" "")
    else ret {| success := false; output := ""; error := ""; exit_code := 127 |}
  else
    l <- launch w rq executable ;;
    '(v, (out, err)) <- supervise sp w rq l ;;
    scope_exit (release (dev_null w rq)) (conclude rq v out err).

(** The state a call starts in. *)
Definition start (w : world) : os_state :=
  {| command_timedout := false; errno := errno0 w; trace := [] |}.


(** ** Observing a run *)

(** [performs m Q]: from every state, [m] appends some events [evs] to the
    trace and ends with a result [r] such that [Q evs r]. *)
Definition performs {A} (m : M A) (Q : list event -> res A -> Prop) : Prop :=
  forall s, exists evs,
    trace (fst (m s)) = trace s ++ evs /\ Q evs (snd (m s)).


(** What a result other than [Ok] becomes in the continuation. *)
Definition aborted {A B} (r : res A) : option (res B) :=
  match r with
  | Ok _ => None
  | Throw e => Some (Throw e)
  | Blocked => Some Blocked
  | Exit c => Some (Exit c)
  | Replaced => Some Replaced
  end.

(** Neither a [kill] nor a [waitpid]. *)
Definition quiet (ev : event) : Prop :=
  match ev with
  | EvKill _ _ | EvWaitpid _ => False
  | _ => True
  end.

(** Not a callback that asked for the end of reading. *)
Definition goes_on (ev : event) : Prop :=
  match ev with
  | EvCallback _ _ false => False
  | _ => True
  end.

Definition is_kill (ev : event) : Prop :=
  match ev with
  | EvKill _ _ => True
  | _ => False
  end.

(** The chunks handed to the callback of a stream, and the bytes read from
    its pipe, each in the order of the trace. *)
Definition delivered (st : stream) (evs : list event) : list string :=
  flat_map (fun ev => match ev with
                      | EvCallback s chunk _ => if stream_eqb s st then [chunk] else []
                      | _ => []
                      end) evs.

Definition received (st : stream) (evs : list event) : list string :=
  flat_map (fun ev => match ev with
                      | EvRead s bytes => if stream_eqb s st then [bytes] else []
                      | _ => []
                      end) evs.

Definition chunk_bounded (ev : event) : Prop :=
  match ev with
  | EvCallback _ chunk _ => (1 <= String.length chunk <= 4096)%nat
  | _ => True
  end.

(** The only failures in the script are interruptions by a signal. *)
Definition only_interrupted (it : iteration) : Prop :=
  (forall e, select_r it = SelectFailed e -> e = Posix.EINTR)
  /\ (forall s e, read_r it s = ReadFailed e -> e = Posix.EINTR)
  /\ (forall e, write_r it = WriteFailed e -> e = Posix.EINTR).


(** An open pipe, once prepared for [select], has a buffer of 4096 bytes. *)
Definition prepared (p : pipe) : Prop :=
  descriptor p = -1 \/ String.length (buffer p) = 4096%nat.

(** What the loop may append to the trace: no [kill], no [waitpid], chunks
    of 1 to 4096 bytes, and for each stream the chunks delivered are the
    byte strings read, in the same order. *)
Definition tidy (evs : list event) : Prop :=
  Forall quiet evs
  /\ Forall chunk_bounded evs
  /\ forall st, delivered st evs = received st evs.

(** What the [for] loop over the pipes does in one iteration. *)
Definition reads_well (it : iteration) {S : Type} (evs : list event)
    (r : res (list pipe * S * flow)) : Prop :=
  tidy evs
  /\ match r with
     | Ok (_, _, Done) => True
     | Ok (_, _, Continue) => Forall goes_on evs
     | Throw e =>
         Forall goes_on evs
         /\ exists m, e = execution_exception m /\ ~ only_interrupted it
     | _ => False
     end.

(** What a run of [rw_from_child] does. *)
Definition loops_well (child : Z) (script : list iteration) {S : Type}
    (evs : list event) (r : res S) : Prop :=
  tidy evs
  /\ match r with
     | Ok _ => True
     | Throw (timeout_exception _ pid) => Forall goes_on evs /\ pid = child
     | Throw (execution_exception _) =>
         Forall goes_on evs /\ ~ Forall only_interrupted script
     | Blocked => Forall goes_on evs
     | _ => False
     end.

(** Events of the phases around the loop: nothing is killed or reaped and
    no callback asks for the end of reading. *)
Definition calm (evs : list event) : Prop :=
  Forall quiet evs /\ Forall goes_on evs.

(** What [release], [timer_reset] and the reaper append to the trace. *)
Definition close_events (fd : Z) : list event :=
  if 0 <=? fd then [EvClose fd] else [].

Definition reset_events (armed : bool) : list event :=
  if armed then [EvSetitimer 0] else [].

Definition reap_events (kill_child : bool) (child : Z) : list event :=
  (if kill_child then [EvKill (- child) Posix.SIGKILL] else []) ++ [EvWaitpid child].

(** What the destructors of the descriptors still held append. *)
Definition unwind_events (w : world) (rq : request) (l : launched)
    (moved : bool) : list event :=
  close_events (dev_null w rq)
  ++ close_events (stderr_read l)
  ++ close_events (stdout_read l)
  ++ (if negb moved && match input rq with Some _ => true | None => false end
      then close_events (stdin_write l) else []).

(** The locals after the reaper ran. *)
Definition reaped_by (w : world) : reaped :=
  match waitpid_r w with
  | inl status => decode w not_reaped status
  | inr _ => not_reaped
  end.

(** The exception or the result that lines 557-572 make of the locals. *)
Definition verdict (rq : request) (v : reaped) (out err : string) : res result :=
  snd (conclude rq v out err {| command_timedout := false; errno := 0; trace := [] |}).

(** The descriptors the child closes before [execve]: every one above
    standard error and below the limit. *)
Definition closed_by_child (w : world) : list event :=
  map (fun k => EvClose (Posix.STDERR_FILENO + 1 + Z.of_nat k))
      (seq 0 (Z.to_nat (get_max_descriptor_limit w OPEN_MAX_default
                        - (Posix.STDERR_FILENO + 1)))).

(** The calls that signal or reap a process, in the order of the trace. *)
Definition process_calls (evs : list event) : list event :=
  filter (fun ev => match ev with
                    | EvKill _ _ | EvWaitpid _ => true
                    | _ => false
                    end) evs.

(** The bytes written to the child's standard input, in the order of the
    trace. *)
Fixpoint written (evs : list event) : string :=
  match evs with
  | [] => ""
  | EvWrite _ bytes :: rest => bytes ++ written rest
  | _ :: rest => written rest
  end.

(** A stream has an open pipe among [pipes]. *)
Definition stream_open (pipes : list pipe) (st : stream) : bool :=
  existsb (fun p => stream_eqb (callback p) st && negb (descriptor p =? -1)) pipes.

(** What the loop may do given the pipes and the input descriptor it
    starts with: read, and call back, only for streams with an open pipe;
    write only to the input descriptor; close nothing but the input
    descriptor. *)
Definition permitted (pipes : list pipe) (input_fd : Z) (ev : event) : Prop :=
  match ev with
  | EvRead st _ | EvCallback st _ _ => stream_open pipes st = true
  | EvWrite fd _ | EvClose fd => fd = input_fd /\ input_fd <> -1
  | _ => False
  end.

(** Every open pipe of [pipes] belongs to a stream that has an open pipe
    among [pipes0]. *)
Definition covered (pipes0 pipes : list pipe) : Prop :=
  Forall (fun p => descriptor p = -1 \/ stream_open pipes0 (callback p) = true) pipes.

(** The world [w] with another answer to the third [pipe] call, the one
    for standard error. *)
Definition with_pipe_stderr (w : world) (answer : (Z * Z) + Z) : world :=
  {| char_is_signed := char_is_signed w; strerror := strerror w;
     environ := environ w; errno0 := errno0 w;
     search_paths := search_paths w; is_regular_file := is_regular_file w;
     stat := stat w;
     geteuid := geteuid w; getgid := getgid w; getegid := getegid w;
     getgroups_count := getgroups_count w; getgroups_list := getgroups_list w;
     pipe_stdin := pipe_stdin w; pipe_stdout := pipe_stdout w;
     pipe_stderr := answer;
     open_dev_null := open_dev_null w;
     vfork := vfork w; vfork_errno := vfork_errno w;
     sigaction_r := sigaction_r w; setitimer_r := setitimer_r w;
     script := script w;
     waitpid_r := waitpid_r w;
     setpgid_r := setpgid_r w; dup2_r := dup2_r w; diagnostic_r := diagnostic_r w;
     sysconf_open_max := sysconf_open_max w; getrlimit_nofile := getrlimit_nofile w;
     execve_errno := execve_errno w |}.
(** ** Concrete worlds *)

Module Scenario.

(** A stream processor that appends what it is fed and answers [more]. *)
Definition accumulate (more : bool) : stream_processor :=
  {| buffers := string * string;
     fresh := ("", "");
     process := fun s b chunk =>
                  (match s with
                   | Stdout => (String.append (fst b) chunk, snd b)
                   | Stderr => (fst b, String.append (snd b) chunk)
                   end, more);
     captured := fun b => b |}.

Definition idle : iteration :=
  {| alarm := false; select_r := SelectTimedOut;
     read_r := fun _ => ReadAvailable ""; write_r := WriteAccepted 0 |}.

(** Both pipes 5 and 7 are readable and at end of file. *)
Definition both_closed : iteration :=
  {| alarm := false; select_r := SelectReady [5; 7] [];
     read_r := fun _ => ReadAvailable ""; write_r := WriteAccepted 0 |}.

(** The pipe of stdout delivers [text]. *)
Definition says (text : string) (alarm : bool) : iteration :=
  {| alarm := alarm; select_r := SelectReady [5] [];
     read_r := fun s => match s with
                        | Stdout => ReadAvailable text
                        | Stderr => ReadAvailable ""
                        end;
     write_r := WriteAccepted 0 |}.


Definition read_fails : iteration :=
  {| alarm := false; select_r := SelectReady [5] [];
     read_r := fun _ => ReadFailed 5; write_r := WriteAccepted 0 |}.

(** A Linux host on x86: /bin/sh is there, the parent is process 100 and
    [vfork] answers [pid]. *)
Definition host (pid : Z) (iterations : list iteration) (waited : Z + Z)
    (execve : option Z) : world :=
  {| char_is_signed := true;
     strerror := fun _ => "error";
     environ := Some ["PATH=/bin"; "LANG=fr_FR.UTF-8"; "FOO=parent"];
     errno0 := 0;
     search_paths := ["/usr/bin"; "/bin"];
     is_regular_file := fun p => String.eqb p "/bin/sh";
     stat := fun p => if String.eqb p "/bin/sh"
                      then Some {| st_mode := 493; st_uid := 0; st_gid := 0 |}
                      else None;
     geteuid := 1000; getgid := 1000; getegid := 1000;
     getgroups_count := 1; getgroups_list := [1000];
     pipe_stdin := inl (3, 4); pipe_stdout := inl (5, 6); pipe_stderr := inl (7, 8);
     open_dev_null := 9;
     vfork := pid; vfork_errno := 11;
     sigaction_r := None; setitimer_r := None;
     script := iterations;
     waitpid_r := waited;
     setpgid_r := None; dup2_r := fun _ => None; diagnostic_r := None;
     sysconf_open_max := 16; getrlimit_nofile := Some 16;
     execve_errno := execve |}.

(** The same host when the descriptors have run out: the first [pipe]
    fails with [e]. *)
Definition without_descriptors (w : world) (e : Z) : world :=
  {| char_is_signed := char_is_signed w; strerror := strerror w;
     environ := environ w; errno0 := errno0 w;
     search_paths := search_paths w; is_regular_file := is_regular_file w;
     stat := stat w;
     geteuid := geteuid w; getgid := getgid w; getegid := getegid w;
     getgroups_count := getgroups_count w; getgroups_list := getgroups_list w;
     pipe_stdin := inr e; pipe_stdout := pipe_stdout w; pipe_stderr := pipe_stderr w;
     open_dev_null := open_dev_null w;
     vfork := vfork w; vfork_errno := vfork_errno w;
     sigaction_r := sigaction_r w; setitimer_r := setitimer_r w;
     script := script w;
     waitpid_r := waitpid_r w;
     setpgid_r := setpgid_r w; dup2_r := dup2_r w; diagnostic_r := diagnostic_r w;
     sysconf_open_max := sysconf_open_max w; getrlimit_nofile := getrlimit_nofile w;
     execve_errno := execve_errno w |}.

(** The same host when [setitimer] fails with [e]. *)
Definition without_timer (w : world) (e : Z) : world :=
  {| char_is_signed := char_is_signed w; strerror := strerror w;
     environ := environ w; errno0 := errno0 w;
     search_paths := search_paths w; is_regular_file := is_regular_file w;
     stat := stat w;
     geteuid := geteuid w; getgid := getgid w; getegid := getegid w;
     getgroups_count := getgroups_count w; getgroups_list := getgroups_list w;
     pipe_stdin := pipe_stdin w; pipe_stdout := pipe_stdout w;
     pipe_stderr := pipe_stderr w;
     open_dev_null := open_dev_null w;
     vfork := vfork w; vfork_errno := vfork_errno w;
     sigaction_r := None; setitimer_r := Some e;
     script := script w;
     waitpid_r := waitpid_r w;
     setpgid_r := setpgid_r w; dup2_r := dup2_r w; diagnostic_r := diagnostic_r w;
     sysconf_open_max := sysconf_open_max w; getrlimit_nofile := getrlimit_nofile w;
     execve_errno := execve_errno w |}.

Definition plain : execution_options :=
  {| merge_environment := false; redirect_stderr_to_stdout := false;
     redirect_stderr_to_null := false; trim_output := false;
     throw_on_nonzero_exit := false; throw_on_signal := false |}.

Definition strict : execution_options :=
  {| merge_environment := false; redirect_stderr_to_stdout := false;
     redirect_stderr_to_null := false; trim_output := false;
     throw_on_nonzero_exit := true; throw_on_signal := true |}.

Definition run (program : string) (opts : execution_options) (seconds : Z) : request :=
  {| file := program; arguments := Some ["-c"; "true"]; input := None;
     environment := None; options := opts; timeout := seconds |}.

End Scenario.

(** * Facts *)

(** ** Text *)

Lemma prefix_cons a b s t :
  String.prefix (String a s) (String b t) = if ascii_dec a b then String.prefix s t else false.
Proof. reflexivity. Qed.

Lemma prefix_app (k s t : string) :
  String.prefix (k ++ s) (k ++ t) = String.prefix s t.
Proof.
  induction k as [|a k IH]; cbn [String.append String.prefix]; [reflexivity|].
  destruct (ascii_dec a a) as [_|n]; [exact IH | now elim n].
Qed.

Lemma eqb_ascii_false_neq (a c : ascii) : Ascii.eqb a c = false -> a <> c.
Proof. intros H E. subst. rewrite Ascii.eqb_refl in H. discriminate. Qed.

(** A name without "=" that is followed by "=" at the start of an entry is
    the whole key of that entry. *)
Lemma prefix_key (K k v : string) :
  Text.contains "=" K = false ->
  Text.contains "=" k = false ->
  String.prefix (K ++ "=") (k ++ "=" ++ v) = true ->
  k = K.
Proof.
  revert k. induction K as [|a K IH]; intros k HK Hk H.
  - destruct k as [|b k]; [reflexivity|].
    cbn [String.append String.prefix Text.contains] in H, Hk.
    destruct (ascii_dec "=" b) as [E|_]; [|discriminate].
    subst b. simpl in Hk. discriminate.
  - destruct k as [|b k]; cbn [String.append String.prefix Text.contains] in H, HK, Hk.
    + destruct (ascii_dec a "=") as [E|_]; [|discriminate].
      subst a. simpl in HK. discriminate.
    + apply orb_false_iff in HK as [_ HK]. apply orb_false_iff in Hk as [_ Hk].
      destruct (ascii_dec a b) as [E|_]; [|discriminate].
      subst b. f_equal. now apply IH.
Qed.

Lemma substring_all (s : string) : substring 0 (String.length s) s = s.
Proof. induction s as [|a s IH]; simpl; [reflexivity | now rewrite IH]. Qed.

Lemma value_after_key (K v : string) :
  substring (S (String.length K))
            (String.length (K ++ "=" ++ v) - S (String.length K)) (K ++ "=" ++ v) = v.
Proof.
  induction K as [|a K IH]; simpl.
  - rewrite Nat.sub_0_r. apply substring_all.
  - exact IH.
Qed.

(** ** The environment block *)

Lemma fold_inherit (vars acc : list string) :
  fold_left (fun acc var => if Env.is_locale var then acc else acc ++ [var]) vars acc
  = acc ++ filter (fun var => negb (Env.is_locale var)) vars.
Proof.
  revert acc. induction vars as [|v vars IH]; intro acc; simpl.
  - now rewrite app_nil_r.
  - rewrite IH. destruct (Env.is_locale v); simpl; [reflexivity|].
    now rewrite <- app_assoc.
Qed.

Lemma fold_given (m : Env.env_map) (acc : list string) :
  fold_left (fun acc kvp => acc ++ [Env.format_kvp kvp]) m acc
  = acc ++ map Env.format_kvp m.
Proof.
  revert acc. induction m as [|e m IH]; intro acc; simpl.
  - now rewrite app_nil_r.
  - rewrite IH. now rewrite <- app_assoc.
Qed.

Lemma create_environment_split environ environment merge :
  Env.create_environment environ environment merge
  = Env.inherited environ merge ++ Env.given environment ++ Env.defaults environment.
Proof.
  unfold Env.create_environment, Env.inherited, Env.given, Env.defaults.
  assert (E : forall l : list string,
             (if Env.unset environment "LANG"
              then (if Env.unset environment "LC_ALL" then l ++ ["LC_ALL=C"] else l)
                   ++ ["LANG=C"]
              else (if Env.unset environment "LC_ALL" then l ++ ["LC_ALL=C"] else l))
             = l ++ (if Env.unset environment "LC_ALL" then ["LC_ALL=C"] else [])
                 ++ (if Env.unset environment "LANG" then ["LANG=C"] else [])).
  { intro l. destruct (Env.unset environment "LC_ALL"), (Env.unset environment "LANG");
      simpl; rewrite <- ?app_assoc, ?app_nil_r; reflexivity. }
  rewrite E. clear E.
  destruct merge, environ as [vars|], environment as [m|]; simpl;
    rewrite ?fold_inherit, ?fold_given; simpl; rewrite <- ?app_assoc; reflexivity.
Qed.

Lemma inherited_not_locale environ merge :
  Forall (fun entry => Env.is_locale entry = false) (Env.inherited environ merge).
Proof.
  unfold Env.inherited. destruct merge, environ as [vars|]; try constructor.
  apply Forall_forall. intros e He. apply filter_In in He as [_ He].
  now apply negb_true_iff in He.
Qed.

Lemma count_zero_iff (m : Env.env_map) (key : string) :
  Env.count m key = 0%nat <-> forall v, ~ In (key, v) m.
Proof.
  unfold Env.count. induction m as [|[k v] m IH]; simpl.
  - split; [intros _ v [] | reflexivity].
  - destruct (String.eqb_spec k key) as [E|N]; simpl.
    + split; [discriminate|]. intro H. exfalso. apply (H v). left. now subst.
    + rewrite IH. split.
      * intros H v' [E|I]; [inversion E; congruence | exact (H v' I)].
      * intros H v' I. apply (H v'). now right.
Qed.

(** The entry LC_ALL=C, and LANG=C, is written by the key and value it
    shows and by no other pair. *)
Lemma format_kvp_LC_ALL (k v : string) :
  Env.format_kvp (k, v) = "LC_ALL=C" <-> k = "LC_ALL" /\ v = "C".
Proof.
  unfold Env.format_kvp. simpl. split.
  - intro H.
    do 6 (destruct k as [|? k]; simpl in H; [discriminate | injection H as ? H; subst]).
    destruct k as [|? k]; simpl in H.
    + injection H as H. now subst.
    + injection H as ? H. subst.
      destruct k as [|? k]; simpl in H; [discriminate|].
      injection H as ? H. destruct k; discriminate.
  - intros [-> ->]. reflexivity.
Qed.

Lemma format_kvp_LANG (k v : string) :
  Env.format_kvp (k, v) = "LANG=C" <-> k = "LANG" /\ v = "C".
Proof.
  unfold Env.format_kvp. simpl. split.
  - intro H.
    do 4 (destruct k as [|? k]; simpl in H; [discriminate | injection H as ? H; subst]).
    destruct k as [|? k]; simpl in H.
    + injection H as H. now subst.
    + injection H as ? H. subst.
      destruct k as [|? k]; simpl in H; [discriminate|].
      injection H as ? H. destruct k; discriminate.
  - intros [-> ->]. reflexivity.
Qed.

Lemma in_given (environment : option Env.env_map) (k v : string) :
  (exists m, environment = Some m /\ In (k, v) m) ->
  In (Env.format_kvp (k, v)) (Env.given environment).
Proof. intros (m & -> & H). simpl. now apply in_map. Qed.

Lemma default_LC_ALL environment :
  In "LC_ALL=C" (Env.defaults environment) <-> Env.unset environment "LC_ALL" = true.
Proof.
  unfold Env.defaults.
  destruct (Env.unset environment "LC_ALL"), (Env.unset environment "LANG"); simpl;
    intuition discriminate.
Qed.

Lemma default_LANG environment :
  In "LANG=C" (Env.defaults environment) <-> Env.unset environment "LANG" = true.
Proof.
  unfold Env.defaults.
  destruct (Env.unset environment "LC_ALL"), (Env.unset environment "LANG"); simpl;
    intuition discriminate.
Qed.

Lemma ltb_irrefl (s : string) : String.ltb s s = false.
Proof.
  unfold String.ltb.
  pose proof (String.compare_antisym s s) as H.
  destruct (String.compare s s); simpl in H; try discriminate; reflexivity.
Qed.

(** A [std::map] holds one value per key. *)
Lemma map_unique (m : Env.env_map) (k v1 v2 : string) :
  Env.is_map m -> In (k, v1) m -> In (k, v2) m -> v1 = v2.
Proof.
  unfold Env.is_map. induction 1 as [|e m _ IH Hlt]; intros H1 H2; [destruct H1|].
  rewrite Forall_forall in Hlt.
  destruct H1 as [E1|H1], H2 as [E2|H2].
  - congruence.
  - subst e. specialize (Hlt _ H2). unfold Env.key_lt in Hlt. simpl in Hlt.
    rewrite ltb_irrefl in Hlt. discriminate.
  - subst e. specialize (Hlt _ H1). unfold Env.key_lt in Hlt. simpl in Hlt.
    rewrite ltb_irrefl in Hlt. discriminate.
  - now apply IH.
Qed.

Lemma getenv_app_none name l1 l2 :
  Env.getenv name l1 = None -> Env.getenv name (l1 ++ l2) = Env.getenv name l2.
Proof.
  induction l1 as [|e l1 IH]; simpl; [reflexivity|].
  destruct (Text.starts_with e (name ++ "=")); [discriminate | exact IH].
Qed.

Lemma getenv_app_some name l1 l2 v :
  Env.getenv name l1 = Some v -> Env.getenv name (l1 ++ l2) = Some v.
Proof.
  induction l1 as [|e l1 IH]; simpl; [discriminate|].
  destruct (Text.starts_with e (name ++ "=")); [trivial | exact IH].
Qed.

Lemma getenv_none name l :
  (forall e, In e l -> Text.starts_with e (name ++ "=") = false) ->
  Env.getenv name l = None.
Proof.
  induction l as [|e l IH]; intro H; simpl; [reflexivity|].
  rewrite (H e (or_introl eq_refl)). apply IH. intros e' I. apply H. now right.
Qed.

Lemma getenv_only name value l :
  In (name ++ "=" ++ value)%string l ->
  (forall e, In e l -> Text.starts_with e (name ++ "=") = true ->
             e = (name ++ "=" ++ value)%string) ->
  Env.getenv name l = Some value.
Proof.
  induction l as [|e l IH]; intros I H; [destruct I|]. simpl.
  destruct (Text.starts_with e (name ++ "=")) eqn:P.
  - rewrite (H e (or_introl eq_refl) P). now rewrite value_after_key.
  - destruct I as [E|I].
    + subst e. unfold Text.starts_with in P.
      change (name ++ "=" ++ value)%string with (name ++ ("=" ++ value))%string in P.
      rewrite prefix_app in P. cbn [String.append String.prefix] in P.
      destruct (ascii_dec "=" "=") as [_|n]; [|now elim n].
      destruct value; discriminate.
    + apply IH; [exact I|]. intros e' I' P'. apply H; [now right | exact P'].
Qed.

(** C8, as amended.  The block is the parent's entries that do not start
    with LC_ALL= or LANG= (when merging), then the caller's entries, then
    the defaults; the default LC_ALL=C (LANG=C) is appended exactly when the
    caller's mapping has no LC_ALL (LANG) key; and the block contains
    LC_ALL=C (LANG=C) exactly when that default was appended or the caller's
    mapping itself maps LC_ALL (LANG) to C. *)
Theorem locale_entries_of_block
    (environ : option (list string)) (environment : option Env.env_map) (merge : bool) :
  let block := Env.create_environment environ environment merge in
  block = Env.inherited environ merge ++ Env.given environment ++ Env.defaults environment
  /\ Forall (fun entry => Env.is_locale entry = false) (Env.inherited environ merge)
  /\ (In "LC_ALL=C" (Env.defaults environment) <-> Env.unset environment "LC_ALL" = true)
  /\ (In "LANG=C" (Env.defaults environment) <-> Env.unset environment "LANG" = true)
  /\ (In "LC_ALL=C" block <->
      Env.unset environment "LC_ALL" = true
      \/ exists m, environment = Some m /\ In ("LC_ALL", "C") m)
  /\ (In "LANG=C" block <->
      Env.unset environment "LANG" = true
      \/ exists m, environment = Some m /\ In ("LANG", "C") m).
Proof.
  intro block. subst block. rewrite create_environment_split.
  pose proof (inherited_not_locale environ merge) as Hinh.
  split; [reflexivity|]. split; [exact Hinh|].
  split; [apply default_LC_ALL|]. split; [apply default_LANG|].
  rewrite Forall_forall in Hinh.
  split; rewrite !in_app_iff.
  - rewrite default_LC_ALL. split.
    + intros [I|[I|I]].
      * apply Hinh in I. discriminate.
      * right. destruct environment as [m|]; [|destruct I].
        simpl in I. apply in_map_iff in I as ([k v] & E & I).
        apply format_kvp_LC_ALL in E as [-> ->]. now exists m.
      * now left.
    + intros [U|(m & -> & I)]; [now right; right|].
      right; left. apply in_map_iff. exists ("LC_ALL", "C").
      split; [reflexivity | exact I].
  - rewrite default_LANG. split.
    + intros [I|[I|I]].
      * apply Hinh in I. discriminate.
      * right. destruct environment as [m|]; [|destruct I].
        simpl in I. apply in_map_iff in I as ([k v] & E & I).
        apply format_kvp_LANG in E as [-> ->]. now exists m.
      * now left.
    + intros [U|(m & -> & I)]; [now right; right|].
      right; left. apply in_map_iff. exists ("LANG", "C").
      split; [reflexivity | exact I].
Qed.

(** C8 as stated fails: a caller that itself sets LC_ALL to C has the
    LC_ALL key, and the block contains LC_ALL=C. *)
Lemma block_has_LC_ALL_C_with_caller_key :
  In "LC_ALL=C" (Env.create_environment None (Some [("LC_ALL", "C")]) false)
  /\ Env.count [("LC_ALL", "C")] "LC_ALL" = 1%nat
  /\ Env.is_map [("LC_ALL", "C")].
Proof.
  split; [left; reflexivity|]. split; [reflexivity|].
  repeat constructor.
Qed.

(** C3, as amended.  When the caller's mapping (a map whose keys hold no
    "=") gives [value] to [name], the block holds the caller's entry, and a
    reader that lets the last entry of a name win sees the caller's value;
    the parent's entries are still in the block, before the caller's, so
    that a reader that lets the first entry win ([getenv]) sees the parent's
    value whenever the parent has one. *)
Theorem caller_entry_in_merged_block
    (environ : option (list string)) (m : Env.env_map) (merge : bool)
    (name value : string) :
  Env.is_map m ->
  Forall (fun kvp => Text.contains "=" (fst kvp) = false) m ->
  In (name, value) m ->
  let block := Env.create_environment environ (Some m) merge in
  In (name ++ "=" ++ value)%string block
  /\ Env.lookup_last name block = Some value
  /\ (forall inherited_value,
        Env.getenv name (Env.inherited environ merge) = Some inherited_value ->
        Env.getenv name block = Some inherited_value)
  /\ (forall vars entry,
        merge = true -> environ = Some vars -> In entry vars ->
        Env.is_locale entry = false -> In entry block).
Proof.
  intros Hmap Hkeys Hin block. subst block. rewrite create_environment_split.
  rewrite Forall_forall in Hkeys.
  assert (Hname : Text.contains "=" name = false) by exact (Hkeys _ Hin).
  assert (Hgiven : In (name ++ "=" ++ value)%string (Env.given (Some m))).
  { apply in_map_iff. exists (name, value). split; [reflexivity | exact Hin]. }
  split; [rewrite !in_app_iff; now right; left|].
  split; [|split].
  - unfold Env.lookup_last. rewrite !rev_app_distr, <- app_assoc.
    rewrite getenv_app_none.
    + apply getenv_app_some. apply getenv_only.
      * now apply in_rev in Hgiven.
      * intros e I P. apply in_rev in I. simpl in I.
        apply in_map_iff in I as ([k v] & <- & I).
        unfold Env.format_kvp in *. simpl in *.
        assert (k = name) by (apply (prefix_key name k v); auto; exact (Hkeys _ I)).
        subst k. now rewrite (map_unique m name v value Hmap I Hin).
    + apply getenv_none. intros e I. apply in_rev in I.
      destruct (Text.starts_with e (name ++ "=")) eqn:P; [exfalso | reflexivity].
      unfold Env.defaults in I. apply in_app_iff in I as [I|I].
      * destruct (Env.unset (Some m) "LC_ALL") eqn:U; [|destruct I].
        destruct I as [<-|[]].
        assert ("LC_ALL" = name) by (apply (prefix_key name "LC_ALL" "C"); auto).
        subst name. simpl in U. apply Nat.eqb_eq in U.
        exact (proj1 (count_zero_iff m _) U value Hin).
      * destruct (Env.unset (Some m) "LANG") eqn:U; [|destruct I].
        destruct I as [<-|[]].
        assert ("LANG" = name) by (apply (prefix_key name "LANG" "C"); auto).
        subst name. simpl in U. apply Nat.eqb_eq in U.
        exact (proj1 (count_zero_iff m _) U value Hin).
  - intros pv G. now apply getenv_app_some.
  - intros vars entry -> -> I L. rewrite !in_app_iff. left.
    simpl. apply filter_In. split; [exact I | now rewrite L].
Qed.

Lemma caller_entry_in_merged_block_witness :
  let block := Env.create_environment (Some ["PATH=/bin"; "FOO=parent"])
                                      (Some [("FOO", "caller")]) true in
  In "FOO=caller" block
  /\ Env.lookup_last "FOO" block = Some "caller"
  /\ Env.getenv "FOO" block = Some "parent".
Proof.
  destruct (caller_entry_in_merged_block (Some ["PATH=/bin"; "FOO=parent"])
              [("FOO", "caller")] true "FOO" "caller") as (H1 & H2 & H3 & _).
  - repeat constructor.
  - repeat constructor.
  - left. reflexivity.
  - split; [exact H1|]. split; [exact H2|]. apply H3. reflexivity.
Defined.

(** C3 as stated fails: with merging, the parent's FOO=parent stays ahead of
    the caller's FOO=caller, and a child that reads its environment with
    [getenv] observes the parent's value. *)
Lemma merged_block_keeps_parent_value :
  Env.create_environment (Some ["PATH=/bin"; "FOO=parent"]) (Some [("FOO", "caller")]) true
  = ["PATH=/bin"; "FOO=parent"; "FOO=caller"; "LC_ALL=C"; "LANG=C"]
  /\ Env.getenv "FOO" ["PATH=/bin"; "FOO=parent"; "FOO=caller"; "LC_ALL=C"; "LANG=C"]
     = Some "parent".
Proof. split; reflexivity. Qed.

(** ** The wait status *)

Lemma land_255 (z : Z) : Z.land z 255 = z mod 256.
Proof. change 255 with (Z.ones 8). now rewrite Z.land_ones. Qed.

Lemma land_127 (z : Z) : Z.land z 127 = z mod 128.
Proof. change 127 with (Z.ones 7). now rewrite Z.land_ones. Qed.

Lemma exited_WIFEXITED (code : Z) : Posix.WIFEXITED (Posix.exited code) = true.
Proof.
  unfold Posix.WIFEXITED, Posix.WTERMSIG, Posix.exited, Posix.W_EXITCODE.
  rewrite Z.lor_0_r, land_127, Z.shiftl_mul_pow2 by lia.
  change (2 ^ 8) with (2 * 128). rewrite Z.mul_assoc, Z.mod_mul by lia. reflexivity.
Qed.

Lemma exited_WEXITSTATUS (code : Z) :
  Posix.WEXITSTATUS (Posix.exited code) = code mod 256.
Proof.
  unfold Posix.WEXITSTATUS, Posix.exited, Posix.W_EXITCODE.
  rewrite Z.lor_0_r, Z.shiftr_land, Z.shiftr_shiftl_l by lia.
  change (Z.shiftr 65280 8) with 255. rewrite Z.sub_diag, Z.shiftl_0_r.
  rewrite !land_255. apply Z.mod_mod. lia.
Qed.

Lemma killed_WTERMSIG (sig : Z) (core : bool) :
  0 <= sig < 128 -> Posix.WTERMSIG (Posix.killed_by sig core) = sig.
Proof.
  intro H. unfold Posix.WTERMSIG, Posix.killed_by.
  rewrite Z.land_lor_distr_l, land_127, Z.mod_small by lia.
  destruct core; simpl; apply Z.lor_0_r.
Qed.

Lemma killed_WIFEXITED (sig : Z) (core : bool) :
  1 <= sig <= 126 -> Posix.WIFEXITED (Posix.killed_by sig core) = false.
Proof.
  intro H. unfold Posix.WIFEXITED. rewrite killed_WTERMSIG by lia.
  apply Z.eqb_neq. lia.
Qed.

Lemma killed_WIFSIGNALED (sig : Z) (core : bool) :
  1 <= sig <= 126 -> Posix.WIFSIGNALED (Posix.killed_by sig core) = true.
Proof.
  intro H. unfold Posix.WIFSIGNALED.
  fold (Posix.WTERMSIG (Posix.killed_by sig core)). rewrite killed_WTERMSIG by lia.
  unfold Posix.signed_char. rewrite Z.mod_small by lia.
  destruct (Z.leb_spec 128 (sig + 1)); [lia|].
  rewrite Z.shiftr_div_pow2 by lia. apply Z.ltb_lt.
  change (2 ^ 1) with 2. apply Z.div_str_pos. lia.
Qed.

Lemma static_cast_char_mod (sg : bool) (i : Z) :
  Posix.static_cast_char sg i mod 256 = i mod 256.
Proof.
  unfold Posix.static_cast_char, Posix.signed_char. destruct sg.
  - destruct (Z.leb_spec 128 (i mod 256)).
    + replace (i mod 256 - 256) with (i mod 256 + (-1) * 256) by lia.
      rewrite Z.mod_add by lia. apply Z.mod_mod. lia.
    + apply Z.mod_mod. lia.
  - apply Z.mod_mod. lia.
Qed.

Lemma static_cast_char_range (sg : bool) (i : Z) :
  if sg then -128 <= Posix.static_cast_char sg i <= 127
  else 0 <= Posix.static_cast_char sg i <= 255.
Proof.
  unfold Posix.static_cast_char, Posix.signed_char.
  pose proof (Z.mod_pos_bound i 256 ltac:(lia)).
  destruct sg; [destruct (Z.leb_spec 128 (i mod 256))|]; lia.
Qed.

Lemma static_cast_char_small (sg : bool) (i : Z) :
  0 <= i < 128 -> Posix.static_cast_char sg i = i.
Proof.
  intro H. unfold Posix.static_cast_char, Posix.signed_char.
  rewrite Z.mod_small by lia.
  destruct sg; [destruct (Z.leb_spec 128 i)|]; lia.
Qed.

Lemma static_cast_char_zero (sg : bool) (i : Z) :
  0 <= i < 256 -> (Posix.static_cast_char sg i =? 0) = (i =? 0).
Proof.
  intro H. unfold Posix.static_cast_char, Posix.signed_char.
  rewrite Z.mod_small by lia.
  destruct sg; [destruct (Z.leb_spec 128 i)|];
    destruct (Z.eqb_spec i 0); try apply Z.eqb_neq; try apply Z.eqb_eq; lia.
Qed.

Lemma decode_exited (w : world) (v : reaped) (code : Z) :
  decode w v (Posix.exited code)
  = {| r_success := code mod 256 =? 0;
       r_signaled := r_signaled v;
       r_status := Posix.static_cast_char (char_is_signed w) (code mod 256) |}.
Proof.
  unfold decode. rewrite exited_WIFEXITED, exited_WEXITSTATUS.
  rewrite static_cast_char_zero; [reflexivity|].
  apply Z.mod_pos_bound. lia.
Qed.

Lemma decode_killed (w : world) (v : reaped) (sig : Z) (core : bool) :
  1 <= sig <= 126 ->
  decode w v (Posix.killed_by sig core)
  = {| r_success := r_success v; r_signaled := true; r_status := sig |}.
Proof.
  intro H. unfold decode.
  rewrite killed_WIFEXITED, killed_WIFSIGNALED, killed_WTERMSIG by lia.
  rewrite static_cast_char_small by lia. reflexivity.
Qed.

Lemma reaper_waited (w : world) (k : bool) (child status : Z) (v : reaped) (s : os_state) :
  waitpid_r w = inl status ->
  reaper w k child v s
  = (fst ((when k (emit (EvKill (- child) Posix.SIGKILL)) ;; emit (EvWaitpid child)) s),
     Ok (decode w v status)).
Proof.
  intro H. unfold reaper, bind, when, ret, emit. rewrite H.
  destruct k; reflexivity.
Qed.

(** C7, as amended.  The reaper turns the status that [waitpid] stores into
    the locals of [execute]: after a normal exit with [code], [signaled]
    stays false and [status] is the low eight bits of the code converted to
    [char]: these eight bits themselves (what POSIX keeps of the code)
    where [char] is unsigned and up to 127, and 256 less than them from 128
    on where [char] is signed; success is set exactly when they are 0.
    After a death by signal [sig], [status] is [sig] and [signaled] is
    true. *)
Theorem reaper_decodes_termination
    (w : world) (kill_child : bool) (child status code sig : Z) (core : bool)
    (s : os_state) :
  waitpid_r w = inl status ->
  1 <= sig <= 126 ->
  let v := decode w not_reaped status in
  (exists s', reaper w kill_child child not_reaped s = (s', Ok v))
  /\ (status = Posix.exited code ->
      r_signaled v = false
      /\ r_status v = Posix.static_cast_char (char_is_signed w) (code mod 256)
      /\ r_status v mod 256 = code mod 256
      /\ (if char_is_signed w then -128 <= r_status v <= 127 else 0 <= r_status v <= 255)
      /\ (0 <= code < 128 -> r_status v = code)
      /\ r_success v = (code mod 256 =? 0)
      /\ (char_is_signed w = false \/ code mod 256 < 128 ->
          r_status v = code mod 256)
      /\ (char_is_signed w = true -> 128 <= code mod 256 ->
          r_status v = code mod 256 - 256))
  /\ (status = Posix.killed_by sig core ->
      r_signaled v = true /\ r_status v = sig /\ r_success v = false).
Proof.
  intros Hw Hsig v. subst v. split; [|split].
  - eexists. now apply reaper_waited.
  - intros ->. rewrite decode_exited. simpl.
    pose proof (Z.mod_pos_bound code 256 ltac:(lia)) as Hb.
    split; [reflexivity|]. split; [reflexivity|].
    split; [rewrite static_cast_char_mod; apply Z.mod_mod; lia|].
    split; [apply static_cast_char_range|].
    split; [intro Hc; rewrite Z.mod_small by lia; now apply static_cast_char_small|].
    split; [reflexivity|].
    unfold Posix.static_cast_char, Posix.signed_char. rewrite Z.mod_mod by lia.
    split.
    + intros [-> | Hlow]; [reflexivity|].
      destruct (char_is_signed w); [|reflexivity].
      destruct (Z.leb_spec 128 (code mod 256)); [lia | reflexivity].
    + intros -> Hhigh.
      destruct (Z.leb_spec 128 (code mod 256)); [reflexivity | lia].
  - intros ->. rewrite decode_killed by exact Hsig. simpl. auto.
Qed.

(** ** Rules for [performs] and [keeps_flag] *)

Section Rules.

Context {A B : Type}.

Lemma performs_weaken (m : M A) (Q Q' : list event -> res A -> Prop) :
  performs m Q -> (forall evs r, Q evs r -> Q' evs r) -> performs m Q'.
Proof.
  intros H HQ s. destruct (H s) as (evs & T & HQs). exists evs. auto.
Qed.

Lemma performs_ret (a : A) (Q : list event -> res A -> Prop) :
  Q [] (Ok a) -> performs (ret a) Q.
Proof. intros H s. exists []. simpl. now rewrite app_nil_r. Qed.

Lemma performs_throw (e : exception) (Q : list event -> res A -> Prop) :
  Q [] (Throw e) -> performs (throw e) Q.
Proof. intros H s. exists []. simpl. now rewrite app_nil_r. Qed.

Lemma performs_bind (m : M A) (f : A -> M B)
    (Q1 : list event -> res A -> Prop) (Q : list event -> res B -> Prop) :
  performs m Q1 ->
  (forall a, performs (f a) (fun e2 r => forall e1, Q1 e1 (Ok a) -> Q (e1 ++ e2) r)) ->
  (forall e1 r r', Q1 e1 r -> aborted r = Some r' -> Q e1 r') ->
  performs (bind m f) Q.
Proof.
  intros H1 H2 H3 s. destruct (H1 s) as (e1 & T1 & HQ1).
  unfold bind. destruct (m s) as [s1 r1]. simpl in T1, HQ1.
  destruct r1 as [a|e| |c|];
    try (exists e1; split; [exact T1 | exact (H3 _ _ _ HQ1 eq_refl)]).
  destruct (H2 a s1) as (e2 & T2 & HQ2). exists (e1 ++ e2).
  split; [now rewrite T2, T1, app_assoc | now apply HQ2].
Qed.

Lemma performs_emit_then (ev : event) (k : M B) (Q : list event -> res B -> Prop) :
  performs k (fun e r => Q (ev :: e) r) -> performs (emit ev ;; k) Q.
Proof.
  intros H s. unfold bind, emit.
  match goal with |- context [k ?s1] => destruct (H s1) as (e & T & HQ) end.
  exists (ev :: e). simpl in *. split; [|exact HQ].
  now rewrite T, <- app_assoc.
Qed.

Lemma performs_set_errno_then (e : Z) (k : M B) (Q : list event -> res B -> Prop) :
  performs k Q -> performs (set_errno e ;; k) Q.
Proof.
  intros H s. unfold bind, set_errno.
  match goal with |- context [k ?s1] => exact (H s1) end.
Qed.

Lemma performs_set_flag_then (b : bool) (k : M B) (Q : list event -> res B -> Prop) :
  performs k Q -> performs (set_command_timedout b ;; k) Q.
Proof.
  intros H s. unfold bind, set_command_timedout.
  match goal with |- context [k ?s1] => exact (H s1) end.
Qed.

Lemma performs_get_errno_then (k : Z -> M B) (Q : list event -> res B -> Prop) :
  (forall e, performs (k e) Q) -> performs (e <- get_errno ;; k e) Q.
Proof. intros H s. unfold bind, get_errno. exact (H (errno s) s). Qed.

Lemma performs_when_then (c : bool) (m : M unit) (k : M B)
    (Q : list event -> res B -> Prop) :
  performs (m ;; k) Q -> performs k Q -> performs (when c m ;; k) Q.
Proof. intros H1 H2. destruct c; [exact H1|]. intro s. exact (H2 s). Qed.

Lemma performs_release_then (fd : Z) (k : M B) (Q : list event -> res B -> Prop) :
  performs k (fun e r => Q (EvClose fd :: e) r) -> performs k Q ->
  performs (release fd ;; k) Q.
Proof.
  intros H1 H2. unfold release. apply performs_when_then; [|exact H2].
  now apply performs_emit_then.
Qed.




End Rules.

(** [performs_bind] where the continuation may use what is known of the
    first part. *)
Lemma performs_bind_known {A B} (m : M A) (f : A -> M B)
    (Q1 : list event -> res A -> Prop) (Q : list event -> res B -> Prop) :
  performs m Q1 ->
  (forall a e1, Q1 e1 (Ok a) -> performs (f a) (fun e2 r => Q (e1 ++ e2) r)) ->
  (forall e1 r r', Q1 e1 r -> aborted r = Some r' -> Q e1 r') ->
  performs (bind m f) Q.
Proof.
  intros H1 H2 H3 s. destruct (H1 s) as (e1 & T1 & HQ1).
  unfold bind. destruct (m s) as [s1 r1]. simpl in T1, HQ1.
  destruct r1 as [a|e| |c|];
    try (exists e1; split; [exact T1 | exact (H3 _ _ _ HQ1 eq_refl)]).
  destruct (H2 a e1 HQ1 s1) as (e2 & T2 & HQ2). exists (e1 ++ e2).
  split; [now rewrite T2, T1, app_assoc | exact HQ2].
Qed.





(** ** Tidy runs *)

Lemma tidy_nil : tidy [].
Proof. repeat split; constructor. Qed.

Lemma tidy_app (a b : list event) : tidy a -> tidy b -> tidy (a ++ b).
Proof.
  intros (Q1 & C1 & D1) (Q2 & C2 & D2). split; [|split].
  - apply Forall_app; auto.
  - apply Forall_app; auto.
  - intro st. unfold delivered, received in *. rewrite !flat_map_app.
    now rewrite (D1 st), (D2 st).
Qed.

Lemma tidy_close (fd : Z) (evs : list event) : tidy evs -> tidy (EvClose fd :: evs).
Proof.
  intros (Q1 & C1 & D1). split; [|split].
  - constructor; [exact I | exact Q1].
  - constructor; [exact I | exact C1].
  - intro st. exact (D1 st).
Qed.

Lemma tidy_write (fd : Z) (bytes : string) (evs : list event) :
  tidy evs -> tidy (EvWrite fd bytes :: evs).
Proof.
  intros (Q1 & C1 & D1). split; [|split].
  - constructor; [exact I | exact Q1].
  - constructor; [exact I | exact C1].
  - intro st. exact (D1 st).
Qed.

Lemma tidy_read_callback (s : stream) (bytes : string) (more : bool) (evs : list event) :
  (1 <= String.length bytes <= 4096)%nat ->
  tidy evs -> tidy (EvRead s bytes :: EvCallback s bytes more :: evs).
Proof.
  intros L (Q1 & C1 & D1). split; [|split].
  - repeat constructor; exact Q1.
  - constructor; [exact I|]. constructor; [exact L | exact C1].
  - intro st. unfold delivered, received in *. simpl.
    destruct (stream_eqb s st); simpl; now rewrite (D1 st).
Qed.

(** ** Buffers *)

Lemma resize_length (n : nat) (s : string) : String.length (Posix.resize n s) = n.
Proof.
  revert s. induction n as [|n IH]; intro s; [reflexivity|].
  destruct s; simpl; now rewrite IH.
Qed.

Lemma resize_exact (bytes rest : string) :
  Posix.resize (String.length bytes) (bytes ++ rest) = bytes.
Proof. induction bytes as [|a bytes IH]; simpl; [reflexivity | now rewrite IH]. Qed.

Lemma read_bytes_length (avail : string) (nbyte : nat) :
  (String.length (Posix.read_bytes avail nbyte) <= nbyte)%nat.
Proof.
  unfold Posix.read_bytes. revert avail.
  induction nbyte as [|n IH]; intro avail; destruct avail; simpl; try lia.
  specialize (IH avail). lia.
Qed.

Lemma store_length (bytes buf : string) :
  (String.length bytes <= String.length buf)%nat ->
  String.length (Posix.store bytes buf) = String.length buf.
Proof.
  unfold Posix.store. revert buf.
  induction bytes as [|a bytes IH]; intros buf H; simpl.
  - rewrite Nat.sub_0_r. now rewrite substring_all.
  - destruct buf as [|c buf]; simpl in *; [lia|].
    f_equal. apply IH. lia.
Qed.

Lemma prepare_prepared (p : pipe) : prepared (prepare p).
Proof.
  unfold prepared, prepare. destruct (Z.eqb_spec (descriptor p) (-1)) as [E|N].
  - now left.
  - right. unfold set_buffer. cbn [buffer]. apply resize_length.
Qed.

(** ** The loop *)

Lemma reads_well_read_callback (it : iteration) {S : Type} (s : stream)
    (bytes : string) (evs : list event) (r : res (list pipe * S * flow)) :
  (1 <= String.length bytes <= 4096)%nat ->
  reads_well it evs r ->
  reads_well it (EvRead s bytes :: EvCallback s bytes true :: evs) r.
Proof.
  intros L [T H]. split; [now apply tidy_read_callback|].
  destruct r as [[[ps b] [|]]|e| |c|]; auto.
  - repeat constructor; auto.
  - destruct H as [G X]. split; [repeat constructor; auto | exact X].
Qed.

Lemma leave_throw_performs {A} (fd : Z) (e : exception)
    (Q : list event -> res A -> Prop) :
  Q [] (Throw e) -> Q [EvClose fd] (Throw e) ->
  performs (leave fd (throw e)) Q.
Proof.
  intros H0 H1. unfold leave.
  apply performs_release_then; apply performs_throw; assumption.
Qed.

Lemma leave_ret_performs {A} (fd : Z) (a : A) (Q : list event -> res A -> Prop) :
  Q [] (Ok a) -> Q [EvClose fd] (Ok a) ->
  performs (leave fd (ret a)) Q.
Proof.
  intros H0 H1. unfold leave.
  apply performs_release_then; apply performs_ret; assumption.
Qed.

Lemma tidy_one_close (fd : Z) : tidy [EvClose fd].
Proof. apply tidy_close, tidy_nil. Qed.

Lemma read_pipes_reads_well (sp : stream_processor) (it : iteration)
    (readable : list Z) (fd : Z) (pipes : list pipe) (b : buffers sp) :
  Forall prepared pipes ->
  performs (read_pipes sp it readable fd pipes b) (reads_well it).
Proof.
  intro Hp. revert b. induction Hp as [|p rest Hprep _ IH]; intro b; cbn [read_pipes].
  - apply performs_ret. split; [apply tidy_nil | constructor].
  - assert (Hcont : forall (p' : pipe) (b0 : buffers sp),
               performs ('(rest', b', f) <- read_pipes sp it readable fd rest b0 ;;
                         ret (p' :: rest', b', f)) (reads_well it)).
    { intros p' b0. eapply performs_bind; [apply IH| |].
      - intros [[rest' b'] f]. apply performs_ret. intros e1 H.
        rewrite app_nil_r. destruct H as [T H]. split; [exact T|].
        destruct f; exact H.
      - intros e1 r r' [T H] Hr. destruct r as [a|e| |c|]; inversion Hr; subst;
          split; auto. }
    destruct ((descriptor p =? -1) || negb (FD_ISSET (descriptor p) readable)) eqn:Hsel;
      [apply Hcont|].
    apply orb_false_iff in Hsel as [Hopen _]. apply Z.eqb_neq in Hopen.
    destruct Hprep as [Hclosed|Hlen]; [contradiction|].
    destruct (read_r it (callback p)) as [e|avail] eqn:Hread.
    + apply performs_set_errno_then.
      destruct (negb (e =? Posix.EINTR)) eqn:He; [|apply Hcont].
      assert (~ only_interrupted it) as Hni.
      { intros (_ & Hr & _). apply Hr in Hread. subst e.
        rewrite Z.eqb_refl in He. discriminate. }
      apply leave_throw_performs.
      * split; [apply tidy_nil|]. split; [constructor | eauto].
      * split; [apply tidy_one_close|]. split; [repeat constructor | eauto].
    + set (bytes := Posix.read_bytes avail (String.length (buffer p))).
      destruct (Nat.eqb (String.length bytes) 0) eqn:Hcount; [apply Hcont|].
      apply Nat.eqb_neq in Hcount.
      assert (L : (1 <= String.length bytes <= 4096)%nat).
      { pose proof (read_bytes_length avail (String.length (buffer p))) as Hle.
        fold bytes in Hle. rewrite Hlen in Hle. lia. }
      cbn [set_buffer buffer callback name descriptor].
      unfold Posix.store at 1 2 3. rewrite resize_exact.
      apply performs_emit_then.
      destruct (process sp (callback p) b bytes) as [b' more].
      apply performs_emit_then.
      destruct more; cbn [negb].
      * eapply performs_weaken; [apply Hcont|].
        intros evs r H. now apply reads_well_read_callback.
      * apply performs_ret. split; [|exact I].
        apply tidy_read_callback; [exact L | apply tidy_nil].
Qed.

Lemma loops_well_later (child : Z) (it : iteration) (rest : list iteration)
    {S : Type} (pre evs : list event) (r : res S) :
  tidy pre -> Forall goes_on pre ->
  loops_well child rest evs r ->
  loops_well child (it :: rest) (pre ++ evs) r.
Proof.
  intros Tp Gp [T H]. split; [now apply tidy_app|].
  destruct r as [a|[m|m pid|m st o e|m st o e]| |c|]; auto.
  - destruct H as [G N]. split; [now apply Forall_app|].
    intro F. apply N. now inversion F.
  - destruct H as [G N]. split; [now apply Forall_app | exact N].
  - now apply Forall_app.
Qed.

Lemma loops_well_left (child : Z) (script : list iteration) {S : Type}
    (fd : Z) (r : res S) :
  (forall evs, tidy evs -> Forall goes_on evs -> loops_well child script evs r) ->
  loops_well child script [] r /\ loops_well child script [EvClose fd] r.
Proof.
  intro H. split; apply H.
  - apply tidy_nil.
  - constructor.
  - apply tidy_one_close.
  - repeat constructor.
Qed.

Lemma prepared_map (pipes : list pipe) : Forall prepared (map prepare pipes).
Proof.
  apply Forall_forall. intros p Hp.
  apply in_map_iff in Hp as (p0 & <- & _). apply prepare_prepared.
Qed.

Lemma not_all_interrupted (it : iteration) (rest : list iteration) :
  ~ only_interrupted it -> ~ Forall only_interrupted (it :: rest).
Proof. intros N F. apply N. now inversion F. Qed.

Lemma rw_from_child_loops_well (sp : stream_processor) (child timeout_s : Z)
    (script : list iteration) (pipes : list pipe) (input : Z * string)
    (b : buffers sp) :
  performs (rw_from_child sp child timeout_s script pipes input b)
           (loops_well child script).
Proof.
  revert pipes input b.
  induction script as [|it rest IH]; intros pipes input b s; cbn [rw_from_child];
    (destruct (command_timedout s);
     [ apply leave_throw_performs; (split; [|split]);
         try apply tidy_nil; try apply tidy_one_close; repeat constructor
     | ]);
    (destruct (select_max (map prepare pipes) (fst input) =? -1);
     [ apply leave_ret_performs; (split; [|exact I]);
         try apply tidy_nil; apply tidy_one_close
     | ]).
  - exists []. rewrite app_nil_r. split; [reflexivity|].
    split; [apply tidy_nil | constructor].
  - assert (Hnext : forall pipes' input' b' (pre : list event),
               tidy pre -> Forall goes_on pre ->
               performs (rw_from_child sp child timeout_s rest pipes' input' b')
                        (fun e r => loops_well child (it :: rest) (pre ++ e) r)).
    { intros pipes' input' b' pre Tp Gp.
      eapply performs_weaken; [apply IH|]. intros evs r H.
      now apply loops_well_later. }
    assert (Hnext0 : forall pipes' input' b',
               performs (rw_from_child sp child timeout_s rest pipes' input' b')
                        (loops_well child (it :: rest))).
    { intros. apply (Hnext pipes' input' b' []); [apply tidy_nil | constructor]. }
    assert (Hio : forall fd m,
               ~ only_interrupted it ->
               performs (@leave (buffers sp) fd (throw (execution_exception m)))
                        (loops_well child (it :: rest))).
    { intros fd m N. apply leave_throw_performs;
        apply loops_well_left with (fd := fd);
        intros evs T G; (split; [exact T|]); (split; [exact G|]);
        now apply not_all_interrupted. }
    refine ((_ : performs _ (loops_well child (it :: rest))) s).
    apply performs_when_then; [apply performs_set_flag_then|];
      (destruct (select_r it) as [e| |readable writable] eqn:Hsel;
       [ apply performs_set_errno_then;
         destruct (negb (e =? Posix.EINTR)) eqn:He; [|apply Hnext0];
         apply Hio; intros (Hs & _); apply Hs in Hsel; subst e;
         rewrite Z.eqb_refl in He; discriminate
       | apply Hnext0
       | ]).
    all: eapply performs_bind;
      [ apply read_pipes_reads_well, prepared_map
      |
      | intros e1 r r' [T H] Hr; destruct r as [a|e| |c|]; inversion Hr; subst;
        try contradiction;
        destruct H as (G & m & -> & N); (split; [exact T|]); (split; [exact G|]);
        now apply not_all_interrupted ].
    all: intros [[pipes0 b0] [|]];
      [ | apply leave_ret_performs; intros e1 [T _]; rewrite ?app_nil_r;
          (split; [|exact I]);
          [exact T | apply tidy_app; [exact T | apply tidy_one_close]] ].
    all: assert (Hk : forall pipes' input' b' (pre : list event),
               tidy pre -> Forall goes_on pre ->
               performs (rw_from_child sp child timeout_s rest pipes' input' b')
                 (fun e2 r => forall e1 : list event,
                      reads_well it e1
                        (Ok (pipes0, b0, Continue) : res (list pipe * buffers sp * flow)) ->
                      loops_well child (it :: rest) (e1 ++ pre ++ e2) r))
        by (intros pipes' input' b' pre Tp Gp;
            eapply performs_weaken; [apply IH|]; intros evs r H e1 [T1 G1];
            rewrite app_assoc; apply loops_well_later;
            [apply tidy_app | apply Forall_app | ]; auto).
    all: assert (Hk0 : forall pipes' input' b',
               performs (rw_from_child sp child timeout_s rest pipes' input' b')
                 (fun e2 r => forall e1 : list event,
                      reads_well it e1
                        (Ok (pipes0, b0, Continue) : res (list pipe * buffers sp * flow)) ->
                      loops_well child (it :: rest) (e1 ++ e2) r))
        by (intros; apply (Hk pipes' input' b' []); [apply tidy_nil | constructor]).
    all: cbv beta iota;
      destruct (negb (fst input =? -1) && FD_ISSET (fst input) writable);
      [|apply Hk0].
    all: destruct (write_r it) as [e|room] eqn:Hw.
    all: try (apply performs_set_errno_then;
              destruct (negb (e =? Posix.EINTR)) eqn:He; [|apply Hk0];
              assert (N : ~ only_interrupted it)
                by (intros (_ & _ & Hwr); apply Hwr in Hw; subst e;
                    rewrite Z.eqb_refl in He; discriminate);
              apply leave_throw_performs; intros e1 [T1 G1]; rewrite ?app_nil_r;
              (split; [first [exact T1
                             | apply tidy_app; [exact T1 | apply tidy_one_close]]|]);
              (split; [first [exact G1
                             | apply Forall_app; split;
                               [exact G1 | repeat constructor]]|]);
              now apply not_all_interrupted).
    all: cbv zeta; destruct (Nat.eqb _ 0).
    all: try (apply performs_release_then;
              [ eapply performs_weaken;
                [apply (Hk _ _ _ [EvClose (fst input)]);
                 [apply tidy_one_close | repeat constructor]|];
                intros evs r H e1 H1; exact (H e1 H1)
              | apply Hk0 ]).
    all: match goal with
         | |- performs (bind (emit ?ev) _) _ =>
             apply performs_emit_then;
             eapply performs_weaken;
             [ apply (Hk _ _ _ [ev]);
               [apply tidy_write, tidy_nil | repeat constructor]
             | intros evs r H e1 H1; exact (H e1 H1) ]
         end.
Qed.

(** ** The phases of [execute] *)

Section Calm.

Lemma calm_nil : calm [].
Proof. split; constructor. Qed.

Lemma calm_app (a b : list event) : calm a -> calm b -> calm (a ++ b).
Proof. intros [Q1 G1] [Q2 G2]. split; apply Forall_app; auto. Qed.

Lemma calm_cons (ev : event) (evs : list event) :
  quiet ev -> goes_on ev -> calm evs -> calm (ev :: evs).
Proof. intros Q G [Q1 G1]. split; constructor; auto. Qed.

End Calm.

Lemma calm_bind {A B} (m : M A) (f : A -> M B) :
  performs m (fun evs _ => calm evs) ->
  (forall a, performs (f a) (fun evs _ => calm evs)) ->
  performs (bind m f) (fun evs _ => calm evs).
Proof.
  intros H1 H2. eapply performs_bind; [exact H1| |].
  - intro a. eapply performs_weaken; [apply H2|].
    intros evs r H e1 H1'. now apply calm_app.
  - intros e1 r r' H _. exact H.
Qed.

Lemma calm_emit_then {B} (ev : event) (k : M B) :
  quiet ev -> goes_on ev ->
  performs k (fun evs _ => calm evs) ->
  performs (emit ev ;; k) (fun evs _ => calm evs).
Proof.
  intros Q G H. apply performs_emit_then.
  eapply performs_weaken; [exact H|]. intros evs r C. now apply calm_cons.
Qed.

Lemma calm_emit (ev : event) :
  quiet ev -> goes_on ev -> performs (emit ev) (fun evs _ => calm evs).
Proof.
  intros Q G s. exists [ev]. split; [reflexivity|].
  apply calm_cons; auto. apply calm_nil.
Qed.

Lemma calm_ret {A} (a : A) : performs (ret a) (fun evs _ => calm evs).
Proof. apply performs_ret, calm_nil. Qed.

Lemma calm_throw {A} (e : exception) : performs (@throw A e) (fun evs _ => calm evs).
Proof. apply performs_throw, calm_nil. Qed.

Lemma calm_set_errno (e : Z) : performs (set_errno e) (fun evs _ => calm evs).
Proof. intro s. exists []. simpl. rewrite app_nil_r. split; [reflexivity | apply calm_nil]. Qed.

Lemma calm_release (fd : Z) : performs (release fd) (fun evs _ => calm evs).
Proof.
  unfold release, when. destruct (0 <=? fd); [|apply calm_ret].
  apply calm_emit; exact I.
Qed.

Lemma calm_when (c : bool) (m : M unit) :
  performs m (fun evs _ => calm evs) -> performs (when c m) (fun evs _ => calm evs).
Proof. intro H. destruct c; [exact H | apply calm_ret]. Qed.

Lemma performs_scope_fail {A} (handler : M unit) (body : M A)
    (Q1 : list event -> res A -> Prop) (Qh : list event -> res unit -> Prop)
    (Q : list event -> res A -> Prop) :
  performs body Q1 -> performs handler Qh ->
  (forall e1 r, Q1 e1 r -> (forall e, r <> Throw e) -> Q e1 r) ->
  (forall e1 e2 e rh, Q1 e1 (Throw e) -> Qh e2 rh -> Q (e1 ++ e2) (Throw e)) ->
  performs (scope_fail handler body) Q.
Proof.
  intros Hb Hh Hother Hthrow s. unfold scope_fail.
  destruct (Hb s) as (e1 & T1 & H1).
  destruct (body s) as [s1 r]. cbn [fst snd] in T1, H1.
  destruct r as [a|e| |c|];
    try (exists e1; split; [exact T1 | apply Hother; [exact H1 | discriminate]]).
  destruct (Hh s1) as (e2 & T2 & H2). exists (e1 ++ e2). cbn [fst snd]. split.
  - now rewrite T2, T1, app_assoc.
  - eapply Hthrow; eassumption.
Qed.

Lemma calm_scope_fail {A} (handler : M unit) (body : M A) :
  performs handler (fun evs _ => calm evs) ->
  performs body (fun evs _ => calm evs) ->
  performs (scope_fail handler body) (fun evs _ => calm evs).
Proof.
  intros Hh Hb. eapply performs_scope_fail; [exact Hb | exact Hh | |].
  - intros e1 r H _. exact H.
  - intros e1 e2 e rh H1 H2. now apply calm_app.
Qed.

Lemma scope_fail_ok {A} (handler : M unit) (body : M A) (s s1 : os_state) (a : A) :
  body s = (s1, Ok a) -> scope_fail handler body s = (s1, Ok a).
Proof. intro H. unfold scope_fail. now rewrite H. Qed.

Lemma scope_fail_throw {A} (handler : M unit) (body : M A) (s s1 : os_state)
    (e : exception) :
  body s = (s1, Throw e) -> scope_fail handler body s = (fst (handler s1), Throw e).
Proof. intro H. unfold scope_fail. now rewrite H. Qed.

Lemma scope_fail_blocked {A} (handler : M unit) (body : M A) (s s1 : os_state) :
  body s = (s1, Blocked) -> scope_fail handler body s = (s1, Blocked).
Proof. intro H. unfold scope_fail. now rewrite H. Qed.

Lemma scope_fail_ok_inv {A} (handler : M unit) (body : M A) (s s1 : os_state) (a : A) :
  scope_fail handler body s = (s1, Ok a) -> body s = (s1, Ok a).
Proof.
  unfold scope_fail. destruct (body s) as [s0 [x|e| |c|]]; intro H;
    try discriminate; exact H.
Qed.

Ltac calm_step :=
  match goal with
  | |- performs (bind (emit _) _) _ => apply calm_emit_then; [exact I | exact I |]
  | |- performs (bind _ _) _ => apply calm_bind; [|intro]
  | |- performs (scope_fail _ _) _ => apply calm_scope_fail
  | |- performs (emit _) _ => apply calm_emit; exact I
  | |- performs (ret _) _ => apply calm_ret
  | |- performs (throw _) _ => apply calm_throw
  | |- performs (set_errno _) _ => apply calm_set_errno
  | |- performs (release _) _ => apply calm_release
  | |- performs (when _ _) _ => apply calm_when
  | |- performs (let (_, _) := ?p in _) _ => destruct p
  | |- performs (match ?x with _ => _ end) _ => destruct x
  | |- performs (if ?x then _ else _) _ => destruct x
  end.

Lemma calm_sys_pipe (w : world) (answer : (Z * Z) + Z) (message : string) :
  performs (sys_pipe w answer message) (fun evs _ => calm evs).
Proof. unfold sys_pipe. repeat calm_step. Qed.

Lemma calm_close_above_stderr (w : world) :
  performs (close_above_stderr w) (fun evs _ => calm evs).
Proof.
  unfold close_above_stderr.
  generalize (seq 0 (Z.to_nat (get_max_descriptor_limit w OPEN_MAX_default
                               - (Posix.STDERR_FILENO + 1)))).
  assert (H : performs (ret tt) (fun evs (_ : res unit) => calm evs)) by apply calm_ret.
  revert H. generalize (ret tt). intros m Hm l. revert m Hm.
  induction l as [|k l IH]; intros m Hm; simpl; [exact Hm|].
  apply IH. apply calm_bind; [exact Hm|]. intros _. apply calm_emit; exact I.
Qed.

Lemma calm_diagnostic (w : world) (err : Z) (message : string) :
  performs (diagnostic w err message) (fun evs _ => calm evs).
Proof. unfold diagnostic. repeat calm_step. Qed.

Lemma calm_exec_child (w : world) (i o e : Z) (program : string)
    (argv envp : list (option string)) :
  performs (exec_child w i o e program argv envp) (fun evs _ => calm evs).
Proof.
  unfold exec_child, dup2.
  repeat first [apply calm_diagnostic | apply calm_close_above_stderr | calm_step].
  all: try (intro s; exists []; rewrite app_nil_r; split; [reflexivity | apply calm_nil]).
Qed.

Lemma calm_create_child (w : world) (i o e : Z) (program : string)
    (argv envp : list (option string)) :
  performs (create_child w i o e program argv envp) (fun evs _ => calm evs).
Proof.
  unfold create_child.
  repeat first [apply calm_exec_child | calm_step].
  all: try (intro s; exists []; rewrite app_nil_r; split; [reflexivity | apply calm_nil]).
Qed.

Lemma calm_launch (w : world) (rq : request) (executable : string) :
  performs (launch w rq executable) (fun evs _ => calm evs).
Proof.
  unfold launch.
  repeat first [apply calm_sys_pipe | apply calm_create_child | calm_step].
Qed.

Lemma calm_arm_timer (w : world) (timeout_s : Z) :
  performs (arm_timer w timeout_s) (fun evs _ => calm evs).
Proof. unfold arm_timer. repeat calm_step. Qed.

Lemma bind_ok_inv {A B} (m : M A) (f : A -> M B) (s s' : os_state) (b : B) :
  bind m f s = (s', Ok b) ->
  exists a s1, m s = (s1, Ok a) /\ f a s1 = (s', Ok b).
Proof.
  unfold bind. destruct (m s) as [s1 [a|e| |c|]]; intro H; try discriminate.
  now exists a, s1.
Qed.

Lemma create_child_parent (w : world) (i o e : Z) (program : string)
    (argv envp : list (option string)) (s s' : os_state) (child : Z) :
  create_child w i o e program argv envp s = (s', Ok child) ->
  child = vfork w /\ 0 < child.
Proof.
  unfold create_child. intro H.
  apply bind_ok_inv in H as (_ & s1 & _ & H).
  destruct (Z.ltb_spec (vfork w) 0) as [L|L].
  - apply bind_ok_inv in H as (_ & s2 & _ & H). discriminate.
  - destruct (Z.eqb_spec (vfork w) 0) as [E|N]; simpl in H.
    + apply bind_ok_inv in H as (_ & s2 & _ & H).
      apply bind_ok_inv in H as (x & s3 & _ & H). discriminate.
    + inversion H. subst. split; [reflexivity | lia].
Qed.

Lemma launch_child (w : world) (rq : request) (executable : string)
    (s s1 : os_state) (l : launched) :
  launch w rq executable s = (s1, Ok l) ->
  child_pid l = vfork w /\ 0 < vfork w.
Proof.
  unfold launch. intro H.
  apply bind_ok_inv in H as ([stdin_rd stdin_wr] & sa & _ & H).
  apply scope_fail_ok_inv in H.
  apply bind_ok_inv in H as ([stdout_rd stdout_wr] & sb & _ & H).
  apply scope_fail_ok_inv in H.
  apply bind_ok_inv in H as ([[stderr_rd stderr_wr] child_stderr] & sc & _ & H).
  apply scope_fail_ok_inv in H.
  apply bind_ok_inv in H as (child & sd & Hc & H).
  apply create_child_parent in Hc as [-> Hpos].
  apply bind_ok_inv in H as (_ & se & _ & H).
  apply bind_ok_inv in H as (_ & sf & _ & H).
  apply bind_ok_inv in H as (_ & sg & _ & H).
  apply bind_ok_inv in H as (_ & sh & _ & H).
  inversion H. subst. simpl. auto.
Qed.

Lemma execute_found (processing : bool -> stream_processor) (w : world) (rq : request)
    (exe : string) :
  Search.which w (file rq) (search_paths w) = exe -> exe <> "" ->
  execute processing w rq
  = (l <- launch w rq exe ;;
     '(v, (out, err)) <- supervise (processing (trim_output (options rq))) w rq l ;;
     scope_exit (release (dev_null w rq)) (conclude rq v out err)).
Proof.
  intros Hw Hne. unfold execute. rewrite Hw.
  apply String.eqb_neq in Hne. now rewrite Hne.
Qed.

Lemma conclude_verdict (rq : request) (v : reaped) (out err : string) (s : os_state) :
  conclude rq v out err s = (s, verdict rq v out err).
Proof.
  unfold verdict, conclude.
  destruct (negb (r_success v) && negb (r_signaled v) && negb (r_status v =? 0)
            && throw_on_nonzero_exit (options rq)); [reflexivity|].
  destruct (negb (r_success v) && r_signaled v && throw_on_signal (options rq));
    reflexivity.
Qed.

Lemma release_trace (fd : Z) (s : os_state) :
  trace (fst (release fd s)) = trace s ++ close_events fd
  /\ snd (release fd s) = Ok tt
  /\ command_timedout (fst (release fd s)) = command_timedout s.
Proof.
  unfold release, when, close_events. destruct (0 <=? fd); simpl.
  - auto.
  - rewrite app_nil_r. auto.
Qed.

Lemma timer_reset_trace (armed : bool) (s : os_state) :
  trace (fst (timer_reset armed s)) = trace s ++ reset_events armed.
Proof.
  unfold timer_reset, when, reset_events. destruct armed; simpl.
  - reflexivity.
  - now rewrite app_nil_r.
Qed.

Lemma reaper_trace (w : world) (k : bool) (child : Z) (s : os_state) :
  trace (fst (reaper w k child not_reaped s)) = trace s ++ reap_events k child
  /\ snd (reaper w k child not_reaped s) = Ok (reaped_by w).
Proof.
  unfold reaper, reaped_by, reap_events, bind, when, emit, ret, set_errno.
  destruct k, (waitpid_r w); simpl; rewrite <- ?app_assoc; auto.
Qed.

Lemma bind_ok {A B} (m : M A) (f : A -> M B) (s s1 : os_state) (a : A) :
  m s = (s1, Ok a) -> bind m f s = f a s1.
Proof. intro H. unfold bind. now rewrite H. Qed.

Lemma bind_throw {A B} (m : M A) (f : A -> M B) (s s1 : os_state) (e : exception) :
  m s = (s1, Throw e) -> bind m f s = (s1, Throw e).
Proof. intro H. unfold bind. now rewrite H. Qed.

Lemma bind_blocked {A B} (m : M A) (f : A -> M B) (s s1 : os_state) :
  m s = (s1, Blocked) -> bind m f s = (s1, Blocked).
Proof. intro H. unfold bind. now rewrite H. Qed.

Lemma release_run (fd : Z) (s : os_state) :
  release fd s = (fst (release fd s), Ok tt).
Proof. unfold release, when, emit, ret. destruct (0 <=? fd); reflexivity. Qed.

Lemma reaper_run (w : world) (k : bool) (child : Z) (s : os_state) :
  reaper w k child not_reaped s
  = (fst (reaper w k child not_reaped s), Ok (reaped_by w)).
Proof.
  destruct (reaper_trace w k child s) as [_ R].
  destruct (reaper w k child not_reaped s) as [s' r]. simpl in *. now subst.
Qed.

Lemma unwind_descriptors_trace (w : world) (rq : request) (l : launched)
    (moved : bool) (s : os_state) :
  trace (fst (unwind_descriptors w rq l moved s)) = trace s ++ unwind_events w rq l moved
  /\ command_timedout (fst (unwind_descriptors w rq l moved s)) = command_timedout s.
Proof.
  unfold unwind_descriptors, unwind_events.
  rewrite !(bind_ok _ _ _ _ _ (release_run _ _)).
  destruct (release_trace (dev_null w rq) s) as (T1 & _ & F1).
  destruct (release_trace (stderr_read l) (fst (release (dev_null w rq) s)))
    as (T2 & _ & F2).
  destruct (release_trace (stdout_read l)
              (fst (release (stderr_read l) (fst (release (dev_null w rq) s)))))
    as (T3 & _ & F3).
  destruct (negb moved && match input rq with Some _ => true | None => false end);
    cbn [when].
  - destruct (release_trace (stdin_write l)
                (fst (release (stdout_read l)
                        (fst (release (stderr_read l)
                                (fst (release (dev_null w rq) s)))))))
      as (T4 & _ & F4).
    split; [now rewrite T4, T3, T2, T1, <- !app_assoc | congruence].
  - cbn [ret fst]. split; [now rewrite T3, T2, T1, <- !app_assoc, app_nil_r | congruence].
Qed.

Lemma reaper_keeps_flag (w : world) (k : bool) (child : Z) (s : os_state) :
  command_timedout (fst (reaper w k child not_reaped s)) = command_timedout s.
Proof.
  unfold reaper, bind, when, emit, ret, set_errno.
  destruct k, (waitpid_r w); reflexivity.
Qed.

Lemma timer_reset_flag_after (armed : bool) (s : os_state) :
  command_timedout (fst (timer_reset armed s))
  = if armed then false else command_timedout s.
Proof. destruct armed; reflexivity. Qed.

(** The reaper and then the destructors, as an exception runs them. *)
Lemma unwind_trace (w : world) (rq : request) (l : launched) (moved : bool)
    (s : os_state) :
  trace (fst ((reaper w true (child_pid l) not_reaped ;;
               unwind_descriptors w rq l moved) s))
  = trace s ++ reap_events true (child_pid l) ++ unwind_events w rq l moved
  /\ command_timedout (fst ((reaper w true (child_pid l) not_reaped ;;
                             unwind_descriptors w rq l moved) s))
     = command_timedout s.
Proof.
  rewrite (bind_ok _ _ _ _ _ (reaper_run w true (child_pid l) s)).
  destruct (unwind_descriptors_trace w rq l moved
              (fst (reaper w true (child_pid l) not_reaped s))) as [T F].
  destruct (reaper_trace w true (child_pid l) s) as [T' _].
  split; [now rewrite T, T', <- app_assoc | now rewrite F, reaper_keeps_flag].
Qed.

(** The loop left by an exception: [timer_reset], then the reaper, which
    kills the group and then waits, then the descriptors still held. *)
Lemma supervise_threw (sp : stream_processor) (w : world) (rq : request) (l : launched)
    (s1 s2 s3 : os_state) (armed : bool) (e : exception) :
  arm_timer w (timeout rq) s1 = (s2, Ok armed) ->
  read_streams sp w rq l (fresh sp) s2 = (s3, Throw e) ->
  exists s',
    supervise sp w rq l s1 = (s', Throw e)
    /\ trace s' = trace s3 ++ reset_events armed ++ reap_events true (child_pid l)
                          ++ unwind_events w rq l true
    /\ command_timedout s' = if armed then false else command_timedout s3.
Proof.
  intros Ha Hr. unfold supervise.
  rewrite (bind_ok _ _ _ _ _ (scope_fail_ok _ _ _ _ _ Ha)).
  assert (Hb : scope_exit (timer_reset armed)
                 (captured_text <- process_streams sp (read_streams sp w rq l) ;;
                  release (stdout_read l) ;;
                  release (stderr_read l) ;;
                  v <- reaper w false (child_pid l) not_reaped ;;
                  ret (v, captured_text)) s2
               = (fst (timer_reset armed s3), Throw e)).
  { unfold scope_exit. rewrite (bind_throw _ _ s2 s3 e);
      [reflexivity | unfold process_streams; now apply bind_throw]. }
  rewrite (scope_fail_throw _ _ _ _ _ Hb).
  eexists. split; [reflexivity|].
  destruct (unwind_trace w rq l true (fst (timer_reset armed s3))) as [T F].
  split; [now rewrite T, timer_reset_trace, <- !app_assoc|].
  now rewrite F, timer_reset_flag_after.
Qed.

(** The loop returned: the read ends are closed, the reaper is invoked
    without a kill, and [timer_reset] runs last. *)
Lemma supervise_returned (sp : stream_processor) (w : world) (rq : request)
    (l : launched) (s1 s2 s3 : os_state) (armed : bool) (b : buffers sp) :
  arm_timer w (timeout rq) s1 = (s2, Ok armed) ->
  read_streams sp w rq l (fresh sp) s2 = (s3, Ok b) ->
  exists s',
    supervise sp w rq l s1 = (s', Ok (reaped_by w, captured sp b))
    /\ trace s' = trace s3 ++ close_events (stdout_read l) ++ close_events (stderr_read l)
                          ++ reap_events false (child_pid l) ++ reset_events armed
    /\ command_timedout s' = if armed then false else command_timedout s3.
Proof.
  intros Ha Hr. unfold supervise.
  rewrite (bind_ok _ _ _ _ _ (scope_fail_ok _ _ _ _ _ Ha)).
  assert (Hp : process_streams sp (read_streams sp w rq l) s2 = (s3, Ok (captured sp b))).
  { unfold process_streams. now rewrite (bind_ok _ _ _ _ _ Hr). }
  eexists. split.
  - apply scope_fail_ok. unfold scope_exit.
    rewrite (bind_ok _ _ _ _ _ Hp).
    rewrite (bind_ok _ _ _ _ _ (release_run (stdout_read l) s3)).
    rewrite (bind_ok _ _ _ _ _ (release_run (stderr_read l) _)).
    rewrite (bind_ok _ _ _ _ _ (reaper_run w false (child_pid l) _)).
    cbn [ret fst snd]. reflexivity.
  - rewrite timer_reset_trace, timer_reset_flag_after, reaper_keeps_flag.
    destruct (reaper_trace w false (child_pid l)
                (fst (release (stderr_read l) (fst (release (stdout_read l) s3)))))
      as [T3 _].
    destruct (release_trace (stderr_read l) (fst (release (stdout_read l) s3)))
      as (T2 & _ & F2).
    destruct (release_trace (stdout_read l) s3) as (T1 & _ & F1).
    rewrite T3, T2, T1, F2, F1, <- !app_assoc. split; reflexivity.
Qed.

Lemma supervise_blocked (sp : stream_processor) (w : world) (rq : request)
    (l : launched) (s1 s2 s3 : os_state) (armed : bool) :
  arm_timer w (timeout rq) s1 = (s2, Ok armed) ->
  read_streams sp w rq l (fresh sp) s2 = (s3, Blocked) ->
  supervise sp w rq l s1 = (s3, Blocked).
Proof.
  intros Ha Hr. unfold supervise.
  rewrite (bind_ok _ _ _ _ _ (scope_fail_ok _ _ _ _ _ Ha)).
  apply scope_fail_blocked. unfold scope_exit.
  rewrite (bind_blocked _ _ s2 s3);
    [reflexivity | unfold process_streams; now apply bind_blocked].
Qed.

(** [conclude] and then the destructor of [dev_null]. *)
Lemma conclude_and_leave (w : world) (rq : request) (v : reaped) (out err : string)
    (s : os_state) :
  scope_exit (release (dev_null w rq)) (conclude rq v out err) s
  = (fst (release (dev_null w rq) s), verdict rq v out err)
  /\ (forall x, verdict rq v out err <> Blocked
                /\ verdict rq v out err <> Exit x
                /\ verdict rq v out err <> Replaced).
Proof.
  unfold scope_exit. rewrite conclude_verdict. unfold verdict, conclude.
  destruct (negb (r_success v) && negb (r_signaled v) && negb (r_status v =? 0)
            && throw_on_nonzero_exit (options rq));
    [cbn [throw snd]; split; [reflexivity | repeat split; discriminate]|].
  destruct (negb (r_success v) && r_signaled v && throw_on_signal (options rq));
    cbn [throw ret snd]; (split; [reflexivity | repeat split; discriminate]).
Qed.

(** ** [execute] around the loop *)

Section Around.

Variable processing : bool -> stream_processor.
Variable w : world.
Variable rq : request.

Let sp := processing (trim_output (options rq)).

Variables (exe : string) (l : launched) (s s1 s2 s3 : os_state) (armed : bool).

Hypothesis found : Search.which w (file rq) (search_paths w) = exe.
Hypothesis found_ne : exe <> "".
Hypothesis launched_ok : launch w rq exe s = (s1, Ok l).
Hypothesis armed_ok : arm_timer w (timeout rq) s1 = (s2, Ok armed).

Lemma execute_loop_threw (e : exception) :
  read_streams sp w rq l (fresh sp) s2 = (s3, Throw e) ->
  exists s',
    execute processing w rq s = (s', Throw e)
    /\ trace s' = trace s3 ++ reset_events armed ++ reap_events true (child_pid l)
                          ++ unwind_events w rq l true
    /\ command_timedout s' = if armed then false else command_timedout s3.
Proof.
  intro Hr. destruct (supervise_threw sp w rq l s1 s2 s3 armed e armed_ok Hr)
    as (s' & Hs & T).
  exists s'. split; [|exact T].
  rewrite (execute_found processing w rq exe found found_ne).
  rewrite (bind_ok _ _ _ _ _ launched_ok). fold sp. now apply bind_throw.
Qed.

Lemma execute_loop_returned (b : buffers sp) :
  read_streams sp w rq l (fresh sp) s2 = (s3, Ok b) ->
  exists s',
    execute processing w rq s
    = (s', verdict rq (reaped_by w) (fst (captured sp b)) (snd (captured sp b)))
    /\ trace s' = trace s3 ++ close_events (stdout_read l)
                          ++ close_events (stderr_read l)
                          ++ reap_events false (child_pid l) ++ reset_events armed
                          ++ close_events (dev_null w rq)
    /\ command_timedout s' = if armed then false else command_timedout s3.
Proof.
  intro Hr. destruct (supervise_returned sp w rq l s1 s2 s3 armed b armed_ok Hr)
    as (s' & Hs & T & F).
  exists (fst (release (dev_null w rq) s')). split.
  - rewrite (execute_found processing w rq exe found found_ne).
    rewrite (bind_ok _ _ _ _ _ launched_ok). fold sp.
    rewrite (bind_ok _ _ _ _ _ Hs).
    destruct (captured sp b) as [out err]. cbn [fst snd].
    apply conclude_and_leave.
  - destruct (release_trace (dev_null w rq) s') as (T' & _ & F').
    split; [now rewrite T', T, <- !app_assoc | now rewrite F', F].
Qed.

(** The loop returned and the child had left by [_exit(c)]. *)
Lemma execute_after_exit (b : buffers sp) (c : Z) :
  read_streams sp w rq l (fresh sp) s2 = (s3, Ok b) ->
  waitpid_r w = inl (Posix.exited c) ->
  0 <= c < 256 ->
  exists s',
    execute processing w rq s
    = (s', if negb (c =? 0) && throw_on_nonzero_exit (options rq)
           then Throw (child_exit_exception
                         ("child process returned non-zero exit status ("
                            ++ Text.decimal
                                 (Posix.static_cast_char (char_is_signed w) c)
                            ++ ").")
                         (Posix.static_cast_char (char_is_signed w) c)
                         (fst (captured sp b)) (snd (captured sp b)))
           else Ok {| success := c =? 0;
                      output := fst (captured sp b);
                      error := snd (captured sp b);
                      exit_code := Posix.static_cast_char (char_is_signed w) c |}).
Proof.
  intros Hr Hw Hc.
  destruct (execute_loop_returned b Hr) as (s' & E & _).
  exists s'. rewrite E. f_equal.
  unfold reaped_by. rewrite Hw, decode_exited.
  rewrite (Z.mod_small c 256) by lia.
  unfold verdict, conclude. cbn [r_success r_signaled r_status not_reaped].
  rewrite static_cast_char_zero by lia.
  destruct (c =? 0), (throw_on_nonzero_exit (options rq)); reflexivity.
Qed.

(** What the trace holds when the loop is left. *)
Lemma loop_left (r : res (buffers sp)) :
  read_streams sp w rq l (fresh sp) s2 = (s3, r) ->
  exists before during,
    trace s3 = trace s ++ before ++ during
    /\ calm before
    /\ loops_well (child_pid l) (script w) during r.
Proof.
  intro Hr.
  destruct (calm_launch w rq exe s) as (e1 & T1 & C1).
  destruct (calm_arm_timer w (timeout rq) s1) as (e2 & T2 & C2).
  rewrite launched_ok in T1. rewrite armed_ok in T2. simpl in T1, T2.
  unfold read_streams in Hr.
  match type of Hr with
  | rw_from_child _ _ _ _ ?pipes ?input _ _ = _ =>
      destruct (rw_from_child_loops_well sp (child_pid l) (timeout rq) (script w)
                  pipes input (fresh sp) s2) as (e3 & T3 & L3)
  end.
  rewrite Hr in T3, L3. simpl in T3, L3.
  exists (e1 ++ e2), e3. split; [|split].
  - now rewrite T3, T2, T1, <- !app_assoc.
  - now apply calm_app.
  - exact L3.
Qed.

End Around.

(** ** The flag in the loop *)




Lemma set_flag_run (b : bool) (s : os_state) :
  set_command_timedout b s
  = ({| command_timedout := b; errno := errno s; trace := trace s |}, Ok tt).
Proof. reflexivity. Qed.

Lemma set_errno_run (e : Z) (s : os_state) :
  set_errno e s
  = ({| command_timedout := command_timedout s; errno := e; trace := trace s |}, Ok tt).
Proof. reflexivity. Qed.

Lemma emit_run (ev : event) (s : os_state) :
  emit ev s
  = ({| command_timedout := command_timedout s; errno := errno s;
        trace := trace s ++ [ev] |}, Ok tt).
Proof. reflexivity. Qed.

Ltac run_step :=
  first [ rewrite !(bind_ok _ _ _ _ _ (set_flag_run _ _))
        | rewrite !(bind_ok _ _ _ _ _ (set_errno_run _ _))
        | rewrite !(bind_ok _ _ _ _ _ (emit_run _ _))
        | rewrite !(bind_ok _ _ _ _ _ (release_run _ _)) ].



(** ** The child branch *)

Lemma close_above_stderr_run (w : world) (s : os_state) :
  exists s', close_above_stderr w s = (s', Ok tt) /\ errno s' = errno s.
Proof.
  unfold close_above_stderr.
  generalize (seq 0 (Z.to_nat (get_max_descriptor_limit w OPEN_MAX_default
                               - (Posix.STDERR_FILENO + 1)))).
  assert (H : forall s0, exists s', ret tt s0 = (s', Ok tt) /\ errno s' = errno s0)
    by (intro s0; now exists s0).
  revert H. generalize (@ret unit tt). intros m Hm fds. revert m Hm s.
  induction fds as [|k fds IH]; intros m Hm s; simpl; [apply Hm|].
  apply IH. intro s0. destruct (Hm s0) as (s' & E & Herr).
  rewrite (bind_ok _ _ _ _ _ E). rewrite emit_run. eexists. split; [reflexivity|].
  exact Herr.
Qed.

Lemma dup2_run (w : world) (from to : Z) (s : os_state) :
  dup2_r w to = None ->
  dup2 w from to s
  = ({| command_timedout := command_timedout s; errno := errno s;
        trace := trace s ++ [EvDup2 from to] |}, Ok true).
Proof. intro H. unfold dup2. run_step. now rewrite H. Qed.

Lemma exec_child_failed_execve (w : world) (in_ out err : Z) (program : string)
    (argv envp : list (option string)) (s : os_state) (e : Z) :
  setpgid_r w = None ->
  (forall fd, dup2_r w fd = None) ->
  execve_errno w = Some e ->
  exists s',
    exec_child w in_ out err program argv envp s = (s', Ok tt) /\ errno s' = e.
Proof.
  intros Hpg Hdup Hex. unfold exec_child. run_step. rewrite Hpg.
  rewrite (bind_ok _ _ _ _ _ (dup2_run w _ _ _ (Hdup _))). cbn [negb].
  rewrite (bind_ok _ _ _ _ _ (dup2_run w _ _ _ (Hdup _))). cbn [negb].
  rewrite (bind_ok _ _ _ _ _ (dup2_run w _ _ _ (Hdup _))). cbn [negb].
  match goal with
  | |- context [bind (close_above_stderr w) ?k ?s0] =>
      destruct (close_above_stderr_run w s0) as (sa & Ea & _);
      rewrite (bind_ok _ _ _ _ _ Ea)
  end.
  run_step. rewrite Hex. rewrite set_errno_run. eexists. split; reflexivity.
Qed.

Lemma create_child_failed_execve (w : world) (in_ out err : Z) (program : string)
    (argv envp : list (option string)) (s : os_state) (e : Z) :
  vfork w = 0 ->
  setpgid_r w = None ->
  (forall fd, dup2_r w fd = None) ->
  execve_errno w = Some e ->
  exists s',
    create_child w in_ out err program argv envp s
    = (s', Exit (if e =? 0 then Posix.EXIT_FAILURE else e)).
Proof.
  intros Hv Hpg Hdup Hex. unfold create_child. run_step. rewrite Hv.
  cbn [Z.ltb Z.eqb Z.compare negb].
  match goal with
  | |- context [bind (exec_child w ?i ?o ?r ?p ?a ?v) _ ?s0] =>
      destruct (exec_child_failed_execve w i o r p a v s0 e Hpg Hdup Hex)
        as (s1 & E1 & Herr);
      rewrite (bind_ok _ _ _ _ _ E1)
  end.
  unfold bind, get_errno, exit. rewrite Herr. eexists. reflexivity.
Qed.

(** ** After an interruption *)















(** * The claims *)

(** C5.  When [which] finds no executable for the file, [execute] ends at
    once in the state it started in -- no pipe, no [vfork], no event at all --
    with status 127: a result whose success flag is false or, when
    [throw_on_nonzero_exit] is set, a [child_exit_exception] that carries
    127. *)
Theorem not_found_yields_127
    (processing : bool -> stream_processor) (w : world) (rq : request) (s : os_state) :
  Search.which w (file rq) (search_paths w) = "" ->
  execute processing w rq s
  = (s, if throw_on_nonzero_exit (options rq)
        then Throw (child_exit_exception
                      "child process returned non-zero exit status." 127 "" "")
        else Ok {| success := false; output := ""; error := ""; exit_code := 127 |}).
Proof.
  intro H. unfold execute. rewrite H. cbn [String.eqb].
  destruct (throw_on_nonzero_exit (options rq)); reflexivity.
Qed.

(** C10.  Whatever the script, the run of [rw_from_child] appends to the
    trace events among which every callback invocation carries a chunk of 1
    to 4096 bytes, and for each stream the chunks handed to its callback are
    the byte strings read from its pipe, in the order they were read. *)
Theorem callbacks_get_bounded_chunks_in_order
    (sp : stream_processor) (child timeout_s : Z) (script : list iteration)
    (pipes : list pipe) (input : Z * string) (b : buffers sp) (s : os_state) :
  exists evs,
    trace (fst (rw_from_child sp child timeout_s script pipes input b s))
    = trace s ++ evs
    /\ Forall chunk_bounded evs
    /\ forall st, delivered st evs = received st evs.
Proof.
  destruct (rw_from_child_loops_well sp child timeout_s script pipes input b s)
    as (evs & T & (_ & C & D) & _).
  exists evs. auto.
Qed.


Section Call.

Variable processing : bool -> stream_processor.
Variable w : world.
Variable rq : request.

Let sp := processing (trim_output (options rq)).

Variables (exe : string) (l : launched) (s s1 s2 s3 : os_state) (armed : bool).

(** The executable was found, the child was created, the timer (if any)
    was armed: the call has reached the loop. *)
Hypothesis found : Search.which w (file rq) (search_paths w) = exe.
Hypothesis found_ne : exe <> "".
Hypothesis launched_ok : launch w rq exe s = (s1, Ok l).
Hypothesis armed_ok : arm_timer w (timeout rq) s1 = (s2, Ok armed).

(** C1, as amended.  Up to the moment the loop is left nothing is killed
    and nothing is waited for.  When the loop is left by an exception (the
    timeout or an unrecoverable I/O error: it raises no other), [execute]
    raises it after having disarmed the timer, killed the process group of
    the child and then, next, waited for the child; the descriptors still
    held ([dev_null] and the two read ends) are closed after that.  When
    the loop returns -- all pipes closed, or a callback asked for the end of
    reading -- [execute] closes the read ends and waits for the child
    without any kill, then disarms the timer and closes [dev_null].  A
    callback that asked for the end of reading always makes the loop
    return. *)
Theorem group_killed_before_reaping (r : res (buffers sp)) :
  read_streams sp w rq l (fresh sp) s2 = (s3, r) ->
  exists evs,
    trace s3 = trace s ++ evs
    /\ Forall quiet evs
    /\ (forall e, r = Throw e ->
          Forall goes_on evs
          /\ (exists m, e = timeout_exception m (child_pid l)
                        \/ e = execution_exception m)
          /\ exists s',
               execute processing w rq s = (s', Throw e)
               /\ trace s' = trace s3 ++ reset_events armed
                              ++ [EvKill (- child_pid l) Posix.SIGKILL;
                                  EvWaitpid (child_pid l)]
                              ++ close_events (dev_null w rq)
                              ++ close_events (stderr_read l)
                              ++ close_events (stdout_read l))
    /\ (forall b, r = Ok b ->
          exists s' r',
            execute processing w rq s = (s', r')
            /\ trace s' = trace s3 ++ close_events (stdout_read l)
                                  ++ close_events (stderr_read l)
                                  ++ [EvWaitpid (child_pid l)]
                                  ++ reset_events armed
                                  ++ close_events (dev_null w rq)
            /\ Forall quiet (close_events (stdout_read l)
                             ++ close_events (stderr_read l))
            /\ Forall quiet (reset_events armed ++ close_events (dev_null w rq)))
    /\ (~ Forall goes_on evs -> exists b, r = Ok b).
Proof.
  intro Hr.
  destruct (loop_left processing w rq exe l s s1 s2 s3 armed launched_ok armed_ok r Hr)
    as (before & during & T & [Qb Gb] & (Qd & _ & _) & L).
  exists (before ++ during). split; [exact T|].
  split; [now apply Forall_app|]. split; [|split].
  - intros e ->. split; [|split].
    + apply Forall_app. split; [exact Gb|].
      destruct e; try contradiction; now destruct L.
    + destruct e as [m|m pid|m st o e|m st o e]; try contradiction.
      * exists m. now right.
      * exists m. left. destruct L as [_ ->]. reflexivity.
    + destruct (execute_loop_threw processing w rq exe l s s1 s2 s3 armed
                  found found_ne launched_ok armed_ok e Hr) as (s' & E & T' & _).
      exists s'. split; [exact E|]. rewrite T'. unfold unwind_events.
      cbn [negb andb]. now rewrite app_nil_r.
  - intros b ->.
    destruct (execute_loop_returned processing w rq exe l s s1 s2 s3 armed
                found found_ne launched_ok armed_ok b Hr) as (s' & E & T' & _).
    exists s', (verdict rq (reaped_by w) (fst (captured sp b)) (snd (captured sp b))).
    split; [exact E|]. split; [exact T'|]. split.
    + unfold close_events.
      destruct (0 <=? stdout_read l), (0 <=? stderr_read l); repeat constructor.
    + unfold reset_events, close_events.
      destruct armed, (0 <=? dev_null w rq); repeat constructor.
  - intro N. destruct r as [b|e| |c|]; try contradiction.
    + now exists b.
    + exfalso. apply N. apply Forall_app. split; [exact Gb|].
      destruct e; try contradiction; now destruct L.
    + exfalso. apply N. apply Forall_app. now split.
Qed.


(** C4, as amended.  When the loop returned and [waitpid] reports a
    normal exit with code [c], the status is [c] narrowed to [char]: equal
    to [c] up to 127 and wherever [char] is unsigned, [c - 256] from 128
    on where [char] is signed.  [execute] returns a result with that
    status, with the captured output and with success exactly when [c] is
    0; or, when [c] is not 0 and [throw_on_nonzero_exit] is set, it raises
    a [child_exit_exception] with that status and the captured output. *)
Theorem exit_code_reported (b : buffers sp) (c : Z) :
  read_streams sp w rq l (fresh sp) s2 = (s3, Ok b) ->
  waitpid_r w = inl (Posix.exited c) ->
  0 <= c < 256 ->
  let status := Posix.static_cast_char (char_is_signed w) c in
  status mod 256 = c
  /\ (c < 128 \/ char_is_signed w = false -> status = c)
  /\ (128 <= c -> char_is_signed w = true -> status = c - 256)
  /\ exists s',
       execute processing w rq s
       = (s', if negb (c =? 0) && throw_on_nonzero_exit (options rq)
              then Throw (child_exit_exception
                            ("child process returned non-zero exit status ("
                               ++ Text.decimal status ++ ").")
                            status (fst (captured sp b)) (snd (captured sp b)))
              else Ok {| success := c =? 0;
                         output := fst (captured sp b);
                         error := snd (captured sp b);
                         exit_code := status |}).
Proof.
  intros Hr Hw Hc status. subst status.
  split; [rewrite static_cast_char_mod; now apply Z.mod_small|].
  split; [|split].
  - unfold Posix.static_cast_char, Posix.signed_char.
    rewrite Z.mod_small by lia. intros [H| ->]; [|reflexivity].
    destruct (char_is_signed w); [|reflexivity].
    destruct (Z.leb_spec 128 c); [lia | reflexivity].
  - intros H ->. unfold Posix.static_cast_char, Posix.signed_char.
    rewrite Z.mod_small by lia.
    destruct (Z.leb_spec 128 c); [reflexivity | lia].
  - exact (execute_after_exit processing w rq exe l s s1 s2 s3 armed
             found found_ne launched_ok armed_ok b c Hr Hw Hc).
Qed.

End Call.

(** C2, as amended.  When [execve] fails in the child with errno [e], the
    child leaves through [_exit(e)]; no exception reaches the parent from
    there.  The parent, once the loop returned and [waitpid] reported that
    exit, treats it as any non-zero exit: a result with success false and
    the status [e] narrowed to [char], or a [child_exit_exception] when
    [throw_on_nonzero_exit] is set. *)
Theorem failed_execve_is_a_nonzero_exit
    (processing : bool -> stream_processor) (child_side w : world) (rq : request)
    (exe : string) (l : launched) (s s1 s2 s3 sc : os_state) (armed : bool)
    (b : buffers (processing (trim_output (options rq))))
    (e in_ out err : Z) (argv envp : list (option string)) :
  0 < e < 256 ->
  vfork child_side = 0 ->
  setpgid_r child_side = None ->
  (forall fd, dup2_r child_side fd = None) ->
  execve_errno child_side = Some e ->
  Search.which w (file rq) (search_paths w) = exe ->
  exe <> "" ->
  launch w rq exe s = (s1, Ok l) ->
  arm_timer w (timeout rq) s1 = (s2, Ok armed) ->
  read_streams (processing (trim_output (options rq))) w rq l
               (fresh (processing (trim_output (options rq)))) s2 = (s3, Ok b) ->
  waitpid_r w = inl (Posix.exited e) ->
  let sp := processing (trim_output (options rq)) in
  let status := Posix.static_cast_char (char_is_signed w) e in
  (exists sc', create_child child_side in_ out err exe argv envp sc = (sc', Exit e))
  /\ status <> 0
  /\ exists s',
       execute processing w rq s
       = (s', if throw_on_nonzero_exit (options rq)
              then Throw (child_exit_exception
                            ("child process returned non-zero exit status ("
                               ++ Text.decimal status ++ ").")
                            status (fst (captured sp b)) (snd (captured sp b)))
              else Ok {| success := false;
                         output := fst (captured sp b);
                         error := snd (captured sp b);
                         exit_code := status |}).
Proof.
  intros He Hv Hpg Hdup Hex Hfound Hne Hl Ha Hr Hw sp status.
  split; [|split].
  - destruct (create_child_failed_execve child_side in_ out err exe argv envp sc e
                Hv Hpg Hdup Hex) as (sc' & E).
    exists sc'. rewrite E. f_equal. f_equal.
    destruct (Z.eqb_spec e 0); [lia | reflexivity].
  - subst status. intro H.
    pose proof (static_cast_char_zero (char_is_signed w) e ltac:(lia)) as Z0.
    rewrite H in Z0. cbn in Z0. symmetry in Z0. apply Z.eqb_eq in Z0. lia.
  - destruct (execute_after_exit processing w rq exe l s s1 s2 s3 armed
                Hfound Hne Hl Ha b e Hr Hw ltac:(lia)) as (s' & E).
    exists s'. rewrite E.
    replace (e =? 0) with false by (symmetry; apply Z.eqb_neq; lia).
    reflexivity.
Qed.

(** * The theorems at work on concrete worlds *)

Lemma reaper_decodes_termination_witness :
  let w := Scenario.host 4242 [] (inl (Posix.exited 200)) None in
  let v := decode w not_reaped (Posix.exited 200) in
  r_signaled v = false /\ r_status v = -56 /\ r_success v = false.
Proof.
  intros w v.
  destruct (reaper_decodes_termination w false 4242 (Posix.exited 200) 200 9 false
              (start w)) as (_ & H & _); [reflexivity | lia |].
  destruct (H eq_refl) as (H1 & _ & _ & _ & _ & H6 & _ & H8).
  split; [exact H1|]. split; [exact (H8 eq_refl ltac:(cbn; lia)) | exact H6].
Defined.

(** C7 as stated fails where [char] is signed: the reaper decodes the
    status of a child that left through [_exit(200)] as -56, which is not
    the 200 that POSIX keeps of the exit code. *)
Lemma reaper_decodes_exit_200_as_minus_56 :
  let w := Scenario.host 4242 [] (inl (Posix.exited 200)) None in
  char_is_signed w = true
  /\ Posix.WIFEXITED (Posix.exited 200) = true
  /\ Posix.WEXITSTATUS (Posix.exited 200) = 200
  /\ snd (reaper w false 4242 not_reaped (start w))
     = Ok {| r_success := false; r_signaled := false; r_status := -56 |}.
Proof. vm_compute. repeat split; reflexivity. Qed.

Lemma not_found_yields_127_witness :
  let w := Scenario.host 4242 [] (inl 0) None in
  execute (fun _ => Scenario.accumulate true) w
          (Scenario.run "nosuch" Scenario.plain 0) (start w)
  = (start w, Ok {| success := false; output := ""; error := ""; exit_code := 127 |}).
Proof.
  intro w.
  apply (not_found_yields_127 (fun _ => Scenario.accumulate true) w
           (Scenario.run "nosuch" Scenario.plain 0) (start w)).
  reflexivity.
Defined.


Lemma group_killed_before_reaping_witness :
  let w := Scenario.host 4242 [Scenario.read_fails] (inl (Posix.killed_by 9 false)) None in
  exists s',
    execute (fun _ => Scenario.accumulate true) w (Scenario.run "sh" Scenario.plain 1)
            (start w)
    = (s', Throw (execution_exception "failed to read child output."))
    /\ trace s' = [EvPipe 3 4; EvPipe 5 6; EvPipe 7 8; EvVfork 4242;
                   EvClose 4; EvClose 3; EvClose 6; EvClose 8;
                   EvSigaction; EvSetitimer 1; EvSetitimer 0;
                   EvKill (-4242) 9; EvWaitpid 4242;
                   EvClose 7; EvClose 5].
Proof.
  intro w.
  pose (rq := Scenario.run "sh" Scenario.plain 1).
  pose (sp := Scenario.accumulate true).
  pose (l := {| child_pid := 4242; stdin_write := 4; stdout_read := 5; stderr_read := 7 |}).
  pose (s1 := fst (launch w rq "/bin/sh" (start w))).
  pose (s2 := fst (arm_timer w 1 s1)).
  pose (s3 := fst (read_streams sp w rq l (fresh sp) s2)).
  assert (Hl : launch w rq "/bin/sh" (start w) = (s1, Ok l))
    by (vm_compute; reflexivity).
  assert (Ha : arm_timer w (timeout rq) s1 = (s2, Ok true))
    by (vm_compute; reflexivity).
  assert (Hr : read_streams sp w rq l (fresh sp) s2
               = (s3, Throw (execution_exception "failed to read child output.")))
    by (vm_compute; reflexivity).
  destruct (group_killed_before_reaping (fun _ => sp) w rq "/bin/sh" l (start w)
              s1 s2 s3 true eq_refl ltac:(discriminate) Hl Ha _ Hr)
    as (evs & _ & _ & H & _).
  destruct (H _ eq_refl) as (_ & _ & s' & E & T).
  exists s'. split; [exact E|]. rewrite T. vm_compute. reflexivity.
Defined.

(** C1 as stated fails: a callback that asks for the end of reading makes
    the loop return, and the child is waited for without any kill. *)
Lemma early_stop_reaps_without_kill :
  let w := Scenario.host 4242 [Scenario.says "hello" false]
                         (inl (Posix.killed_by 13 false)) None in
  let run := execute (fun _ => Scenario.accumulate false) w
                     (Scenario.run "sh" Scenario.plain 0) (start w) in
  trace (fst run)
  = [EvPipe 3 4; EvPipe 5 6; EvPipe 7 8; EvVfork 4242;
     EvClose 4; EvClose 3; EvClose 6; EvClose 8;
     EvRead Stdout "hello"; EvCallback Stdout "hello" false;
     EvClose 5; EvClose 7; EvWaitpid 4242]
  /\ snd run = Ok {| success := false; output := "hello"; error := ""; exit_code := 13 |}.
Proof. vm_compute. split; reflexivity. Qed.



Lemma exit_code_reported_witness :
  let w := Scenario.host 4242 [Scenario.both_closed] (inl (Posix.exited 3)) None in
  exists s',
    execute (fun _ => Scenario.accumulate true) w (Scenario.run "sh" Scenario.plain 0)
            (start w)
    = (s', Ok {| success := false; output := ""; error := ""; exit_code := 3 |}).
Proof.
  intro w.
  pose (rq := Scenario.run "sh" Scenario.plain 0).
  pose (sp := Scenario.accumulate true).
  pose (l := {| child_pid := 4242; stdin_write := 4; stdout_read := 5; stderr_read := 7 |}).
  pose (s1 := fst (launch w rq "/bin/sh" (start w))).
  pose (s3 := fst (read_streams sp w rq l (fresh sp) s1)).
  assert (Hl : launch w rq "/bin/sh" (start w) = (s1, Ok l))
    by (vm_compute; reflexivity).
  assert (Ha : arm_timer w (timeout rq) s1 = (s1, Ok false))
    by (vm_compute; reflexivity).
  assert (Hr : read_streams sp w rq l (fresh sp) s1 = (s3, Ok ("", "")))
    by (vm_compute; reflexivity).
  destruct (exit_code_reported (fun _ => sp) w rq "/bin/sh" l (start w)
              s1 s1 s3 false eq_refl ltac:(discriminate) Hl Ha ("", "") 3 Hr eq_refl
              ltac:(lia))
    as (_ & _ & _ & s' & E).
  exists s'. exact E.
Defined.

(** C4 as stated fails where [char] is signed: a child that exits with code
    200 is reported with status -56. *)
Lemma exit_code_200_reported_as_minus_56 :
  let w := Scenario.host 4242 [Scenario.both_closed] (inl (Posix.exited 200)) None in
  char_is_signed w = true
  /\ Posix.WIFEXITED (Posix.exited 200) = true
  /\ Posix.WEXITSTATUS (Posix.exited 200) = 200
  /\ snd (execute (fun _ => Scenario.accumulate true) w
                  (Scenario.run "sh" Scenario.plain 0) (start w))
     = Ok {| success := false; output := ""; error := ""; exit_code := -56 |}.
Proof. vm_compute. repeat split; reflexivity. Qed.

Lemma failed_execve_is_a_nonzero_exit_witness :
  let child_side := Scenario.host 0 [] (inl 0) (Some 2) in
  let w := Scenario.host 4242 [Scenario.both_closed] (inl (Posix.exited 2)) (Some 2) in
  (exists sc', create_child child_side 3 6 8 "/bin/sh" [None] [None] (start child_side)
               = (sc', Exit 2))
  /\ exists s',
       execute (fun _ => Scenario.accumulate true) w (Scenario.run "sh" Scenario.strict 0)
               (start w)
       = (s', Throw (child_exit_exception
                       "child process returned non-zero exit status (2)." 2 "" "")).
Proof.
  intros child_side w.
  pose (rq := Scenario.run "sh" Scenario.strict 0).
  pose (sp := Scenario.accumulate true).
  pose (l := {| child_pid := 4242; stdin_write := 4; stdout_read := 5; stderr_read := 7 |}).
  pose (s1 := fst (launch w rq "/bin/sh" (start w))).
  pose (s3 := fst (read_streams sp w rq l (fresh sp) s1)).
  assert (Hl : launch w rq "/bin/sh" (start w) = (s1, Ok l))
    by (vm_compute; reflexivity).
  assert (Ha : arm_timer w (timeout rq) s1 = (s1, Ok false))
    by (vm_compute; reflexivity).
  assert (Hr : read_streams sp w rq l (fresh sp) s1 = (s3, Ok ("", "")))
    by (vm_compute; reflexivity).
  destruct (failed_execve_is_a_nonzero_exit (fun _ => sp)
              child_side w rq "/bin/sh" l (start w) s1 s1 s3 (start child_side) false
              ("", "") 2 3 6 8 [None] [None]
              ltac:(lia) eq_refl eq_refl (fun _ => eq_refl) eq_refl
              eq_refl ltac:(discriminate) Hl Ha Hr eq_refl)
    as (H1 & _ & H2).
  split; [exact H1 | exact H2].
Defined.

(** C2 as stated fails: the child is created, [execve] fails in it with
    ENOENT and the child leaves through [_exit(2)]; the parent reads the end
    of both pipes, reaps the child and returns an ordinary result. *)
Lemma failed_execve_returned_as_result :
  let child_side := Scenario.host 0 [] (inl 0) (Some 2) in
  let w := Scenario.host 4242 [Scenario.both_closed] (inl (Posix.exited 2)) (Some 2) in
  snd (execute (fun _ => Scenario.accumulate true) child_side
               (Scenario.run "sh" Scenario.plain 0) (start child_side))
  = Exit 2
  /\ snd (execute (fun _ => Scenario.accumulate true) w
                  (Scenario.run "sh" Scenario.plain 0) (start w))
     = Ok {| success := false; output := ""; error := ""; exit_code := 2 |}.
Proof. vm_compute. split; reflexivity. Qed.

(** * Further properties *)

(** ** Path search *)

Lemma which_search_sound (w : world) (file : string) (dirs : list string) :
  let p :=
    (fix search (dirs : list string) : string :=
       match dirs with
       | [] => ""
       | dir :: rest =>
           let p := Search.append_path dir file in
           if is_regular_file w p && Search.is_executable w p then p else search rest
       end) dirs in
  p = ""
  \/ (is_regular_file w p = true /\ Search.is_executable w p = true
      /\ exists dir, In dir dirs /\ p = Search.append_path dir file).
Proof.
  induction dirs as [|dir rest IH]; [now left|].
  cbv zeta in *. 
  destruct (is_regular_file w (Search.append_path dir file)
            && Search.is_executable w (Search.append_path dir file)) eqn:E.
  - right. apply andb_true_iff in E as [E1 E2].
    split; [exact E1|]. split; [exact E2|]. exists dir. split; [now left | reflexivity].
  - destruct IH as [IH|(H1 & H2 & d & Hd & Hp)]; [now left|].
    right. split; [exact H1|]. split; [exact H2|]. exists d. split; [now right | exact Hp].
Qed.

(** X1.  [which] answers the empty string or a path that is a regular file
    and executable: the file itself when it is absolute (the directories
    are then not looked at), else the file appended to one of the
    directories. *)
Theorem which_finds_executable_file (w : world) (file : string) (dirs : list string) :
  let p := Search.which w file dirs in
  p = ""
  \/ (is_regular_file w p = true
      /\ Search.is_executable w p = true
      /\ (if Search.is_absolute file then p = file
          else exists dir, In dir dirs /\ p = Search.append_path dir file)).
Proof.
  unfold Search.which. destruct (Search.is_absolute file).
  - destruct (is_regular_file w file && Search.is_executable w file) eqn:E; [|now left].
    right. apply andb_true_iff in E as [E1 E2]. auto.
  - exact (which_search_sound w file dirs).
Qed.

(** X2.  For a file that is not absolute, the directories are tried in
    order: the answer is the file under the first directory where it is a
    regular executable file, whatever follows. *)
Theorem which_takes_first_match
    (w : world) (file : string) (before : list string) (dir : string)
    (after : list string) :
  Search.is_absolute file = false ->
  (forall d, In d before ->
     is_regular_file w (Search.append_path d file)
     && Search.is_executable w (Search.append_path d file) = false) ->
  is_regular_file w (Search.append_path dir file)
  && Search.is_executable w (Search.append_path dir file) = true ->
  Search.which w file (before ++ dir :: after) = Search.append_path dir file.
Proof.
  intros Habs Hbefore Hdir. unfold Search.which. rewrite Habs.
  induction before as [|d before IH]; simpl.
  - now rewrite Hdir.
  - rewrite (Hbefore d (or_introl eq_refl)). apply IH.
    intros d' Hd'. apply Hbefore. now right.
Qed.

Lemma which_takes_first_match_witness :
  Search.which (Scenario.host 4242 [] (inl 0) None) "sh" ["/usr/bin"; "/bin"; "/sbin"]
  = "/bin/sh".
Proof.
  apply (which_takes_first_match (Scenario.host 4242 [] (inl 0) None) "sh"
           ["/usr/bin"] "/bin" ["/sbin"]).
  - reflexivity.
  - intros d [<-|[]]. reflexivity.
  - reflexivity.
Defined.

Lemma exec_bits_split (mode : Z) :
  Z.land mode (Z.lor Posix.S_IXUSR (Z.lor Posix.S_IXGRP Posix.S_IXOTH)) = 0
  <-> Z.land mode Posix.S_IXUSR = 0 /\ Z.land mode Posix.S_IXGRP = 0
      /\ Z.land mode Posix.S_IXOTH = 0.
Proof.
  rewrite !Z.land_lor_distr_r, !Z.lor_eq_0_iff. reflexivity.
Qed.

(** X3.  A path is executable only if [stat] succeeds on it and its mode
    has one of the three execute bits; for root any of them is enough; and
    a file owned by the effective user (not root) without the user execute
    bit is refused whatever its group and other bits. *)
Theorem is_executable_needs_execute_bit (w : world) (path : string) (fs : stat_t) :
  stat w path = Some fs ->
  (Search.is_executable w path = true ->
   Z.land (st_mode fs) (Z.lor Posix.S_IXUSR (Z.lor Posix.S_IXGRP Posix.S_IXOTH)) <> 0)
  /\ (geteuid w = 0 ->
      Z.land (st_mode fs) (Z.lor Posix.S_IXUSR (Z.lor Posix.S_IXGRP Posix.S_IXOTH)) <> 0 ->
      Search.is_executable w path = true)
  /\ (geteuid w <> 0 -> st_uid fs = geteuid w ->
      Z.land (st_mode fs) Posix.S_IXUSR = 0 ->
      Search.is_executable w path = false).
Proof.
  intro Hs. unfold Search.is_executable. rewrite Hs. split; [|split].
  - intros H Hz. apply exec_bits_split in Hz as (Hu & Hg & Ho).
    destruct (geteuid w =? 0).
    + apply negb_true_iff, Z.eqb_neq in H. apply H.
      apply exec_bits_split. auto.
    + destruct (st_uid fs =? geteuid w);
        [|destruct (Search.is_group_member w (st_gid fs))];
        apply negb_true_iff, Z.eqb_neq in H; auto.
  - intros -> H. cbn [Z.eqb]. now apply negb_true_iff, Z.eqb_neq.
  - intros Hr Hu Hz. apply Z.eqb_neq in Hr. rewrite Hr.
    apply Z.eqb_eq in Hu. rewrite Hu, Hz. reflexivity.
Qed.

Lemma is_executable_needs_execute_bit_witness :
  let w := Scenario.host 4242 [] (inl 0) None in
  Z.land 493 (Z.lor Posix.S_IXUSR (Z.lor Posix.S_IXGRP Posix.S_IXOTH)) <> 0.
Proof.
  intro w.
  destruct (is_executable_needs_execute_bit w "/bin/sh"
              {| st_mode := 493; st_uid := 0; st_gid := 0 |} eq_refl) as (H & _).
  apply H. reflexivity.
Defined.

(** ** The greatest descriptor *)

Lemma select_max_fold (pipes : list pipe) (acc : Z) :
  let m := fold_left (fun max p =>
                        if descriptor p =? -1 then max
                        else if max <? descriptor p then descriptor p else max)
                     pipes acc in
  acc <= m
  /\ (forall p, In p pipes -> descriptor p <> -1 -> descriptor p <= m)
  /\ (m = acc \/ exists p, In p pipes /\ descriptor p <> -1 /\ m = descriptor p).
Proof.
  revert acc. induction pipes as [|p pipes IH]; intro acc; cbn [fold_left].
  - cbv zeta. split; [lia|]. split; [intros p []|now left].
  - cbv zeta.
    destruct (Z.eqb_spec (descriptor p) (-1)) as [E|N].
    + destruct (IH acc) as (H1 & H2 & H3). split; [exact H1|]. split.
      * intros q [<-|Hq] Hn; [contradiction | now apply H2].
      * destruct H3 as [H3|(q & Hq & Hn & Hm)]; [now left|].
        right. exists q. auto using in_cons.
    + destruct (Z.ltb_spec acc (descriptor p)) as [L|L].
      * destruct (IH (descriptor p)) as (H1 & H2 & H3). split; [lia|]. split.
        -- intros q [<-|Hq] Hn; [exact H1 | now apply H2].
        -- right. destruct H3 as [H3|(q & Hq & Hn & Hm)].
           ++ exists p. split; [now left | auto].
           ++ exists q. auto using in_cons.
      * destruct (IH acc) as (H1 & H2 & H3). split; [exact H1|]. split.
        -- intros q [<-|Hq] Hn; [lia | now apply H2].
        -- destruct H3 as [H3|(q & Hq & Hn & Hm)]; [now left|].
           right. exists q. auto using in_cons.
Qed.

(** X4.  With descriptors that are valid (not negative) or -1, the value
    from which [select]'s first argument is made is at least every
    descriptor selected upon -- every open pipe and the input descriptor --
    and it is -1, which ends the loop, exactly when every pipe is closed
    and there is no input descriptor. *)
Theorem select_max_bounds_selected (pipes : list pipe) (input_fd : Z) :
  Forall (fun p => -1 <= descriptor p) pipes ->
  -1 <= input_fd ->
  let m := select_max pipes input_fd in
  (forall p, In p pipes -> descriptor p <= m)
  /\ input_fd <= m
  /\ (m = -1 <-> (forall p, In p pipes -> descriptor p = -1) /\ input_fd = -1).
Proof.
  intros Hvalid Hfd. unfold select_max.
  destruct (select_max_fold pipes (-1)) as (H1 & H2 & H3).
  set (m0 := fold_left _ pipes (-1)) in *. cbv zeta in *.
  rewrite Forall_forall in Hvalid.
  assert (Hall : forall p, In p pipes -> descriptor p <= m0).
  { intros p Hp. destruct (Z.eq_dec (descriptor p) (-1)) as [E|N]; [lia | auto]. }
  destruct (Z.eqb_spec input_fd (-1)) as [E|N]; cbn [negb andb].
  - subst input_fd. split; [exact Hall|]. split; [exact H1|]. split.
    + intro Hm. split; [|reflexivity]. intros p Hp.
      specialize (Hall p Hp). specialize (Hvalid p Hp). cbv beta in Hvalid. lia.
    + intros [Hc _]. destruct H3 as [H3|(p & Hp & Hn & _)]; [exact H3|].
      elim Hn. now apply Hc.
  - destruct (Z.ltb_spec m0 input_fd) as [L|L].
    + split; [intros p Hp; specialize (Hall p Hp); lia|]. split; [lia|].
      split; [intro; lia | intros [_ ?]; lia].
    + split; [exact Hall|]. split; [exact L|].
      split; [intro; lia | intros [_ ?]; lia].
Qed.

Lemma select_max_bounds_selected_witness :
  let pipes :=
    [ {| name := "stdout"; descriptor := 5; buffer := ""; callback := Stdout |};
      {| name := "stderr"; descriptor := -1; buffer := ""; callback := Stderr |} ] in
  (forall p, In p pipes -> descriptor p <= select_max pipes 4)
  /\ 4 <= select_max pipes 4.
Proof.
  intro pipes.
  destruct (select_max_bounds_selected pipes 4) as (H1 & H2 & _).
  - repeat constructor; cbn; lia.
  - lia.
  - split; [exact H1 | exact H2].
Defined.

(** ** The child branch *)

Lemma close_above_stderr_full (w : world) (s : os_state) :
  close_above_stderr w s
  = ({| command_timedout := command_timedout s; errno := errno s;
        trace := trace s ++ closed_by_child w |}, Ok tt).
Proof.
  unfold close_above_stderr, closed_by_child.
  generalize (seq 0 (Z.to_nat (get_max_descriptor_limit w OPEN_MAX_default
                               - (Posix.STDERR_FILENO + 1)))).
  intro fds.
  assert (H : forall (m : M unit) (pre : list event),
             (forall s0, m s0 = ({| command_timedout := command_timedout s0;
                                    errno := errno s0;
                                    trace := trace s0 ++ pre |}, Ok tt)) ->
             forall s0,
               fold_left (fun m k => m ;; emit (EvClose (Posix.STDERR_FILENO + 1 + Z.of_nat k)))
                         fds m s0
               = ({| command_timedout := command_timedout s0; errno := errno s0;
                     trace := trace s0
                              ++ pre ++ map (fun k => EvClose (Posix.STDERR_FILENO + 1
                                                               + Z.of_nat k)) fds |},
                  Ok tt)).
  { induction fds as [|k fds IH]; intros m pre Hm s0; cbn [fold_left map].
    - rewrite Hm, app_nil_r. reflexivity.
    - rewrite (IH _ (pre ++ [EvClose (Posix.STDERR_FILENO + 1 + Z.of_nat k)])).
      + now rewrite <- app_assoc.
      + intro s1. rewrite (bind_ok _ _ _ _ _ (Hm s1)), emit_run.
        cbn [command_timedout errno trace]. now rewrite <- app_assoc. }
  rewrite (H (ret tt) []).
  - reflexivity.
  - intro s0. unfold ret. destruct s0. cbn. now rewrite app_nil_r.
Qed.

(** X5.  When [setpgid] and the three [dup2] succeed, the child does, in
    this order and nothing else: [setpgid], the redirection of standard
    input, output and error, the closing of every descriptor from 3 up to
    the descriptor limit, and [execve] with the program, the arguments and
    the environment it was given.  It then either runs the new image or, if
    [execve] failed, comes back with the errno of [execve]. *)
Theorem exec_child_order_of_calls
    (w : world) (in_ out err : Z) (program : string)
    (argv envp : list (option string)) (s : os_state) :
  setpgid_r w = None ->
  (forall fd, dup2_r w fd = None) ->
  let run := exec_child w in_ out err program argv envp s in
  trace (fst run)
  = trace s ++ [EvSetpgid; EvDup2 in_ 0; EvDup2 out 1; EvDup2 err 2]
            ++ closed_by_child w ++ [EvExecve program argv envp]
  /\ snd run = match execve_errno w with
               | None => Replaced
               | Some _ => Ok tt
               end
  /\ (forall e, execve_errno w = Some e -> errno (fst run) = e)
  /\ Forall (fun ev => exists fd,
                ev = EvClose fd
                /\ 3 <= fd < get_max_descriptor_limit w OPEN_MAX_default)
            (closed_by_child w).
Proof.
  intros Hpg Hdup run. subst run. unfold exec_child. run_step. rewrite Hpg.
  rewrite (bind_ok _ _ _ _ _ (dup2_run w _ _ _ (Hdup _))). cbn [negb].
  rewrite (bind_ok _ _ _ _ _ (dup2_run w _ _ _ (Hdup _))). cbn [negb].
  rewrite (bind_ok _ _ _ _ _ (dup2_run w _ _ _ (Hdup _))). cbn [negb].
  rewrite (bind_ok _ _ _ _ _ (close_above_stderr_full w _)).
  run_step. cbn [command_timedout errno trace].
  split; [|split; [|split]].
  - destruct (execve_errno w); cbn; rewrite <- !app_assoc; reflexivity.
  - destruct (execve_errno w); reflexivity.
  - intros e ->. reflexivity.
  - unfold closed_by_child. apply Forall_forall. intros ev Hev.
    apply in_map_iff in Hev as (k & <- & Hk). apply in_seq in Hk.
    eexists. split; [reflexivity|].
    unfold Posix.STDERR_FILENO in *. lia.
Qed.

Lemma exec_child_order_of_calls_witness :
  let w := Scenario.host 0 [] (inl 0) None in
  snd (exec_child w 3 6 8 "/bin/sh" [Some "sh"; None] [None] (start w)) = Replaced.
Proof.
  intro w.
  destruct (exec_child_order_of_calls w 3 6 8 "/bin/sh" [Some "sh"; None] [None]
              (start w) eq_refl (fun _ => eq_refl)) as (_ & H & _).
  exact H.
Defined.

Lemma diagnostic_run (w : world) (err : Z) (message : string) (s : os_state) :
  diagnostic w err message s
  = ({| command_timedout := command_timedout s;
        errno := match diagnostic_r w with Some e => e | None => errno s end;
        trace := trace s ++ [EvDiagnostic err message] |}, Ok tt).
Proof. unfold diagnostic. run_step. destruct (diagnostic_r w); reflexivity. Qed.

Lemma dup2_failed (w : world) (from to e : Z) (s : os_state) :
  dup2_r w to = Some e ->
  dup2 w from to s
  = ({| command_timedout := command_timedout s; errno := e;
        trace := trace s ++ [EvDup2 from to] |}, Ok false).
Proof. intro H. unfold dup2. run_step. rewrite H. run_step. reflexivity. Qed.

Ltac calls_only :=
  repeat (apply Forall_cons;
          [first [left; reflexivity | right; eexists; eexists; reflexivity]|]);
  apply Forall_nil.

(** The child comes back from a failed [setpgid] or [dup2]. *)
Lemma exec_child_failed_returns
    (w : world) (in_ out err : Z) (program : string)
    (argv envp : list (option string)) (s : os_state) :
  setpgid_r w <> None \/ dup2_r w 0 <> None \/ dup2_r w 1 <> None \/ dup2_r w 2 <> None ->
  snd (exec_child w in_ out err program argv envp s) = Ok tt.
Proof.
  intros Hfail. unfold exec_child. run_step.
  destruct (setpgid_r w) as [e0|] eqn:Hpg.
  { run_step. now rewrite diagnostic_run. }
  destruct (dup2_r w 0) as [e1|] eqn:H0.
  { rewrite (bind_ok _ _ _ _ _ (dup2_failed w _ _ _ _ H0)). cbn [negb].
    now rewrite diagnostic_run. }
  rewrite (bind_ok _ _ _ _ _ (dup2_run w _ _ _ H0)). cbn [negb].
  destruct (dup2_r w 1) as [e2|] eqn:H1.
  { rewrite (bind_ok _ _ _ _ _ (dup2_failed w _ _ _ _ H1)). cbn [negb].
    now rewrite diagnostic_run. }
  rewrite (bind_ok _ _ _ _ _ (dup2_run w _ _ _ H1)). cbn [negb].
  destruct (dup2_r w 2) as [e3|] eqn:H2.
  { rewrite (bind_ok _ _ _ _ _ (dup2_failed w _ _ _ _ H2)). cbn [negb].
    now rewrite diagnostic_run. }
  exfalso. destruct Hfail as [H|[H|[H|H]]]; now apply H.
Qed.

(** X6.  When [setpgid] or one of the three [dup2] fails, the child writes
    one diagnostic to the descriptor meant for its standard error and
    returns: it closes no descriptor and never calls [execve]. *)
Theorem exec_child_stops_at_first_failure
    (w : world) (in_ out err : Z) (program : string)
    (argv envp : list (option string)) (s : os_state) :
  setpgid_r w <> None \/ dup2_r w 0 <> None \/ dup2_r w 1 <> None \/ dup2_r w 2 <> None ->
  let run := exec_child w in_ out err program argv envp s in
  snd run = Ok tt
  /\ exists calls message,
       trace (fst run) = trace s ++ calls ++ [EvDiagnostic err message]
       /\ Forall (fun ev => ev = EvSetpgid \/ exists from to, ev = EvDup2 from to) calls.
Proof.
  intros Hfail run. subst run. unfold exec_child. run_step.
  destruct (setpgid_r w) as [e0|] eqn:Hpg.
  { run_step. rewrite diagnostic_run. cbn [fst snd trace]. split; [reflexivity|].
    exists [EvSetpgid], "failed to setpgid.". rewrite <- app_assoc.
    split; [reflexivity | calls_only]. }
  destruct (dup2_r w 0) as [e1|] eqn:H0.
  { rewrite (bind_ok _ _ _ _ _ (dup2_failed w _ _ _ _ H0)). cbn [negb].
    rewrite diagnostic_run. cbn [fst snd trace]. split; [reflexivity|].
    exists [EvSetpgid; EvDup2 in_ 0], "failed to redirect child stdin.".
    rewrite <- !app_assoc. split; [reflexivity | calls_only]. }
  rewrite (bind_ok _ _ _ _ _ (dup2_run w _ _ _ H0)). cbn [negb].
  destruct (dup2_r w 1) as [e2|] eqn:H1.
  { rewrite (bind_ok _ _ _ _ _ (dup2_failed w _ _ _ _ H1)). cbn [negb].
    rewrite diagnostic_run. cbn [fst snd trace]. split; [reflexivity|].
    exists [EvSetpgid; EvDup2 in_ 0; EvDup2 out 1], "failed to redirect child stdout.".
    rewrite <- !app_assoc. split; [reflexivity | calls_only]. }
  rewrite (bind_ok _ _ _ _ _ (dup2_run w _ _ _ H1)). cbn [negb].
  destruct (dup2_r w 2) as [e3|] eqn:H2.
  { rewrite (bind_ok _ _ _ _ _ (dup2_failed w _ _ _ _ H2)). cbn [negb].
    rewrite diagnostic_run. cbn [fst snd trace]. split; [reflexivity|].
    exists [EvSetpgid; EvDup2 in_ 0; EvDup2 out 1; EvDup2 err 2],
           "failed to redirect child stderr.".
    rewrite <- !app_assoc. split; [reflexivity | calls_only]. }
  exfalso. destruct Hfail as [H|[H|[H|H]]]; now apply H.
Qed.

Lemma exec_child_stops_at_first_failure_witness :
  let w := Scenario.host 0 [] (inl 0) None in
  let w' := {| char_is_signed := char_is_signed w; strerror := strerror w;
               environ := environ w; errno0 := errno0 w;
               search_paths := search_paths w; is_regular_file := is_regular_file w;
               stat := stat w; geteuid := geteuid w; getgid := getgid w;
               getegid := getegid w; getgroups_count := getgroups_count w;
               getgroups_list := getgroups_list w;
               pipe_stdin := pipe_stdin w; pipe_stdout := pipe_stdout w;
               pipe_stderr := pipe_stderr w; open_dev_null := open_dev_null w;
               vfork := 0; vfork_errno := 0;
               sigaction_r := None; setitimer_r := None; script := [];
               waitpid_r := inl 0;
               setpgid_r := Some 1; dup2_r := fun _ => None; diagnostic_r := None;
               sysconf_open_max := 16; getrlimit_nofile := None;
               execve_errno := None |} in
  snd (exec_child w' 3 6 8 "/bin/sh" [None] [None] (start w')) = Ok tt.
Proof.
  intros w w'.
  destruct (exec_child_stops_at_first_failure w' 3 6 8 "/bin/sh" [None] [None]
              (start w')) as (H & _).
  - left. discriminate.
  - exact H.
Defined.

Lemma exec_child_outcome (w : world) (in_ out err : Z) (program : string)
    (argv envp : list (option string)) (s : os_state) :
  (snd (exec_child w in_ out err program argv envp s) = Replaced
   /\ setpgid_r w = None /\ (forall fd, In fd [0; 1; 2] -> dup2_r w fd = None)
   /\ execve_errno w = None)
  \/ snd (exec_child w in_ out err program argv envp s) = Ok tt.
Proof.
  destruct (setpgid_r w) as [e0|] eqn:Hpg;
    [right; apply exec_child_failed_returns; left; congruence|].
  destruct (dup2_r w 0) as [e1|] eqn:H0;
    [right; apply exec_child_failed_returns; right; left; congruence|].
  destruct (dup2_r w 1) as [e2|] eqn:H1;
    [right; apply exec_child_failed_returns; right; right; left; congruence|].
  destruct (dup2_r w 2) as [e3|] eqn:H2;
    [right; apply exec_child_failed_returns; right; right; right; congruence|].
  unfold exec_child. run_step. rewrite Hpg.
  rewrite (bind_ok _ _ _ _ _ (dup2_run w _ _ _ H0)). cbn [negb].
  rewrite (bind_ok _ _ _ _ _ (dup2_run w _ _ _ H1)). cbn [negb].
  rewrite (bind_ok _ _ _ _ _ (dup2_run w _ _ _ H2)). cbn [negb].
  rewrite (bind_ok _ _ _ _ _ (close_above_stderr_full w _)).
  run_step. destruct (execve_errno w) as [e|]; [right; reflexivity|].
  left. split; [reflexivity|]. split; [reflexivity|]. split; [|reflexivity].
  intros fd [<-|[<-|[<-|[]]]]; assumption.
Qed.

Lemma bind_replaced {A B} (m : M A) (f : A -> M B) (s s1 : os_state) :
  m s = (s1, Replaced) -> bind m f s = (s1, Replaced).
Proof. intro H. unfold bind. now rewrite H. Qed.

(** X7.  In the child ([vfork] answered 0) [create_child] never returns to
    its caller and raises nothing: either the image is replaced -- and then
    [setpgid], the three redirections and [execve] all succeeded -- or the
    child leaves through [_exit] with a code that is not 0. *)
Theorem child_branch_never_returns
    (w : world) (in_ out err : Z) (program : string)
    (argv envp : list (option string)) (s : os_state) :
  vfork w = 0 ->
  let r := snd (create_child w in_ out err program argv envp s) in
  (r = Replaced
   /\ setpgid_r w = None /\ (forall fd, In fd [0; 1; 2] -> dup2_r w fd = None)
   /\ execve_errno w = None)
  \/ (exists code, r = Exit code /\ code <> 0).
Proof.
  intros Hv r. subst r. unfold create_child. run_step. rewrite Hv.
  cbn [Z.ltb Z.eqb Z.compare negb].
  match goal with
  | |- context [bind (exec_child w ?i ?o ?e ?p ?a ?v) _ ?s0] =>
      pose proof (exec_child_outcome w i o e p a v s0) as Hout;
      destruct (exec_child w i o e p a v s0) as [s1 r1] eqn:E
  end.
  cbn [snd] in Hout. destruct Hout as [(Hr & Hc)|Hr]; subst r1.
  - left. rewrite (bind_replaced _ _ _ _ E). split; [reflexivity | exact Hc].
  - right. rewrite (bind_ok _ _ _ _ _ E). unfold bind, get_errno, exit. cbn [snd].
    eexists. split; [reflexivity|].
    destruct (Z.eqb_spec (errno s1) 0); [discriminate | assumption].
Qed.

Lemma child_branch_never_returns_witness :
  let w := Scenario.host 0 [] (inl 0) (Some 13) in
  exists code, snd (create_child w 3 6 8 "/bin/sh" [None] [None] (start w)) = Exit code
               /\ code <> 0.
Proof.
  intro w.
  destruct (child_branch_never_returns w 3 6 8 "/bin/sh" [None] [None] (start w) eq_refl)
    as [(_ & _ & _ & H)|H]; [discriminate | exact H].
Defined.

(** ** The orchestrator on its other paths *)

Lemma process_calls_app (a b : list event) :
  process_calls (a ++ b) = process_calls a ++ process_calls b.
Proof. apply filter_app. Qed.

Lemma process_calls_quiet (evs : list event) :
  Forall quiet evs -> process_calls evs = [].
Proof.
  induction 1 as [|ev evs Hq _ IH]; [reflexivity|].
  cbn [process_calls filter]. destruct ev; try contradiction; exact IH.
Qed.

Lemma process_calls_close (fd : Z) : process_calls (close_events fd) = [].
Proof. unfold close_events. destruct (0 <=? fd); reflexivity. Qed.

Lemma process_calls_reset (armed : bool) : process_calls (reset_events armed) = [].
Proof. destruct armed; reflexivity. Qed.

Lemma arm_timer_outcome (w : world) (timeout_s : Z) (s : os_state) :
  (exists armed, snd (arm_timer w timeout_s s) = Ok armed
                 /\ armed = negb (timeout_s =? 0))
  \/ (exists e, snd (arm_timer w timeout_s s)
                = Throw (execution_exception (format_error w "failed to setup timer" e))
                /\ (sigaction_r w = Some e
                    \/ (sigaction_r w = None /\ setitimer_r w = Some e))
                /\ timeout_s <> 0).
Proof.
  unfold arm_timer. destruct (Z.eqb_spec timeout_s 0) as [E|N].
  - left. exists false. auto.
  - run_step. destruct (sigaction_r w) as [e|].
    + right. exists e. run_step. auto.
    + run_step. destruct (setitimer_r w) as [e|].
      * right. exists e. run_step. auto.
      * left. exists true. auto.
Qed.

Lemma process_calls_unwind (w : world) (rq : request) (l : launched) (moved : bool) :
  process_calls (unwind_events w rq l moved) = [].
Proof.
  unfold unwind_events. rewrite !process_calls_app, !process_calls_close.
  destruct (negb moved && match input rq with Some _ => true | None => false end);
    [apply process_calls_close | reflexivity].
Qed.

(** The timer could not be set up: the reaper, still armed to kill, runs,
    and then the destructors of the descriptors, that of [stdin_write]
    included. *)
Lemma supervise_unarmed (sp : stream_processor) (w : world) (rq : request)
    (l : launched) (s1 s2 : os_state) (e : exception) :
  arm_timer w (timeout rq) s1 = (s2, Throw e) ->
  exists s',
    supervise sp w rq l s1 = (s', Throw e)
    /\ trace s' = trace s2 ++ reap_events true (child_pid l)
                          ++ unwind_events w rq l false.
Proof.
  intro Ha. unfold supervise.
  rewrite (bind_throw _ _ _ _ _ (scope_fail_throw _ _ _ _ _ Ha)).
  eexists. split; [reflexivity|].
  now destruct (unwind_trace w rq l false s2) as [T _].
Qed.

Lemma release_state (fd : Z) (s : os_state) :
  fst (release fd s)
  = {| command_timedout := command_timedout s; errno := errno s;
       trace := trace s ++ close_events fd |}.
Proof.
  unfold release, when, close_events. destruct (0 <=? fd); cbn.
  - reflexivity.
  - destruct s. cbn. now rewrite app_nil_r.
Qed.

(** Two destructors in a row. *)
Lemma release_two_state (fd1 fd2 : Z) (s : os_state) :
  fst ((release fd1 ;; release fd2) s)
  = {| command_timedout := command_timedout s; errno := errno s;
       trace := trace s ++ close_events fd1 ++ close_events fd2 |}.
Proof.
  rewrite (bind_ok _ _ _ _ _ (release_run fd1 s)), !release_state.
  cbn [command_timedout errno trace]. now rewrite <- app_assoc.
Qed.

Lemma reaper_flag (w : world) (k : bool) (child : Z) (s : os_state) :
  command_timedout (fst (reaper w k child not_reaped s)) = command_timedout s.
Proof.
  unfold reaper, bind, when, emit, ret, set_errno.
  destruct k, (waitpid_r w); reflexivity.
Qed.

Lemma release_flag (fd : Z) (s : os_state) :
  command_timedout (fst (release fd s)) = command_timedout s.
Proof. now destruct (release_trace fd s) as (_ & _ & H). Qed.

Lemma timer_reset_flag (s : os_state) :
  command_timedout (fst (timer_reset true s)) = false.
Proof. reflexivity. Qed.

Lemma sys_pipe_created (w : world) (rd wr : Z) (message : string) (s : os_state) :
  sys_pipe w (inl (rd, wr)) message s
  = ({| command_timedout := command_timedout s; errno := errno s;
        trace := trace s ++ [EvPipe rd wr] |}, Ok (rd, wr)).
Proof. reflexivity. Qed.

Lemma sys_pipe_failed (w : world) (e : Z) (message : string) (s : os_state) :
  sys_pipe w (inr e) message s
  = ({| command_timedout := command_timedout s; errno := e; trace := trace s |},
     Throw (execution_exception (format_error w message e))).
Proof. reflexivity. Qed.

Lemma stderr_pipe_run (w : world) (answer : (Z * Z) + Z) (message : string)
    (s : os_state) :
  ('(rd, wr) <- sys_pipe w answer message ;; ret (rd, wr, wr)) s
  = match answer with
    | inl (rd, wr) =>
        ({| command_timedout := command_timedout s; errno := errno s;
            trace := trace s ++ [EvPipe rd wr] |}, Ok (rd, wr, wr))
    | inr e =>
        ({| command_timedout := command_timedout s; errno := e; trace := trace s |},
         Throw (execution_exception (format_error w message e)))
    end.
Proof. destruct answer as [[rd wr]|e]; reflexivity. Qed.

Lemma emit_ret_run {A} (ev : event) (a : A) (s : os_state) :
  (emit ev ;; ret a) s
  = ({| command_timedout := command_timedout s; errno := errno s;
        trace := trace s ++ [ev] |}, Ok a).
Proof. reflexivity. Qed.

Lemma create_child_vfork_failed (w : world) (in_ out err : Z) (program : string)
    (argv envp : list (option string)) (s : os_state) :
  vfork w < 0 ->
  create_child w in_ out err program argv envp s
  = ({| command_timedout := command_timedout s; errno := vfork_errno w;
        trace := trace s ++ [EvVfork (vfork w)] |},
     Throw (execution_exception
              (format_error w "failed to fork child process" (vfork_errno w)))).
Proof.
  intro Hv. apply Z.ltb_lt in Hv. unfold create_child. run_step. rewrite Hv.
  run_step. reflexivity.
Qed.

Section Paths.

Variable processing : bool -> stream_processor.
Variable w : world.
Variable rq : request.

Let sp := processing (trim_output (options rq)).

Variables (exe : string) (s : os_state).

Hypothesis found : Search.which w (file rq) (search_paths w) = exe.
Hypothesis found_ne : exe <> "".

(** X8.  A [pipe] call that fails makes [execute] raise an
    [execution_exception] naming the stream, before any child exists: the
    trace then holds only the pipes created so far and, as the exception
    unwinds, the closing of their ends, the last created first.  The third
    pipe is asked for only when standard error is redirected neither to
    standard output nor to the null device: in these two modes the answer
    to it plays no part in the call. *)
Theorem pipe_failure_raises_before_child :
  (forall e, pipe_stdin w = inr e ->
     execute processing w rq s
     = ({| command_timedout := command_timedout s; errno := e; trace := trace s |},
        Throw (execution_exception
                 (format_error w "failed to allocate pipe for stdin redirection" e))))
  /\ (forall rd wr e, pipe_stdin w = inl (rd, wr) -> pipe_stdout w = inr e ->
        execute processing w rq s
        = ({| command_timedout := command_timedout s; errno := e;
              trace := trace s ++ [EvPipe rd wr]
                               ++ close_events wr ++ close_events rd |},
           Throw (execution_exception
                    (format_error w "failed to allocate pipe for stdout redirection" e))))
  /\ (forall rd wr rd' wr' e,
        pipe_stdin w = inl (rd, wr) -> pipe_stdout w = inl (rd', wr') ->
        redirect_stderr_to_stdout (options rq) = false ->
        redirect_stderr_to_null (options rq) = false ->
        pipe_stderr w = inr e ->
        execute processing w rq s
        = ({| command_timedout := command_timedout s; errno := e;
              trace := trace s ++ [EvPipe rd wr; EvPipe rd' wr']
                               ++ close_events wr' ++ close_events rd'
                               ++ close_events wr ++ close_events rd |},
           Throw (execution_exception
                    (format_error w "failed to allocate pipe for stderr redirection" e))))
  /\ (redirect_stderr_to_stdout (options rq) = true
      \/ redirect_stderr_to_null (options rq) = true ->
      forall answer,
        execute processing (with_pipe_stderr w answer) rq s
        = execute processing w rq s).
Proof.
  split; [|split; [|split]].
  - intros e H. rewrite (execute_found processing w rq exe found found_ne).
    apply bind_throw. unfold launch. rewrite H.
    now rewrite (bind_throw _ _ _ _ _ (sys_pipe_failed w _ _ _)).
  - intros rd wr e H1 H2. rewrite (execute_found processing w rq exe found found_ne).
    apply bind_throw. unfold launch. rewrite H1, H2.
    rewrite (bind_ok _ _ _ _ _ (sys_pipe_created w _ _ _ _)). cbv beta iota.
    erewrite scope_fail_throw; [|apply bind_throw, sys_pipe_failed].
    rewrite release_two_state. cbn [command_timedout errno trace].
    now rewrite <- !app_assoc.
  - intros rd wr rd' wr' e H1 H2 O1 O2 H3.
    rewrite (execute_found processing w rq exe found found_ne).
    apply bind_throw. unfold launch. rewrite H1, H2, H3, O1, O2.
    rewrite (bind_ok _ _ _ _ _ (sys_pipe_created w _ _ _ _)). cbv beta iota.
    erewrite scope_fail_throw;
      [|rewrite (bind_ok _ _ _ _ _ (sys_pipe_created w _ _ _ _)); cbv beta iota;
        apply scope_fail_throw, bind_throw;
        exact (stderr_pipe_run w (inr e) _ _)].
    rewrite !release_two_state. cbn [command_timedout errno trace].
    now rewrite <- !app_assoc.
  - intros Hmode answer. clear found found_ne. destruct w.
    unfold execute, launch, supervise, unwind_descriptors, dev_null, with_pipe_stderr.
    cbn [options]. destruct Hmode as [H|H]; rewrite H.
    + reflexivity.
    + destruct (redirect_stderr_to_stdout (options rq)); reflexivity.
Qed.

(** A throw inside a [scope_fail] that raises an [execution_exception]
    leaves it as that exception. *)
Lemma scope_fail_raises {A} (handler : M unit) (body : M A) (st : os_state) :
  (exists st1 m, body st = (st1, Throw (execution_exception m))) ->
  exists st1 m, scope_fail handler body st = (st1, Throw (execution_exception m)).
Proof.
  intros (st1 & m & H). rewrite (scope_fail_throw _ _ _ _ _ H). eauto.
Qed.

Lemma launch_outcome_vfork_failed :
  vfork w < 0 ->
  exists s1 m, launch w rq exe s = (s1, Throw (execution_exception m)).
Proof.
  intro Hv. unfold launch.
  destruct (pipe_stdin w) as [[rd wr]|e];
    [|rewrite (bind_throw _ _ _ _ _ (sys_pipe_failed w _ _ _)); eauto].
  rewrite (bind_ok _ _ _ _ _ (sys_pipe_created w _ _ _ _)). cbv beta iota.
  apply scope_fail_raises.
  destruct (pipe_stdout w) as [[rd' wr']|e];
    [|rewrite (bind_throw _ _ _ _ _ (sys_pipe_failed w _ _ _)); eauto].
  rewrite (bind_ok _ _ _ _ _ (sys_pipe_created w _ _ _ _)). cbv beta iota.
  apply scope_fail_raises.
  destruct (redirect_stderr_to_stdout (options rq)).
  { rewrite (bind_ok _ _ _ _ (-1, -1, wr') eq_refl). cbv beta iota.
    apply scope_fail_raises.
    rewrite (bind_throw _ _ _ _ _ (create_child_vfork_failed w _ _ _ _ _ _ _ Hv)).
    eauto. }
  destruct (redirect_stderr_to_null (options rq)).
  { rewrite (bind_ok _ _ _ _ _ (emit_ret_run _ _ _)). cbv beta iota.
    apply scope_fail_raises.
    rewrite (bind_throw _ _ _ _ _ (create_child_vfork_failed w _ _ _ _ _ _ _ Hv)).
    eauto. }
  destruct (pipe_stderr w) as [[rd2 wr2]|e].
  - rewrite (bind_ok _ _ _ _ _ (stderr_pipe_run w (inl (rd2, wr2)) _ _)).
    cbv beta iota. apply scope_fail_raises.
    rewrite (bind_throw _ _ _ _ _ (create_child_vfork_failed w _ _ _ _ _ _ _ Hv)).
    eauto.
  - rewrite (bind_throw _ _ _ _ _ (stderr_pipe_run w (inr e) _ _)). eauto.
Qed.

(** X9.  When [vfork] fails [execute] raises an [execution_exception]; it
    returns no result, and it neither kills nor waits: there is no child. *)
Theorem vfork_failure_raises_without_reaping :
  vfork w < 0 ->
  exists s' m evs,
    execute processing w rq s = (s', Throw (execution_exception m))
    /\ trace s' = trace s ++ evs
    /\ process_calls evs = [].
Proof.
  intro Hv. destruct (launch_outcome_vfork_failed Hv) as (s1 & m & Hl).
  destruct (calm_launch w rq exe s) as (evs & T & [Q _]).
  rewrite Hl in T. cbn [fst] in T.
  exists s1, m, evs. split; [|split].
  - rewrite (execute_found processing w rq exe found found_ne).
    now apply bind_throw.
  - exact T.
  - now apply process_calls_quiet.
Qed.

(** X10.  Whenever [execute] returns a result or raises, the child, if one
    was created, has been waited for exactly once, after at most one kill of
    its process group that comes just before; and if no child was created
    nothing was killed or waited for. *)
Theorem child_reaped_exactly_once (s' : os_state) (r : res result) :
  execute processing w rq s = (s', r) ->
  (exists x, r = Ok x) \/ (exists e, r = Throw e) ->
  exists evs,
    trace s' = trace s ++ evs
    /\ (((exists s1 l, launch w rq exe s = (s1, Ok l))
         /\ (process_calls evs = [EvWaitpid (vfork w)]
             \/ process_calls evs = [EvKill (- vfork w) Posix.SIGKILL;
                                     EvWaitpid (vfork w)]))
        \/ ((forall s1 l, launch w rq exe s <> (s1, Ok l))
            /\ process_calls evs = [])).
Proof.
  intros He Hr.
  pose proof (execute_found processing w rq exe found found_ne) as Hx.
  destruct (calm_launch w rq exe s) as (e1 & T1 & [Q1 _]).
  destruct (launch w rq exe s) as [s1 rl] eqn:Hl. cbn [fst snd] in T1.
  destruct rl as [l|e| |c|].
  2:{ rewrite Hx, (bind_throw _ _ _ _ _ Hl) in He. inversion He; subst.
      exists e1. split; [exact T1|]. right.
      split; [intros ? ? ?; discriminate | now apply process_calls_quiet]. }
  2:{ rewrite Hx in He. unfold bind in He. rewrite Hl in He. inversion He; subst.
      destruct Hr as [[? ?]|[? ?]]; discriminate. }
  2:{ rewrite Hx in He. unfold bind in He. rewrite Hl in He. inversion He; subst.
      destruct Hr as [[? ?]|[? ?]]; discriminate. }
  2:{ rewrite Hx in He. unfold bind in He. rewrite Hl in He. inversion He; subst.
      destruct Hr as [[? ?]|[? ?]]; discriminate. }
  destruct (launch_child w rq exe s s1 l Hl) as [Hpid _].
  destruct (calm_arm_timer w (timeout rq) s1) as (e2 & T2 & [Q2 _]).
  destruct (arm_timer_outcome w (timeout rq) s1) as [(armed & Ha & _)|(e & Ha & _)];
    destruct (arm_timer w (timeout rq) s1) as [s2 ra] eqn:Harm;
    cbn [fst snd] in T2, Ha; subst ra.
  - destruct (read_streams sp w rq l (fresh sp) s2) as [s3 rr] eqn:Hrs.
    destruct (loop_left processing w rq exe l s s1 s2 s3 armed Hl Harm rr Hrs)
      as (before & during & T3 & [Qb _] & (Qd & _) & L).
    destruct rr as [b|e| |c|]; try contradiction.
    + destruct (execute_loop_returned processing w rq exe l s s1 s2 s3 armed
                  found found_ne Hl Harm b Hrs) as (sx & Ex & Tx & _).
      rewrite Ex in He. inversion He; subst sx.
      eexists. split; [rewrite Tx, T3, <- !app_assoc; reflexivity|].
      left. split; [eauto|]. left.
      rewrite !process_calls_app, !process_calls_close, process_calls_reset.
      rewrite (process_calls_quiet before Qb), (process_calls_quiet during Qd).
      rewrite Hpid. reflexivity.
    + destruct (execute_loop_threw processing w rq exe l s s1 s2 s3 armed
                  found found_ne Hl Harm e Hrs) as (sx & Ex & Tx & _).
      rewrite Ex in He. inversion He; subst sx.
      eexists. split; [rewrite Tx, T3, <- !app_assoc; reflexivity|].
      left. split; [eauto|]. right.
      rewrite !process_calls_app, process_calls_reset, process_calls_unwind.
      rewrite (process_calls_quiet before Qb), (process_calls_quiet during Qd).
      rewrite Hpid. reflexivity.
    + exfalso. rewrite Hx, (bind_ok _ _ _ _ _ Hl) in He.
      fold sp in He.
      rewrite (bind_blocked _ _ _ _
                 (supervise_blocked sp w rq l s1 s2 s3 armed Harm Hrs)) in He.
      inversion He; subst. destruct Hr as [[? ?]|[? ?]]; discriminate.
  - destruct (supervise_unarmed sp w rq l s1 s2 _ Harm) as (sx & Ex & Tx).
    rewrite Hx, (bind_ok _ _ _ _ _ Hl) in He. fold sp in He.
    rewrite (bind_throw _ _ _ _ _ Ex) in He. inversion He; subst sx.
    eexists. split; [rewrite Tx, T2, T1, <- !app_assoc; reflexivity|].
    left. split; [eauto|]. right.
    rewrite !process_calls_app, process_calls_unwind.
    rewrite (process_calls_quiet e1 Q1), (process_calls_quiet e2 Q2).
    rewrite Hpid. reflexivity.
Qed.

End Paths.

Section Reached.

Variable processing : bool -> stream_processor.
Variable w : world.
Variable rq : request.

Let sp := processing (trim_output (options rq)).

Variables (exe : string) (l : launched) (s s1 : os_state).

Hypothesis found : Search.which w (file rq) (search_paths w) = exe.
Hypothesis found_ne : exe <> "".
Hypothesis launched_ok : launch w rq exe s = (s1, Ok l).

(** X11.  When the timer cannot be set up ([sigaction] or [setitimer]
    fails) [execute] raises an [execution_exception]; the child, already
    created, is killed with its group and then waited for, and the loop is
    never entered; after that the descriptors still held are closed:
    [dev_null], the two read ends and, when the call has input, the write
    end of standard input. *)
Theorem timer_failure_kills_and_reaps (e : Z) :
  timeout rq <> 0 ->
  sigaction_r w = Some e \/ (sigaction_r w = None /\ setitimer_r w = Some e) ->
  exists s',
    execute processing w rq s
    = (s', Throw (execution_exception (format_error w "failed to setup timer" e)))
    /\ trace s'
       = trace s1
         ++ (EvSigaction
               :: match sigaction_r w with
                  | Some _ => []
                  | None => [EvSetitimer (timeout rq)]
                  end)
         ++ [EvKill (- vfork w) Posix.SIGKILL; EvWaitpid (vfork w)]
         ++ close_events (dev_null w rq)
         ++ close_events (stderr_read l)
         ++ close_events (stdout_read l)
         ++ match input rq with
            | Some _ => close_events (stdin_write l)
            | None => []
            end.
Proof.
  intros Ht Hf.
  destruct (launch_child w rq exe s s1 l launched_ok) as [Hpid _].
  assert (Ha : exists s2,
             arm_timer w (timeout rq) s1
             = (s2, Throw (execution_exception
                             (format_error w "failed to setup timer" e)))
             /\ trace s2 = trace s1
                           ++ (EvSigaction
                                 :: match sigaction_r w with
                                    | Some _ => []
                                    | None => [EvSetitimer (timeout rq)]
                                    end)).
  { unfold arm_timer. apply Z.eqb_neq in Ht. rewrite Ht. run_step.
    destruct Hf as [Hs|[Hs Hi]]; rewrite Hs.
    - run_step. eexists. split; reflexivity.
    - run_step. rewrite Hi. run_step. eexists. split; [reflexivity|].
      cbn [trace]. now rewrite <- app_assoc. }
  destruct Ha as (s2 & Ha & T2).
  destruct (supervise_unarmed sp w rq l s1 s2 _ Ha) as (s' & Es & Ts).
  exists s'. split.
  - rewrite (execute_found processing w rq exe found found_ne).
    rewrite (bind_ok _ _ _ _ _ launched_ok). fold sp.
    now rewrite (bind_throw _ _ _ _ _ Es).
  - rewrite Ts, T2, <- !app_assoc. unfold reap_events, unwind_events.
    rewrite Hpid. cbn [negb andb app]. now destruct (input rq).
Qed.

Variables (s2 s3 : os_state) (armed : bool).

Hypothesis armed_ok : arm_timer w (timeout rq) s1 = (s2, Ok armed).

(** X12.  When the loop returned and [waitpid] reports a death by signal
    [sig], [execute] returns a result with success false and status [sig],
    or, when [throw_on_signal] is set, raises a [child_signal_exception]
    with [sig] and the captured output; [throw_on_nonzero_exit] plays no
    part. *)
Theorem signal_termination_reported (b : buffers sp) (sig : Z) (core : bool) :
  read_streams sp w rq l (fresh sp) s2 = (s3, Ok b) ->
  waitpid_r w = inl (Posix.killed_by sig core) ->
  1 <= sig <= 126 ->
  exists s',
    execute processing w rq s
    = (s', if throw_on_signal (options rq)
           then Throw (child_signal_exception
                         ("child process was terminated by signal ("
                            ++ Text.decimal sig ++ ").")
                         sig (fst (captured sp b)) (snd (captured sp b)))
           else Ok {| success := false;
                      output := fst (captured sp b);
                      error := snd (captured sp b);
                      exit_code := sig |}).
Proof.
  intros Hr Hw Hsig.
  destruct (execute_loop_returned processing w rq exe l s s1 s2 s3 armed
              found found_ne launched_ok armed_ok b Hr) as (s' & E & _).
  exists s'. rewrite E. f_equal.
  unfold reaped_by. rewrite Hw, decode_killed by exact Hsig.
  unfold verdict, conclude. cbn [r_success r_signaled r_status not_reaped negb andb].
  destruct (throw_on_signal (options rq)); reflexivity.
Qed.

(** X13.  When the loop returned but [waitpid] fails, [execute] returns a
    result with success false and status 0, with the captured output,
    whatever the options: nothing is raised even when both failure options
    are set. *)
Theorem waitpid_failure_returns_status_0 (b : buffers sp) (e : Z) :
  read_streams sp w rq l (fresh sp) s2 = (s3, Ok b) ->
  waitpid_r w = inr e ->
  exists s',
    execute processing w rq s
    = (s', Ok {| success := false;
                 output := fst (captured sp b);
                 error := snd (captured sp b);
                 exit_code := 0 |}).
Proof.
  intros Hr Hw.
  destruct (execute_loop_returned processing w rq exe l s s1 s2 s3 armed
              found found_ne launched_ok armed_ok b Hr) as (s' & E & _).
  exists s'. rewrite E. f_equal.
  unfold reaped_by. rewrite Hw.
  unfold verdict, conclude. cbn [r_success r_signaled r_status not_reaped negb andb].
  cbn [Z.eqb]. cbn [negb andb]. reflexivity.
Qed.

(** X14.  A call with a timeout that reached the loop leaves, when it
    returns or raises, the timer disarmed and [command_timedout] cleared,
    whether the loop returned or was left by an exception, the timeout
    included. *)
Theorem timer_disarmed_on_every_exit (r : res (buffers sp)) :
  timeout rq <> 0 ->
  read_streams sp w rq l (fresh sp) s2 = (s3, r) ->
  r <> Blocked ->
  armed = true
  /\ exists s' r' after,
       execute processing w rq s = (s', r')
       /\ command_timedout s' = false
       /\ trace s' = trace s3 ++ after
       /\ In (EvSetitimer 0) after.
Proof.
  intros Ht Hr Hnb.
  assert (Harmed : armed = true).
  { destruct (arm_timer_outcome w (timeout rq) s1) as [(a & Ha & Hv)|(e & Ha & _)];
      rewrite armed_ok in Ha; cbn [snd] in Ha; [|discriminate].
    injection Ha as Ha. rewrite Ha, Hv. apply Z.eqb_neq in Ht. now rewrite Ht. }
  split; [exact Harmed|].
  destruct (loop_left processing w rq exe l s s1 s2 s3 armed launched_ok armed_ok r Hr)
    as (before & during & _ & _ & _ & L).
  destruct r as [b|e| |c|]; try contradiction.
  - destruct (execute_loop_returned processing w rq exe l s s1 s2 s3 armed
                found found_ne launched_ok armed_ok b Hr) as (s' & E & T & F).
    exists s'. eexists. eexists. split; [exact E|].
    split; [now rewrite F, Harmed|]. split; [exact T|].
    rewrite Harmed, !in_app_iff. right. right. right. left. left. reflexivity.
  - destruct (execute_loop_threw processing w rq exe l s s1 s2 s3 armed
                found found_ne launched_ok armed_ok e Hr) as (s' & E & T & F).
    exists s'. eexists. eexists. split; [exact E|].
    split; [now rewrite F, Harmed|]. split; [exact T|].
    rewrite Harmed, !in_app_iff. left. left. reflexivity.
Qed.

End Reached.

(** ** What the loop touches *)

Lemma performs_release_valid {B} (fd : Z) (k : M B) (Q : list event -> res B -> Prop) :
  (0 <= fd -> performs k (fun e r => Q (EvClose fd :: e) r)) ->
  (fd < 0 -> performs k Q) ->
  performs (release fd ;; k) Q.
Proof.
  intros H1 H2. unfold release. destruct (Z.leb_spec 0 fd) as [L|L]; cbn [when].
  - apply performs_emit_then. now apply H1.
  - intro s. exact (H2 L s).
Qed.

Lemma string_app_assoc (a b c : string) :
  ((a ++ b) ++ c = a ++ (b ++ c))%string.
Proof. induction a as [|x a IH]; cbn; [reflexivity | now rewrite IH]. Qed.

Lemma written_app (a b : list event) : written (a ++ b) = (written a ++ written b)%string.
Proof.
  induction a as [|ev a IH]; [reflexivity|].
  destruct ev; cbn [written app]; try exact IH.
  rewrite IH. symmetry. apply string_app_assoc.
Qed.

Lemma stream_eqb_refl (st : stream) : stream_eqb st st = true.
Proof. now destruct st. Qed.

Lemma covered_self (pipes : list pipe) : covered pipes pipes.
Proof.
  apply Forall_forall. intros p Hp.
  destruct (Z.eqb_spec (descriptor p) (-1)) as [E|N]; [now left|]. right.
  unfold stream_open. apply existsb_exists. exists p. split; [exact Hp|].
  rewrite stream_eqb_refl. apply Z.eqb_neq in N. now rewrite N.
Qed.

Lemma covered_prepare (pipes0 pipes : list pipe) :
  covered pipes0 pipes -> covered pipes0 (map prepare pipes).
Proof.
  unfold covered. rewrite !Forall_forall. intros H p Hp.
  apply in_map_iff in Hp as (q & <- & Hq). specialize (H q Hq).
  unfold prepare. destruct (descriptor q =? -1); exact H.
Qed.

Section Uses.

Variable sp : stream_processor.
Variable pipes0 : list pipe.
Variable fd0 : Z.

Let used (evs : list event) : Prop := Forall (permitted pipes0 fd0) evs.

Lemma read_pipes_uses (it : iteration) (readable : list Z) (fd : Z)
    (pipes : list pipe) (b : buffers sp) :
  covered pipes0 pipes -> fd = fd0 \/ fd < 0 ->
  performs (read_pipes sp it readable fd pipes b)
           (fun evs r => used evs /\ written evs = ""
                         /\ match r with
                            | Ok (pipes', _, _) => covered pipes0 pipes'
                            | _ => True
                            end).
Proof.
  intros Hc Hfd. revert b.
  induction Hc as [|p rest Hp Hrest IH]; intro b; cbn [read_pipes].
  - apply performs_ret. repeat split; constructor.
  - assert (Hcont : forall (p' : pipe) (b0 : buffers sp),
               (descriptor p' = -1 \/ stream_open pipes0 (callback p') = true) ->
               performs ('(rest', b', f) <- read_pipes sp it readable fd rest b0 ;;
                         ret (p' :: rest', b', f))
                        (fun evs r => used evs /\ written evs = ""
                                      /\ match r with
                                         | Ok (pipes', _, _) => covered pipes0 pipes'
                                         | _ => True
                                         end)).
    { intros p' b0 Hp'. eapply performs_bind; [apply IH| |].
      - intros [[rest' b'] f]. apply performs_ret. intros e1 (U & W & C).
        rewrite app_nil_r. split; [exact U|]. split; [exact W|].
        constructor; assumption.
      - intros e1 r r' (U & W & _) Hr.
        destruct r as [a|e| |c|]; inversion Hr; subst; auto. }
    destruct ((descriptor p =? -1) || negb (FD_ISSET (descriptor p) readable)) eqn:Hsel;
      [now apply Hcont|].
    apply orb_false_iff in Hsel as [Hopen _]. apply Z.eqb_neq in Hopen.
    destruct Hp as [Hclosed|Hstream]; [contradiction|].
    destruct (read_r it (callback p)) as [e|avail].
    + apply performs_set_errno_then.
      destruct (negb (e =? Posix.EINTR)); [|apply Hcont; now right].
      unfold leave. apply performs_release_valid; intro Hv; apply performs_throw.
      * split; [|auto]. constructor; [|constructor].
        cbn. destruct Hfd as [->|Hneg]; [split; [reflexivity | lia] | lia].
      * repeat split; constructor.
    + destruct (Nat.eqb _ 0); [apply Hcont; now left|].
      cbn [set_buffer buffer callback name descriptor].
      apply performs_emit_then.
      match goal with
      | |- context [process sp (callback p) b ?chunk] =>
          destruct (process sp (callback p) b chunk) as [b' more]
      end.
      apply performs_emit_then.
      assert (HU : forall bytes chunk m evs,
                 used evs ->
                 used (EvRead (callback p) bytes
                         :: EvCallback (callback p) chunk m :: evs)).
      { intros bytes chunk m evs U.
        constructor; [exact Hstream|]. constructor; [exact Hstream | exact U]. }
      destruct more; cbn [negb].
      * eapply performs_weaken.
        -- apply Hcont. now right.
        -- intros evs r (U & W & C).
           split; [apply HU; exact U|]. split; [exact W | exact C].
      * apply performs_ret.
        split; [apply HU; constructor|]. split; [reflexivity|].
        constructor; [now right | exact Hrest].
Qed.

Lemma substring_split (text : string) (count : nat) :
  (count <= String.length text)%nat ->
  text = (substring 0 count text
          ++ substring count (String.length text - count) text)%string.
Proof.
  revert text. induction count as [|n IH]; intros text H.
  - cbn [substring]. destruct text; cbn; [reflexivity|].
    now rewrite substring_all.
  - destruct text as [|c text]; cbn in H; [lia|].
    cbn [substring String.length Nat.sub String.append]. f_equal.
    apply IH. lia.
Qed.

Lemma rw_from_child_uses (child timeout_s : Z) (script : list iteration)
    (pipes : list pipe) (input : Z * string) (b : buffers sp) :
  covered pipes0 pipes -> fst input = fd0 \/ fst input = -1 ->
  performs (rw_from_child sp child timeout_s script pipes input b)
           (fun evs _ => used evs
                         /\ exists rest, snd input = (written evs ++ rest)%string).
Proof.
  revert pipes input b.
  induction script as [|it rest IH]; intros pipes input b Hc Hfd s;
    cbn [rw_from_child].
  all: assert (Hleave : forall (m : M (buffers sp)) (pre : list event),
                 used pre -> written pre = "" ->
                 performs m (fun evs r => evs = []) ->
                 performs (leave (fst input) m)
                          (fun evs _ => used (pre ++ evs)
                                        /\ exists rest0,
                                             snd input
                                             = (written (pre ++ evs) ++ rest0)%string)).
  1,3: intros m pre U W Hm; unfold leave; apply performs_release_valid; intro Hv;
       (eapply performs_weaken; [exact Hm|]); intros evs r ->;
       rewrite written_app, W;
       (split; [apply Forall_app; split; [exact U|]
               | exists (snd input); reflexivity]);
       [ constructor; [|constructor]; cbn;
         destruct Hfd as [<-|E]; [split; [reflexivity | lia] | lia]
       | constructor ].
  all: assert (Hleave0 : forall (m : M (buffers sp)),
                 performs m (fun evs r => evs = []) ->
                 performs (leave (fst input) m)
                          (fun evs _ => used evs
                                        /\ exists rest0,
                                             snd input = (written evs ++ rest0)%string))
    by (intros m Hm; apply (Hleave m [] (Forall_nil _) eq_refl Hm)).
  all: assert (Hthrow : forall e, performs (@throw (buffers sp) e) (fun evs r => evs = []))
    by (intro e; now apply performs_throw).
  all: assert (Hret : forall x, performs (@ret (buffers sp) x) (fun evs r => evs = []))
    by (intro x; now apply performs_ret).
  all: destruct (command_timedout s); [apply Hleave0, Hthrow|].
  all: destruct (select_max (map prepare pipes) (fst input) =? -1);
    [apply Hleave0, Hret|].
  - exists []. rewrite app_nil_r. split; [reflexivity|].
    split; [constructor | now exists (snd input)].
  - assert (Hnext : forall pipes' b' (pre : list event),
               covered pipes0 pipes' -> used pre -> written pre = "" ->
               performs (rw_from_child sp child timeout_s rest pipes' input b')
                        (fun evs _ => used (pre ++ evs)
                                      /\ exists rest0,
                                           snd input
                                           = (written (pre ++ evs) ++ rest0)%string)).
    { intros pipes' b' pre Hc' U W.
      eapply performs_weaken; [apply (IH pipes' input b' Hc' Hfd)|].
      intros evs r (U' & rest0 & E). split; [now apply Forall_app|].
      exists rest0. now rewrite written_app, W. }
    assert (Hnext0 : forall pipes' b',
               covered pipes0 pipes' ->
               performs (rw_from_child sp child timeout_s rest pipes' input b')
                        (fun evs _ => used evs
                                      /\ exists rest0,
                                           snd input = (written evs ++ rest0)%string)).
    { intros pipes' b' Hc'.
      apply (Hnext pipes' b' [] Hc' (Forall_nil _) eq_refl). }
    refine ((_ : performs _ (fun evs _ => used evs
                                          /\ exists rest0,
                                               snd input
                                               = (written evs ++ rest0)%string)) s).
    apply performs_when_then; [apply performs_set_flag_then|];
      (destruct (select_r it) as [e| |readable writable];
       [ apply performs_set_errno_then;
         destruct (negb (e =? Posix.EINTR));
         [apply Hleave0, Hthrow | apply Hnext0, covered_prepare, Hc]
       | apply Hnext0, covered_prepare, Hc
       | ]).
    all: eapply performs_bind_known;
      [ apply (read_pipes_uses it readable (fst input) (map prepare pipes) b
                 (covered_prepare _ _ Hc));
        destruct Hfd as [E|E]; [now left | right; lia]
      |
      | intros e1 r r' (U & W & _) Hr; destruct r as [a|e| |c|]; inversion Hr; subst;
        (split; [exact U | exists (snd input); now rewrite W]) ].
    all: intros [[pipes1 b1] f] e1 (U & W & C1); cbv beta iota.
    all: destruct f; [|apply (Hleave _ e1 U W), Hret].
    all: destruct (negb (fst input =? -1) && FD_ISSET (fst input) writable) eqn:Hwr;
      [|apply (Hnext pipes1 b1 e1 C1 U W)].
    all: apply andb_true_iff in Hwr as [Hopen _];
      apply negb_true_iff, Z.eqb_neq in Hopen;
      assert (Hfd0 : fst input = fd0) by (destruct Hfd; [assumption | contradiction]).
    all: destruct (write_r it) as [e|room].
    all: try (apply performs_set_errno_then;
              destruct (negb (e =? Posix.EINTR));
              [apply (Hleave _ e1 U W), Hthrow | apply (Hnext pipes1 b1 e1 C1 U W)]).
    all: cbv zeta; destruct (Nat.eqb _ 0).
    all: try (apply performs_release_valid; intro Hv;
              (eapply performs_weaken;
               [apply (IH pipes1 (-1, "") b1 C1); right; reflexivity|]);
              intros evs r (U' & rest0 & E); cbn [snd] in E;
              assert (Wz : written evs = "")
                by (destruct (written evs); [reflexivity | discriminate]);
              rewrite ?written_app; cbn [written]; rewrite ?written_app, W, Wz;
              (split; [|exists (snd input); reflexivity]);
              repeat (apply Forall_app; split); try assumption;
              try (constructor; [cbn; split; [exact Hfd0 | congruence]|]);
              assumption).
    all: apply performs_emit_then;
      (eapply performs_weaken;
       [apply (IH pipes1 (fst input, _) b1 C1); left; exact Hfd0|]);
      intros evs r (U' & rest0 & E); cbn [snd] in E;
      (split;
       [ apply Forall_app; split; [exact U|];
         constructor; [cbn; split; [exact Hfd0 | congruence] | exact U']
       | exists rest0; rewrite written_app, W; cbn [written String.append];
         rewrite string_app_assoc, <- E;
         apply substring_split, Nat.le_min_r ]).
Qed.

End Uses.

(** X15.  The loop reads from a pipe, and calls a callback, only for a
    stream that has an open pipe among those it was given; it writes only to
    the input descriptor it was given, and closes nothing else. *)
Theorem loop_touches_only_what_it_was_given
    (sp : stream_processor) (child timeout_s : Z) (script : list iteration)
    (pipes : list pipe) (input : Z * string) (b : buffers sp) (s : os_state) :
  exists evs,
    trace (fst (rw_from_child sp child timeout_s script pipes input b s))
    = trace s ++ evs
    /\ Forall (permitted pipes (fst input)) evs.
Proof.
  destruct (rw_from_child_uses sp pipes (fst input) child timeout_s script pipes input b
              (covered_self pipes) (or_introl eq_refl) s) as (evs & T & U & _).
  exists evs. split; assumption.
Qed.

(** X16.  What the loop writes to the child's standard input, taken in
    order, is a prefix of the input text: nothing is written twice, skipped
    or reordered, however short the writes the pipe accepts. *)
Theorem loop_writes_a_prefix_of_the_input
    (sp : stream_processor) (child timeout_s : Z) (script : list iteration)
    (pipes : list pipe) (input : Z * string) (b : buffers sp) (s : os_state) :
  exists evs rest,
    trace (fst (rw_from_child sp child timeout_s script pipes input b s))
    = trace s ++ evs
    /\ snd input = (written evs ++ rest)%string.
Proof.
  destruct (rw_from_child_uses sp pipes (fst input) child timeout_s script pipes input b
              (covered_self pipes) (or_introl eq_refl) s) as (evs & T & _ & rest & E).
  exists evs, rest. split; assumption.
Qed.

Lemma select_max_all_closed (pipes : list pipe) :
  (forall p, In p pipes -> descriptor p = -1) ->
  select_max (map prepare pipes) (-1) = -1.
Proof.
  intro H. unfold select_max. cbn [Z.eqb negb andb].
  destruct (select_max_fold (map prepare pipes) (-1)) as (_ & _ & [E|(p & Hp & Hn & _)]).
  - exact E.
  - exfalso. apply Hn. apply in_map_iff in Hp as (q & <- & Hq).
    unfold prepare. rewrite (H q Hq), Z.eqb_refl. exact (H q Hq).
Qed.

(** X17.  With every pipe closed and no input descriptor the loop needs no
    answer from the operating system: it returns at once, having done
    nothing -- unless the expiry flag is set, for the flag is tested first
    and the timeout exception is raised even then. *)
Theorem loop_with_nothing_to_select
    (sp : stream_processor) (child timeout_s : Z) (script : list iteration)
    (pipes : list pipe) (text : string) (b : buffers sp) (s : os_state) :
  (forall p, In p pipes -> descriptor p = -1) ->
  rw_from_child sp child timeout_s script pipes (-1, text) b s
  = (s, if command_timedout s
        then Throw (timeout_exception
                      ("command timed out after " ++ Text.decimal timeout_s
                         ++ " seconds.") child)
        else Ok b).
Proof.
  intro H. destruct script; cbn [rw_from_child fst];
    rewrite (select_max_all_closed pipes H); destruct (command_timedout s);
    reflexivity.
Qed.

Lemma loop_with_nothing_to_select_witness :
  let s := {| command_timedout := false; errno := 0; trace := [] |} in
  rw_from_child (Scenario.accumulate true) 4242 0 [Scenario.idle]
    [ {| name := "stdout"; descriptor := -1; buffer := ""; callback := Stdout |} ]
    (-1, "") ("", "") s
  = (s, Ok ("", "")).
Proof.
  intro s.
  apply (loop_with_nothing_to_select (Scenario.accumulate true) 4242 0 [Scenario.idle]
           [ {| name := "stdout"; descriptor := -1; buffer := ""; callback := Stdout |} ]
           "" ("", "") s).
  intros p [<-|[]]. reflexivity.
Defined.

Lemma launch_stderr_redirected (w : world) (rq : request) (exe : string)
    (s s1 : os_state) (l : launched) :
  launch w rq exe s = (s1, Ok l) ->
  redirect_stderr_to_stdout (options rq) = true
  \/ redirect_stderr_to_null (options rq) = true ->
  stderr_read l = -1.
Proof.
  unfold launch. intros H Hopt.
  apply bind_ok_inv in H as ([stdin_rd stdin_wr] & sa & _ & H).
  apply scope_fail_ok_inv in H.
  apply bind_ok_inv in H as ([stdout_rd stdout_wr] & sb & _ & H).
  apply scope_fail_ok_inv in H.
  apply bind_ok_inv in H as ([[stderr_rd stderr_wr] child_stderr] & sc & Hmode & H).
  apply scope_fail_ok_inv in H.
  apply bind_ok_inv in H as (child & sd & _ & H).
  apply bind_ok_inv in H as (_ & se & _ & H).
  apply bind_ok_inv in H as (_ & sf & _ & H).
  apply bind_ok_inv in H as (_ & sg & _ & H).
  apply bind_ok_inv in H as (_ & sh & _ & H).
  inversion H. subst. cbn [stderr_read].
  destruct (redirect_stderr_to_stdout (options rq)).
  - inversion Hmode. reflexivity.
  - destruct (redirect_stderr_to_null (options rq)).
    + apply bind_ok_inv in Hmode as (_ & sx & _ & Hmode). inversion Hmode. reflexivity.
    + destruct Hopt; discriminate.
Qed.

Lemma delivered_permitted (pipes : list pipe) (fd : Z) (st : stream) (evs : list event) :
  stream_open pipes st = false ->
  Forall (permitted pipes fd) evs ->
  delivered st evs = [] /\ received st evs = [].
Proof.
  intros Hst H. induction H as [|ev evs Hev _ [IHd IHr]]; [split; reflexivity|].
  unfold delivered, received in *. cbn [flat_map].
  rewrite IHd, IHr.
  destruct ev; try contradiction; cbn in Hev |- *; try (split; reflexivity).
  - destruct s, st; cbn; try (split; reflexivity); congruence.
  - destruct s, st; cbn; try (split; reflexivity); congruence.
Qed.

(** X18.  When standard error is redirected to standard output or to the
    null device, the call has no pipe for it ([stderr_read] stays invalid),
    and the loop never reads standard error nor calls the callback of
    standard error. *)
Theorem redirected_stderr_is_never_read
    (sp : stream_processor) (w : world) (rq : request) (exe : string)
    (s s1 s2 : os_state) (l : launched) (b : buffers sp) :
  launch w rq exe s = (s1, Ok l) ->
  redirect_stderr_to_stdout (options rq) = true
  \/ redirect_stderr_to_null (options rq) = true ->
  stderr_read l = -1
  /\ exists evs,
       trace (fst (read_streams sp w rq l b s2)) = trace s2 ++ evs
       /\ delivered Stderr evs = []
       /\ received Stderr evs = [].
Proof.
  intros Hl Hopt. pose proof (launch_stderr_redirected w rq exe s s1 l Hl Hopt) as Herr.
  split; [exact Herr|]. unfold read_streams.
  match goal with
  | |- context [rw_from_child sp ?c ?t ?sc ?pipes ?input b s2] =>
      destruct (rw_from_child_uses sp pipes (fst input) c t sc pipes input b
                  (covered_self pipes) (or_introl eq_refl) s2) as (evs & T & U & _);
      exists evs; split; [exact T|];
      apply (delivered_permitted pipes (fst input))
  end; [|exact U].
  unfold stream_open. cbn [existsb callback descriptor stream_eqb andb orb].
  rewrite Herr. reflexivity.
Qed.

Lemma redirected_stderr_is_never_read_witness :
  let w := Scenario.host 4242 [Scenario.both_closed] (inl 0) None in
  let rq := {| file := "sh"; arguments := None; input := None; environment := None;
               options := {| merge_environment := false;
                             redirect_stderr_to_stdout := true;
                             redirect_stderr_to_null := false; trim_output := false;
                             throw_on_nonzero_exit := false; throw_on_signal := false |};
               timeout := 0 |} in
  let l := {| child_pid := 4242; stdin_write := 4; stdout_read := 5; stderr_read := -1 |} in
  exists evs,
    trace (fst (read_streams (Scenario.accumulate true) w rq l ("", "") (start w)))
    = trace (start w) ++ evs
    /\ delivered Stderr evs = [].
Proof.
  intros w rq l.
  pose (s1 := fst (launch w rq "/bin/sh" (start w))).
  assert (Hl : launch w rq "/bin/sh" (start w) = (s1, Ok l))
    by (vm_compute; reflexivity).
  destruct (redirected_stderr_is_never_read (Scenario.accumulate true) w rq "/bin/sh"
              (start w) s1 (start w) l ("", "") Hl (or_introl eq_refl))
    as (_ & evs & T & D & _).
  exists evs. split; assumption.
Defined.

(** X19.  The loop of a call without input has no input descriptor: it
    never writes and never closes a descriptor. *)
Theorem no_input_is_never_written
    (sp : stream_processor) (w : world) (rq : request) (l : launched)
    (b : buffers sp) (s : os_state) :
  input rq = None ->
  exists evs,
    trace (fst (read_streams sp w rq l b s)) = trace s ++ evs
    /\ written evs = ""
    /\ Forall (fun ev => match ev with
                         | EvWrite _ _ | EvClose _ => False
                         | _ => True
                         end) evs.
Proof.
  intro Hin. unfold read_streams. rewrite Hin.
  match goal with
  | |- context [rw_from_child sp ?c ?t ?sc ?pipes ?input b s] =>
      destruct (rw_from_child_uses sp pipes (fst input) c t sc pipes input b
                  (covered_self pipes) (or_introl eq_refl) s)
        as (evs & T & U & rest & E)
  end.
  exists evs. split; [exact T|]. split.
  - cbn [snd] in E. destruct (written evs); [reflexivity | discriminate].
  - eapply Forall_impl; [|exact U]. intros ev Hev.
    destruct ev; try exact I; cbn in Hev; destruct Hev as [_ N]; now apply N.
Qed.

Lemma no_input_is_never_written_witness :
  let w := Scenario.host 4242 [Scenario.both_closed] (inl 0) None in
  let l := {| child_pid := 4242; stdin_write := 4; stdout_read := 5; stderr_read := 7 |} in
  exists evs,
    trace (fst (read_streams (Scenario.accumulate true) w
                  (Scenario.run "sh" Scenario.plain 0) l ("", "") (start w)))
    = trace (start w) ++ evs
    /\ written evs = "".
Proof.
  intros w l.
  destruct (no_input_is_never_written (Scenario.accumulate true) w
              (Scenario.run "sh" Scenario.plain 0) l ("", "") (start w) eq_refl)
    as (evs & T & W & _).
  exists evs. split; assumption.
Defined.

(** ** The parent after [vfork] *)

Lemma create_child_in_parent (w : world) (in_ out err : Z) (program : string)
    (argv envp : list (option string)) (s : os_state) :
  0 < vfork w ->
  create_child w in_ out err program argv envp s
  = ({| command_timedout := command_timedout s; errno := errno s;
        trace := trace s ++ [EvVfork (vfork w)] |}, Ok (vfork w)).
Proof.
  intro Hv. unfold create_child. run_step.
  destruct (Z.ltb_spec (vfork w) 0); [lia|].
  destruct (Z.eqb_spec (vfork w) 0); [lia|]. reflexivity.
Qed.

(** X20.  With a dedicated pipe for standard error: once the three pipes
    and the child exist, the parent closes the ends that belong to the
    child -- the read end of standard input and the write ends of standard
    output and standard error -- and, when the call has no input, first the
    write end of standard input, so that the child meets the end of file;
    it keeps the write end of standard input (when there is input) and the
    two read ends for the loop. *)
Theorem parent_closes_the_child_ends
    (w : world) (rq : request) (exe : string) (s : os_state)
    (in_rd in_wr out_rd out_wr err_rd err_wr : Z) :
  pipe_stdin w = inl (in_rd, in_wr) ->
  pipe_stdout w = inl (out_rd, out_wr) ->
  pipe_stderr w = inl (err_rd, err_wr) ->
  redirect_stderr_to_stdout (options rq) = false ->
  redirect_stderr_to_null (options rq) = false ->
  0 < vfork w ->
  exists s',
    launch w rq exe s
    = (s', Ok {| child_pid := vfork w; stdin_write := in_wr;
                 stdout_read := out_rd; stderr_read := err_rd |})
    /\ trace s'
       = trace s
         ++ [EvPipe in_rd in_wr; EvPipe out_rd out_wr; EvPipe err_rd err_wr;
             EvVfork (vfork w)]
         ++ match input rq with
            | None => close_events in_wr
            | Some _ => []
            end
         ++ close_events in_rd ++ close_events out_wr ++ close_events err_wr.
Proof.
  intros H1 H2 H3 O1 O2 Hv. unfold launch. rewrite H1, H2, H3, O1, O2.
  assert (Hwhen : forall c fd s0,
             when c (release fd) s0
             = ({| command_timedout := command_timedout s0; errno := errno s0;
                   trace := trace s0 ++ (if c then close_events fd else []) |}, Ok tt)).
  { intros c fd s0. destruct c; cbn [when].
    - now rewrite release_run, release_state.
    - unfold ret. destruct s0. cbn. now rewrite app_nil_r. }
  rewrite (bind_ok _ _ _ _ _ (sys_pipe_created w _ _ _ _)). cbv beta iota.
  eexists. split.
  - apply scope_fail_ok.
    rewrite (bind_ok _ _ _ _ _ (sys_pipe_created w _ _ _ _)). cbv beta iota.
    apply scope_fail_ok.
    rewrite (bind_ok _ _ _ _ _ (stderr_pipe_run w (inl (err_rd, err_wr)) _ _)).
    cbv beta iota. apply scope_fail_ok.
    rewrite (bind_ok _ _ _ _ _ (create_child_in_parent w _ _ _ _ _ _ _ Hv)).
    rewrite (bind_ok _ _ _ _ _ (Hwhen _ _ _)).
    rewrite !(bind_ok _ _ _ _ _ (release_run _ _)). cbn [ret]. reflexivity.
  - rewrite !release_state. cbn [command_timedout errno trace].
    rewrite <- !app_assoc. cbn [app].
    destruct (input rq); reflexivity.
Qed.

Lemma parent_closes_the_child_ends_witness :
  let w := Scenario.host 4242 [] (inl 0) None in
  exists s',
    launch w (Scenario.run "sh" Scenario.plain 0) "/bin/sh" (start w)
    = (s', Ok {| child_pid := 4242; stdin_write := 4; stdout_read := 5;
                 stderr_read := 7 |})
    /\ trace s' = [EvPipe 3 4; EvPipe 5 6; EvPipe 7 8; EvVfork 4242;
                   EvClose 4; EvClose 3; EvClose 6; EvClose 8].
Proof.
  intro w.
  destruct (parent_closes_the_child_ends w (Scenario.run "sh" Scenario.plain 0) "/bin/sh"
              (start w) 3 4 5 6 7 8 eq_refl eq_refl eq_refl eq_refl eq_refl
              ltac:(cbn; lia)) as (s' & E & T).
  exists s'. split; [exact E | exact T].
Defined.


(** ** The other paths of [execute] on concrete worlds *)

Lemma pipe_failure_raises_before_child_witness :
  let w := with_pipe_stderr (Scenario.host 4242 [] (inl 0) None) (inr 24) in
  execute (fun _ => Scenario.accumulate true) w (Scenario.run "sh" Scenario.plain 0)
          (start w)
  = ({| command_timedout := false; errno := 24;
        trace := [EvPipe 3 4; EvPipe 5 6;
                  EvClose 6; EvClose 5; EvClose 4; EvClose 3] |},
     Throw (execution_exception
              "failed to allocate pipe for stderr redirection: error (24).")).
Proof.
  intro w.
  destruct (pipe_failure_raises_before_child (fun _ => Scenario.accumulate true) w
              (Scenario.run "sh" Scenario.plain 0) "/bin/sh" (start w)
              eq_refl ltac:(discriminate)) as (_ & _ & H & _).
  exact (H 3 4 5 6 24 eq_refl eq_refl eq_refl eq_refl eq_refl).
Defined.

Lemma vfork_failure_raises_without_reaping_witness :
  let w := Scenario.host (-1) [] (inl 0) None in
  exists s' m evs,
    execute (fun _ => Scenario.accumulate true) w (Scenario.run "sh" Scenario.plain 0)
            (start w)
    = (s', Throw (execution_exception m))
    /\ trace s' = trace (start w) ++ evs
    /\ process_calls evs = [].
Proof.
  intro w.
  apply (vfork_failure_raises_without_reaping (fun _ => Scenario.accumulate true) w
           (Scenario.run "sh" Scenario.plain 0) "/bin/sh" (start w)
           eq_refl ltac:(discriminate)).
  cbn. lia.
Defined.

Lemma child_reaped_exactly_once_witness :
  let w := Scenario.host 4242 [Scenario.read_fails] (inl (Posix.killed_by 9 false)) None in
  let rq := Scenario.run "sh" Scenario.plain 0 in
  let run := execute (fun _ => Scenario.accumulate true) w rq (start w) in
  exists evs,
    trace (fst run) = trace (start w) ++ evs
    /\ (((exists s1 l, launch w rq "/bin/sh" (start w) = (s1, Ok l))
         /\ (process_calls evs = [EvWaitpid 4242]
             \/ process_calls evs = [EvKill (-4242) Posix.SIGKILL; EvWaitpid 4242]))
        \/ ((forall s1 l, launch w rq "/bin/sh" (start w) <> (s1, Ok l))
            /\ process_calls evs = [])).
Proof.
  intros w rq run.
  assert (R : exists m, snd run = Throw (execution_exception m))
    by (eexists; vm_compute; reflexivity).
  destruct R as [m R].
  apply (child_reaped_exactly_once (fun _ => Scenario.accumulate true) w rq "/bin/sh"
           (start w) eq_refl ltac:(discriminate) (fst run) (snd run)).
  - apply surjective_pairing.
  - right. exists (execution_exception m). exact R.
Defined.

Lemma timer_failure_kills_and_reaps_witness :
  let w := Scenario.without_timer (Scenario.host 4242 [] (inl (Posix.killed_by 9 false)) None) 22 in
  let rq := {| file := "sh"; arguments := None; input := Some "data";
               environment := None; options := Scenario.plain; timeout := 5 |} in
  exists s',
    execute (fun _ => Scenario.accumulate true) w rq (start w)
    = (s', Throw (execution_exception "failed to setup timer: error (22)."))
    /\ trace s'
       = [EvPipe 3 4; EvPipe 5 6; EvPipe 7 8; EvVfork 4242;
          EvClose 3; EvClose 6; EvClose 8;
          EvSigaction; EvSetitimer 5; EvKill (-4242) 9; EvWaitpid 4242;
          EvClose 7; EvClose 5; EvClose 4].
Proof.
  intros w rq.
  pose (l := {| child_pid := 4242; stdin_write := 4; stdout_read := 5; stderr_read := 7 |}).
  pose (s1 := fst (launch w rq "/bin/sh" (start w))).
  assert (Hl : launch w rq "/bin/sh" (start w) = (s1, Ok l))
    by (vm_compute; reflexivity).
  destruct (timer_failure_kills_and_reaps (fun _ => Scenario.accumulate true) w rq
              "/bin/sh" l (start w) s1 eq_refl ltac:(discriminate) Hl 22
              ltac:(discriminate) (or_intror (conj eq_refl eq_refl)))
    as (s' & E & T).
  exists s'. split; [exact E | exact T].
Defined.

Lemma signal_termination_reported_witness :
  let w := Scenario.host 4242 [Scenario.both_closed] (inl (Posix.killed_by 15 false)) None in
  exists s',
    execute (fun _ => Scenario.accumulate true) w (Scenario.run "sh" Scenario.strict 0)
            (start w)
    = (s', Throw (child_signal_exception
                    "child process was terminated by signal (15)." 15 "" "")).
Proof.
  intro w.
  pose (rq := Scenario.run "sh" Scenario.strict 0).
  pose (sp := Scenario.accumulate true).
  pose (l := {| child_pid := 4242; stdin_write := 4; stdout_read := 5; stderr_read := 7 |}).
  pose (s1 := fst (launch w rq "/bin/sh" (start w))).
  pose (s3 := fst (read_streams sp w rq l (fresh sp) s1)).
  assert (Hl : launch w rq "/bin/sh" (start w) = (s1, Ok l))
    by (vm_compute; reflexivity).
  assert (Ha : arm_timer w (timeout rq) s1 = (s1, Ok false))
    by (vm_compute; reflexivity).
  assert (Hr : read_streams sp w rq l (fresh sp) s1 = (s3, Ok ("", "")))
    by (vm_compute; reflexivity).
  destruct (signal_termination_reported (fun _ => sp) w rq "/bin/sh" l (start w)
              s1 eq_refl ltac:(discriminate) Hl s1 s3 false Ha ("", "") 15 false
              Hr eq_refl ltac:(lia))
    as (s' & E).
  exists s'. exact E.
Defined.

Lemma waitpid_failure_returns_status_0_witness :
  let w := Scenario.host 4242 [Scenario.says "partial" false; Scenario.both_closed]
                         (inr 10) None in
  exists s',
    execute (fun _ => Scenario.accumulate true) w (Scenario.run "sh" Scenario.strict 0)
            (start w)
    = (s', Ok {| success := false; output := "partial"; error := ""; exit_code := 0 |}).
Proof.
  intro w.
  pose (rq := Scenario.run "sh" Scenario.strict 0).
  pose (sp := Scenario.accumulate true).
  pose (l := {| child_pid := 4242; stdin_write := 4; stdout_read := 5; stderr_read := 7 |}).
  pose (s1 := fst (launch w rq "/bin/sh" (start w))).
  pose (s3 := fst (read_streams sp w rq l (fresh sp) s1)).
  assert (Hl : launch w rq "/bin/sh" (start w) = (s1, Ok l))
    by (vm_compute; reflexivity).
  assert (Ha : arm_timer w (timeout rq) s1 = (s1, Ok false))
    by (vm_compute; reflexivity).
  assert (Hr : read_streams sp w rq l (fresh sp) s1 = (s3, Ok ("partial", "")))
    by (vm_compute; reflexivity).
  destruct (waitpid_failure_returns_status_0 (fun _ => sp) w rq "/bin/sh" l (start w)
              s1 eq_refl ltac:(discriminate) Hl s1 s3 false Ha ("partial", "") 10
              Hr eq_refl)
    as (s' & E).
  exists s'. exact E.
Defined.

Lemma timer_disarmed_on_every_exit_witness :
  let w := Scenario.host 4242 [Scenario.says "late" true]
                         (inl (Posix.killed_by 9 false)) None in
  let rq := Scenario.run "sh" Scenario.plain 1 in
  exists s3 s' r' after,
    execute (fun _ => Scenario.accumulate true) w rq (start w) = (s', r')
    /\ command_timedout s3 = true
    /\ command_timedout s' = false
    /\ trace s' = trace s3 ++ after
    /\ In (EvSetitimer 0) after.
Proof.
  intros w rq.
  pose (sp := Scenario.accumulate true).
  pose (l := {| child_pid := 4242; stdin_write := 4; stdout_read := 5; stderr_read := 7 |}).
  pose (s1 := fst (launch w rq "/bin/sh" (start w))).
  pose (s2 := fst (arm_timer w (timeout rq) s1)).
  pose (run := read_streams sp w rq l (fresh sp) s2).
  assert (Hl : launch w rq "/bin/sh" (start w) = (s1, Ok l))
    by (vm_compute; reflexivity).
  assert (Ha : arm_timer w (timeout rq) s1 = (s2, Ok true))
    by (vm_compute; reflexivity).
  assert (Hb : snd run <> Blocked) by (vm_compute; discriminate).
  assert (Hf : command_timedout (fst run) = true) by (vm_compute; reflexivity).
  destruct (timer_disarmed_on_every_exit (fun _ => sp) w rq "/bin/sh" l (start w)
              s1 eq_refl ltac:(discriminate) Hl s2 (fst run) true Ha (snd run)
              ltac:(discriminate) (surjective_pairing run) Hb)
    as (_ & s' & r' & after & E & F & T & I).
  exists (fst run), s', r', after. repeat split; assumption.
Defined.
